(** * go-csv: delimiter and row-terminator detection, dialect builder

    A shallow embedding of [detector/detect.go] and of the dialect builder
    ([DialectBuilder.Dialect]), with the properties of the specification
    stated and settled against that embedding.

    Conventions.
    - A Go [byte] is a [Byte.byte]; a Go [string] or [[]byte] is a
      [list byte].
    - A Go [int] is a 64-bit two's complement integer (the 64-bit
      platforms): a [Z] with the wrap-around of [+] and [-] written out
      ([wrap_int]).
    - [float32] and [float64] are IEEE 754 binary32 and binary64, modelled by
      [spec_float] with the operations of [SpecFloat] at precision 24 / 53
      and maximal exponent 128 / 1024 (round to nearest, ties to even).
      No expression of [analyze] has the form [x*y + z] that a Go compiler
      may fuse; every operation is rounded on its own.
    - [map[byte]map[int]int] is a [gmap byte (gmap Z Z)].  The order in which
      [range] visits a Go map is unspecified; it is an explicit argument
      ([order]) of every function that ranges over a map.
    - An [io.Reader] is consumed through [Read] calls.  [DetectRowTerminator]
      performs a single call, modelled by its outcome ([ReadOutcome]).
      [sample] reads through a [bufio.Reader] until the first error; the
      stream is the list of the chunks delivered by the successful calls. *)

From Stdlib Require Import ZArith List Bool Lia.
From Stdlib Require Import Strings.Byte Strings.String.
From Stdlib Require Import Floats.SpecFloat.
From stdpp Require Import base decidable countable list gmap fin_maps.

Local Open Scope Z_scope.

(** ** Bytes *)

#[global] Instance byte_eq_dec : EqDecision byte := Byte.byte_eq_dec.

Lemma byte_of_to_N (b : byte) : Byte.of_N (Byte.to_N b) = Some b.
Proof. apply Byte.of_to_N. Qed.

#[global] Instance byte_countable : Countable byte :=
  inj_countable Byte.to_N Byte.of_N byte_of_to_N.

(** The numeric value of a byte, [0 .. 255]. *)
Definition byte_val (b : byte) : Z := Z.of_N (Byte.to_N b).

(** The bytes of an ASCII literal. *)
Definition bytes (s : string) : list byte := list_byte_of_string s.

Module Go.

(** ** Go [int] *)

Definition wrap_int (z : Z) : Z := (z + 2 ^ 63) mod 2 ^ 64 - 2 ^ 63.
Definition int_add (a b : Z) : Z := wrap_int (a + b).
Definition int_sub (a b : Z) : Z := wrap_int (a - b).

(** ** Go [float32] and [float64] *)

Definition float32 := spec_float.
Definition float64 := spec_float.

Definition prec32 : Z := 24.
Definition emax32 : Z := 128.
Definition prec64 : Z := 53.
Definition emax64 : Z := 1024.

(** [float32(i)] and [float64(i)] for an [int] [i]. *)
Definition float32_of_int (i : Z) : float32 := binary_normalize prec32 emax32 i 0 false.
Definition float64_of_int (i : Z) : float64 := binary_normalize prec64 emax64 i 0 false.

(** [float64(x)] for a [float32] [x]: every binary32 value is a binary64
    value, the mantissa is realigned. *)
Definition float64_of_float32 (x : float32) : float64 :=
  match x with
  | S754_finite s m e => binary_normalize prec64 emax64 (cond_Zopp s (Zpos m)) e s
  | _ => x
  end.

Definition sub32 : float32 -> float32 -> float32 := SFsub prec32 emax32.
Definition mul32 : float32 -> float32 -> float32 := SFmul prec32 emax32.
Definition div32 : float32 -> float32 -> float32 := SFdiv prec32 emax32.
Definition add64 : float64 -> float64 -> float64 := SFadd prec64 emax64.
Definition div64 : float64 -> float64 -> float64 := SFdiv prec64 emax64.
(** [math.Sqrt] *)
Definition Sqrt : float64 -> float64 := SFsqrt prec64 emax64.
(** [==] on floats: false as soon as one side is NaN, [+0 == -0]. *)
Definition float_eq : spec_float -> spec_float -> bool := SFeqb.
Definition zero64 : float64 := S754_zero false.

(** ** [string(b)] for a byte [b]: the UTF-8 encoding of the code point [b] *)

Definition byte_of_Z (z : Z) : byte := default x00 (Byte.of_N (Z.to_N z)).

Definition string_of_byte (b : byte) : list byte :=
  let v := byte_val b in
  if v <? 128 then [b]
  else [byte_of_Z (Z.lor 192 (Z.shiftr v 6)); byte_of_Z (Z.lor 128 (Z.land v 63))].

(** ** [bytes.Index]: index of the first instance of [sep] in [s], or [-1] *)

Fixpoint HasPrefix (s prefix : list byte) : bool :=
  match prefix, s with
  | [], _ => true
  | _ :: _, [] => false
  | p :: prefix', c :: s' => bool_decide (c = p) && HasPrefix s' prefix'
  end.

Fixpoint Index (s sep : list byte) : Z :=
  if HasPrefix s sep then 0
  else match s with
       | [] => -1
       | _ :: s' => let i := Index s' sep in if i =? -1 then -1 else i + 1
       end.

End Go.

(** ** Readers *)

Inductive error := EOF | ErrOther.

(** The outcome of one [Read(buf)] call: the bytes stored at the start of
    [buf] (their number is the returned count) and the returned error. *)
Record ReadOutcome := { read_data : list byte; read_err : option error }.

(** First [Read] of an in-memory reader ([bytes.Reader], [strings.Reader])
    holding [content], into a buffer of [size] bytes. *)
Definition Read_in_memory (content : list byte) (size : Z) : ReadOutcome :=
  match content with
  | [] => {| read_data := []; read_err := Some EOF |}
  | _ => {| read_data := take (Z.to_nat size) content; read_err := None |}
  end.

(** [split_every n l]: [l] cut into consecutive pieces of [n] elements, the
    last one possibly shorter. *)
Fixpoint split_aux {A} (n k : nat) (piece : list A) (l : list A) : list (list A) :=
  match l with
  | [] => match piece with [] => [] | _ => [rev piece] end
  | x :: l' =>
      match k with
      | O => [rev piece]
      | 1%nat => rev (x :: piece) :: split_aux n n [] l'
      | S k' => split_aux n k' (x :: piece) l'
      end
  end.

Definition split_every {A} (n : nat) (l : list A) : list (list A) := split_aux n n [] l.

(** The chunks delivered by the successive [bufferedReader.Read(buf)] calls
    of [sample] ([len(buf) = 1024]) before end of input, when the underlying
    reader is an in-memory reader holding [content]: [bufio.Reader] refills
    its 4096-byte buffer with one underlying [Read] whenever it is empty, and
    each call copies at most [len(buf)] buffered bytes. *)
Definition buffered_reads (content : list byte) : list (list byte) :=
  concat (map (split_every 1024) (split_every 4096 content)).

Module Detector.
Import Go.

Definition sampleLines : Z := 15.

Definition LF : byte := x0a.
Definition CR : byte := x0d.

(** [nonDelimiterRegex.MatchString(string(b))] for the expression
    [[[:alnum:]\n\r]]: [[:alnum:]] is the ASCII class [0-9A-Za-z]; a byte of
    value 128 or more is converted to a non-ASCII code point, never matched. *)
Definition nonDelimiter (b : byte) : bool :=
  let v := byte_val b in
  ((48 <=? v) && (v <=? 57)) || ((65 <=? v) && (v <=? 90)) || ((97 <=? v) && (v <=? 122))
  || bool_decide (b = LF) || bool_decide (b = CR).

(** *** DetectRowTerminator *)

Definition KB : Z := 1024.

(** The buffer after the read: the bytes read, then the zero bytes of
    [make([]byte, 128*KB)] that were not overwritten. *)
Definition buffer_after_read (size : Z) (o : ReadOutcome) : list byte :=
  take (Z.to_nat size) (read_data o ++ replicate (Z.to_nat size - length (read_data o)) x00).

Definition DetectRowTerminator (o : ReadOutcome) : list byte :=
  let buf := buffer_after_read (128 * KB) o in
  match read_err o with
  | Some EOF => []
  | Some _ => []
  | None =>
      if negb (Index buf [CR; LF] =? -1) then [CR; LF]
      else if negb (Index buf [CR] =? -1) then [CR]
      else [LF]
  end.

(** *** validDelimiter *)

Definition possibleDelimiters : list byte := bytes ",|" ++ [x09] ++ bytes ";".

Fixpoint validDelimiter_loop (char : byte) (l : list byte) : bool :=
  match l with
  | [] => false
  | delimiter :: l' => if bool_decide (char = delimiter) then true else validDelimiter_loop char l'
  end.

Definition validDelimiter (char : byte) : bool := validDelimiter_loop char possibleDelimiters.

(** *** frequencyTable *)

Definition createFrequencyTable : gmap byte (gmap Z Z) := ∅.

Definition increment (f : gmap byte (gmap Z Z)) (char : byte) (line : Z) : gmap byte (gmap Z Z) :=
  let f1 := match f !! char with Some _ => f | None => <[char := ∅]> f end in
  let row := default ∅ (f1 !! char) in
  let row1 := match row !! line with Some _ => row | None => <[line := 0]> row end in
  <[char := <[line := int_add (default 0 (row1 !! line)) 1]> row1]> f1.

(** *** sample *)

Record SampleState := {
  frequencies : gmap byte (gmap Z Z);
  enclosed : bool;
  actualSampleLines : Z
}.

(** What the loop does after one execution of its body: go on with [i+1],
    go on with [i+2] (the body executed [i++]), or leave the loop. *)
Inductive Control := Next | SkipNext | Break.

(** One execution of the body of the inner loop. *)
Definition sample_body (sampleLines : Z) (enclosure prev current next : byte)
    (st : SampleState) : SampleState * Control :=
  if bool_decide (current = enclosure) then
    if negb (enclosed st) || bool_decide (next ≠ enclosure) then
      ({| frequencies := frequencies st;
          enclosed := if enclosed st then false else true;
          actualSampleLines := actualSampleLines st |}, Next)
    else (st, SkipNext)
  else if (bool_decide (current = LF) && bool_decide (prev ≠ CR) || bool_decide (current = CR))
          && negb (enclosed st) then
    let st' := {| frequencies := frequencies st;
                  enclosed := enclosed st;
                  actualSampleLines := int_add (actualSampleLines st) 1 |} in
    if sampleLines <=? actualSampleLines st' then (st', Break) else (st', Next)
  else if negb (enclosed st) then
    if negb (nonDelimiter current) then
      ({| frequencies := increment (frequencies st) current (actualSampleLines st);
          enclosed := enclosed st;
          actualSampleLines := actualSampleLines st |}, Next)
    else (st, Next)
  else (st, Next).

(** The inner loop [for i := 0; i < n; i++] from index [i] on: [buf] holds
    [buf[i:n]] and [prev] is [buf[i-1]], or the zero byte when [i = 0]. *)
Fixpoint sample_chunk (sampleLines : Z) (enclosure prev : byte) (buf : list byte)
    (st : SampleState) : SampleState :=
  match buf with
  | [] => st
  | current :: rest =>
      let next := match rest with [] => x00 | b :: _ => b end in
      match sample_body sampleLines enclosure prev current next st with
      | (st', Next) => sample_chunk sampleLines enclosure current rest st'
      | (st', SkipNext) =>
          match rest with
          | [] => st'
          | skipped :: rest' => sample_chunk sampleLines enclosure skipped rest' st'
          end
      | (st', Break) => st'
      end
  end.

Definition sample_init : SampleState :=
  {| frequencies := createFrequencyTable; enclosed := false; actualSampleLines := 1 |}.

(** The outer loop [for err == nil]: one pass of the inner loop per chunk. *)
Definition sample_loop (sampleLines : Z) (enclosure : byte) (reads : list (list byte))
    (st : SampleState) : SampleState :=
  fold_left (fun st buf => sample_chunk sampleLines enclosure x00 buf st) reads st.

Definition sample (reads : list (list byte)) (sampleLines : Z) (enclosure : byte)
    : gmap byte (gmap Z Z) * Z :=
  let st := sample_loop sampleLines enclosure reads sample_init in
  (frequencies st, actualSampleLines st).

(** *** analyze *)

Definition mean (frequencyOfLine : gmap Z Z) (size : Z) : float32 :=
  let total :=
    fold_left (fun total i =>
                 match frequencyOfLine !! i with
                 | Some frequency => int_add total frequency
                 | None => total
                 end) (seqZ 1 size) 0 in
  div32 (float32_of_int total) (float32_of_int size).

Definition deviation (frequencyOfLine : gmap Z Z) (size : Z) : float64 :=
  let average := mean frequencyOfLine size in
  let total :=
    fold_left (fun total i =>
                 let frequency :=
                   match frequencyOfLine !! i with
                   | Some v => float32_of_int v
                   | None => S754_zero false
                   end in
                 let d := mul32 (sub32 average frequency) (sub32 average frequency) in
                 add64 total (Sqrt (float64_of_float32 d))) (seqZ 1 size) zero64 in
  div64 total (float64_of_int size).

(** [order] is the order in which [range ft] visits the keys of [ft]. *)
Definition analyze (order : list byte) (ft : gmap byte (gmap Z Z)) (sampleLine : Z) : list byte :=
  fold_left (fun candidates delimiter =>
               match ft !! delimiter with
               | Some frequencyOfLine =>
                   if float_eq zero64 (deviation frequencyOfLine sampleLine)
                   then candidates ++ [delimiter] else candidates
               | None => candidates
               end) order [].

(** [order] is a possible iteration order of [range ft]: every entry of the
    table is visited once. *)
Definition range_order (ft : gmap byte (gmap Z Z)) (order : list byte) : Prop :=
  order ≡ₚ (map_to_list ft).*1.

(** *** DetectDelimiter *)

Definition DetectDelimiter (order : list byte) (reads : list (list byte)) (enclosure : byte)
    : list (list byte) :=
  let '(statistics, totalLines) := sample reads sampleLines enclosure in
  fold_left (fun candidates delimiter =>
               if validDelimiter delimiter then candidates ++ [string_of_byte delimiter]
               else candidates)
            (analyze order statistics (int_sub totalLines 1)) [].

(** [DetectDelimiter] may return [result]: for some iteration order of the
    frequency table. *)
Definition DetectDelimiter_returns (reads : list (list byte)) (enclosure : byte)
    (result : list (list byte)) : Prop :=
  ∃ order, range_order (sample reads sampleLines enclosure).1 order
           ∧ result = DetectDelimiter order reads enclosure.

End Detector.

(** ** [unicode/utf8] *)

Module Utf8.

Definition RuneError : Z := 65533.

Definition in_range (lo hi : Z) (b : byte) : bool := (lo <=? byte_val b) && (byte_val b <=? hi).

(** The size announced by a leading byte and the range accepted for the
    second byte ([first] and [acceptRanges] of the package); [None] for a
    byte that cannot start a multi-byte sequence. *)
Definition leading (s0 : byte) : option (nat * Z * Z) :=
  let v := byte_val s0 in
  if (194 <=? v) && (v <=? 223) then Some (2%nat, 128, 191)
  else if v =? 224 then Some (3%nat, 160, 191)
  else if (225 <=? v) && (v <=? 236) then Some (3%nat, 128, 191)
  else if v =? 237 then Some (3%nat, 128, 159)
  else if (238 <=? v) && (v <=? 239) then Some (3%nat, 128, 191)
  else if v =? 240 then Some (4%nat, 144, 191)
  else if (241 <=? v) && (v <=? 243) then Some (4%nat, 128, 191)
  else if v =? 244 then Some (4%nat, 128, 143)
  else None.

Definition cont (b : byte) : Z := Z.land (byte_val b) 63.

(** [utf8.DecodeRuneInString]: the first rune of [s] and its width. *)
Definition DecodeRuneInString (s : list byte) : Z * nat :=
  match s with
  | [] => (RuneError, 0%nat)
  | s0 :: rest =>
      if byte_val s0 <? 128 then (byte_val s0, 1%nat)
      else
        match leading s0 with
        | None => (RuneError, 1%nat)
        | Some (sz, lo, hi) =>
            if (length s <? sz)%nat then (RuneError, 1%nat)
            else
              match rest with
              | s1 :: rest1 =>
                  if negb (in_range lo hi s1) then (RuneError, 1%nat)
                  else if (sz <=? 2)%nat then
                    (Z.lor (Z.shiftl (Z.land (byte_val s0) 31) 6) (cont s1), 2%nat)
                  else
                    match rest1 with
                    | s2 :: rest2 =>
                        if negb (in_range 128 191 s2) then (RuneError, 1%nat)
                        else if (sz <=? 3)%nat then
                          (Z.lor (Z.lor (Z.shiftl (Z.land (byte_val s0) 15) 12)
                                        (Z.shiftl (cont s1) 6)) (cont s2), 3%nat)
                        else
                          match rest2 with
                          | s3 :: _ =>
                              if negb (in_range 128 191 s3) then (RuneError, 1%nat)
                              else
                                (Z.lor (Z.lor (Z.lor (Z.shiftl (Z.land (byte_val s0) 7) 18)
                                                     (Z.shiftl (cont s1) 12))
                                              (Z.shiftl (cont s2) 6)) (cont s3), 4%nat)
                          | [] => (RuneError, 1%nat)
                          end
                    | [] => (RuneError, 1%nat)
                    end
              | [] => (RuneError, 1%nat)
              end
        end
  end.

(** [utf8.RuneCountInString]: every rune, well-formed or not, counts once. *)
Fixpoint RuneCount_fuel (fuel : nat) (s : list byte) : Z :=
  match fuel, s with
  | _, [] => 0
  | O, _ => 0
  | S fuel', _ => 1 + RuneCount_fuel fuel' (drop (DecodeRuneInString s).2 s)
  end.

Definition RuneCountInString (s : list byte) : Z := RuneCount_fuel (length s) s.

(** [strings.NewReader(s).ReadRune()], first result: the first rune of
    [s], or 0 at end of input. *)
Definition ReadRune (s : list byte) : Z :=
  match s with
  | [] => 0
  | _ => (DecodeRuneInString s).1
  end.

End Utf8.

(** ** The dialect builder *)

Module Dialect.

(** [csv.Dialect]; [DoubleQuote] is only ever set to [csv.NoDoubleQuote]. *)
Inductive DoubleQuoteMode := NoDoubleQuote.

Record CsvDialect := {
  Delimiter : Z;
  QuoteChar : Z;
  EscapeChar : Z;
  DoubleQuote : DoubleQuoteMode
}.

(** A [flag.FlagSet], as far as [Dialect] looks at it. *)
Record FlagSet := { Parsed : bool }.

(** The string fields hold the values the flags point to when [Dialect] is
    called; [flagSet] is [None] for the nil pointer. *)
Record DialectBuilder := {
  quoteCharString : list byte;
  escapeCharString : list byte;
  delimiterCharString : list byte;
  flagSet : option FlagSet
}.

(** [commandLineParsed] is [flag.Parsed()], the state of the process-wide
    flag set. *)
Definition Dialect (commandLineParsed : bool) (p : DialectBuilder) : CsvDialect + string :=
  let not_parsed :=
    match flagSet p with
    | Some f => negb (Parsed f)
    | None => negb commandLineParsed
    end in
  if not_parsed then inr "FlagSet has not been parsed before calling this function."%string
  else if 1 <? Utf8.RuneCountInString (quoteCharString p) then
    inr "-fields-optionally-enclosed-by can't be more than one character."%string
  else if 1 <? Utf8.RuneCountInString (escapeCharString p) then
    inr "-fields-escaped-by can't be more than one character."%string
  else if Utf8.RuneCountInString (quoteCharString p) <? 1 then
    inr "-fields-optionally-enclosed-by can't be an empty string."%string
  else if Utf8.RuneCountInString (escapeCharString p) <? 1 then
    inr "-fields-escaped-by can't be an empty string."%string
  else
    let quoteChar := Utf8.ReadRune (quoteCharString p) in
    let escapeChar := Utf8.ReadRune (escapeCharString p) in
    let delimiterChar := Utf8.ReadRune (delimiterCharString p) in
    inl {| Delimiter := delimiterChar;
           QuoteChar := quoteChar;
           EscapeChar := escapeChar;
           DoubleQuote := NoDoubleQuote |}.

End Dialect.

(** * Vocabulary of the properties *)

Import Go Detector.

(** [sep] occurs in [s] as a contiguous run of bytes. *)
Definition occurs_in (sep s : list byte) : Prop := ∃ l1 l2, s = l1 ++ sep ++ l2.

(** Five lines [a,b], each ended by [terminator]. *)
Definition five_lines (terminator : list byte) : list byte :=
  concat (replicate 5 (bytes "a,b" ++ terminator)).

(** The quote character. *)
Definition quote : byte := x22.

(** One execution of the loop body: the bytes [prev], [current], [next] it
    looks at and the state it starts from. *)
Record Iteration := {
  it_prev : byte;
  it_current : byte;
  it_next : byte;
  it_state : SampleState
}.

(** The executions of the loop body during the pass over one chunk, in
    order; the control flow is that of [sample_chunk]. *)
Fixpoint chunk_iterations (sampleLines : Z) (enclosure prev : byte) (buf : list byte)
    (st : SampleState) : list Iteration :=
  match buf with
  | [] => []
  | current :: rest =>
      let next := match rest with [] => x00 | b :: _ => b end in
      {| it_prev := prev; it_current := current; it_next := next; it_state := st |}
      :: match sample_body sampleLines enclosure prev current next st with
         | (st', Next) => chunk_iterations sampleLines enclosure current rest st'
         | (st', SkipNext) =>
             match rest with
             | [] => []
             | skipped :: rest' => chunk_iterations sampleLines enclosure skipped rest' st'
             end
         | (st', Break) => []
         end
  end.

(** The executions of the loop body during a whole run of [sample]. *)
Fixpoint sample_iterations (sampleLines : Z) (enclosure : byte) (reads : list (list byte))
    (st : SampleState) : list Iteration :=
  match reads with
  | [] => []
  | buf :: reads' =>
      chunk_iterations sampleLines enclosure x00 buf st
      ++ sample_iterations sampleLines enclosure reads'
           (sample_chunk sampleLines enclosure x00 buf st)
  end.

(** The iteration sees an unenclosed line break: a linefeed not preceded by
    a carriage return, or a carriage return, outside a quoted field. *)
Definition unenclosed_line_break (enclosure : byte) (it : Iteration) : bool :=
  bool_decide (it_current it ≠ enclosure)
  && (bool_decide (it_current it = LF) && bool_decide (it_prev it ≠ CR)
      || bool_decide (it_current it = CR))
  && negb (enclosed (it_state it)).

(** The test [analyze] applies to a key of the table. *)
Definition qualifies (ft : gmap byte (gmap Z Z)) (sampleLine : Z) (delimiter : byte) : bool :=
  match ft !! delimiter with
  | Some frequencyOfLine => float_eq zero64 (deviation frequencyOfLine sampleLine)
  | None => false
  end.

(** The allow-listed delimiters, as the strings [DetectDelimiter] returns. *)
Definition allowed_strings : list (list byte) := [bytes ","; bytes "|"; [x09]; bytes ";"].

(** Two columns separated by a comma and a semicolon, two lines. *)
Definition tie_stream : list byte :=
  bytes "a,b;c" ++ [LF] ++ bytes "d,e;f" ++ [LF].

(** A finite number of sign [s] with a mantissa of [prec] digits, of binade
    at least [L], or the infinity of sign [s]. *)
Definition large (prec : Z) (s : bool) (L : Z) (x : spec_float) : Prop :=
  x = S754_infinity s
  ∨ ∃ m e, x = S754_finite s m e ∧ Zdigits2 (Zpos m) = prec ∧ L ≤ prec + e.

(** Positive zero, or [large] and positive: the values a sum of
    non-negative terms goes through. *)
Definition zero_or_large (prec : Z) (L : Z) (x : spec_float) : Prop :=
  x = S754_zero false ∨ large prec false L x.

(** The number of occurrences recorded for a line; a missing line is 0. *)
Definition line_count (fl : gmap Z Z) (i : Z) : Z := default 0 (fl !! i).

(** The same count on every line of [1 .. n]. *)
Definition uniform (fl : gmap Z Z) (n : Z) : Prop :=
  ∀ i j, 1 ≤ i ≤ n → 1 ≤ j ≤ n → line_count fl i = line_count fl j.

(** The occurrences on the lines [1 .. n]. *)
Definition occurrences (fl : gmap Z Z) (n : Z) : Z :=
  foldr Z.add 0 (line_count fl <$> seqZ 1 n).

(** The counts for which the conversions to [float32] are exact: at least
    one line, fewer than [2^24] lines, no negative count, fewer than [2^24]
    occurrences in all. *)
Definition float32_exact (fl : gmap Z Z) (n : Z) : Prop :=
  1 ≤ n < 2 ^ 24
  ∧ (∀ i, 1 ≤ i ≤ n → 0 ≤ line_count fl i)
  ∧ occurrences fl n < 2 ^ 24.

(** The [float32] of the frequency of a line, as [deviation] computes it. *)
Definition frequency32 (fl : gmap Z Z) (i : Z) : float32 :=
  match fl !! i with
  | Some v => float32_of_int v
  | None => S754_zero false
  end.

(** The term [deviation] adds for a line. *)
Definition deviation_term (average : float32) (fl : gmap Z Z) (i : Z) : float64 :=
  Sqrt (float64_of_float32
          (mul32 (sub32 average (frequency32 fl i)) (sub32 average (frequency32 fl i)))).

(** The count recorded in the table for a character and a line; 0 when the
    character or the line is missing. *)
Definition recorded_count (ft : gmap byte (gmap Z Z)) (d : byte) (i : Z) : Z :=
  match ft !! d with
  | Some fl => line_count fl i
  | None => 0
  end.

(** The entry of the table for a character and a line, if there is one. *)
Definition entry (ft : gmap byte (gmap Z Z)) (d : byte) (l : Z) : option Z :=
  ft !! d ≫= (.!! l).

(** The state the loop body leaves after an iteration. *)
Definition state_after (sampleLines : Z) (enclosure : byte) (it : Iteration) : SampleState :=
  (sample_body sampleLines enclosure (it_prev it) (it_current it) (it_next it) (it_state it)).1.

(** The iteration records an occurrence of [d] at line [l]: the current
    byte is [d], outside a quoted field, neither the enclosure nor a byte of
    the class [[[:alnum:]\n\r]], and the line counter is [l]. *)
Definition records (enclosure d : byte) (l : Z) (it : Iteration) : bool :=
  bool_decide (it_current it = d)
  && bool_decide (actualSampleLines (it_state it) = l)
  && bool_decide (d ≠ enclosure)
  && negb (enclosed (it_state it))
  && negb (nonDelimiter d).

(** Each iteration of the list starts from the state the one before left,
    the first from [st]. *)
Fixpoint chained (sampleLines : Z) (enclosure : byte) (st : SampleState)
    (its : list Iteration) : Prop :=
  match its with
  | [] => True
  | it :: its' =>
      it_state it = st ∧ chained sampleLines enclosure (state_after sampleLines enclosure it) its'
  end.

(** The state after the last iteration of the list, [st] when it is empty. *)
Definition final_state (sampleLines : Z) (enclosure : byte) (st : SampleState)
    (its : list Iteration) : SampleState :=
  fold_left (λ _ it, state_after sampleLines enclosure it) its st.

(** The number of iterations of the list that see an unenclosed line
    break. *)
Definition line_breaks_seen (enclosure : byte) (its : list Iteration) : Z :=
  Z.of_nat (length (filter (λ it, unenclosed_line_break enclosure it = true) its)).

(** The number of iterations of the list that record [d] at line [l]. *)
Definition recordings (enclosure d : byte) (l : Z) (its : list Iteration) : Z :=
  Z.of_nat (length (filter (λ it, records enclosure d l it = true) its)).

(** Every byte of the string is below 128: an ASCII string. *)
Definition ascii_string (s : list byte) : Prop := Forall (λ b, byte_val b < 128) s.

(** The flag set [Dialect] looks at has been parsed: the builder's own flag
    set when it has one, the process-wide one otherwise. *)
Definition flags_parsed (commandLineParsed : bool) (p : Dialect.DialectBuilder) : bool :=
  match Dialect.flagSet p with
  | Some f => Dialect.Parsed f
  | None => commandLineParsed
  end.

(** ** Streams of lines *)

(** The bytes of [s] outside quoted fields, the enclosure bytes left out;
    [inside] tells whether [s] starts inside a quoted field. *)
Fixpoint unenclosed (enclosure : byte) (inside : bool) (s : list byte) : list byte :=
  match s with
  | [] => []
  | b :: s' =>
      if bool_decide (b = enclosure) then unenclosed enclosure (negb inside) s'
      else if inside then unenclosed enclosure inside s'
      else b :: unenclosed enclosure inside s'
  end.

(** Whether the end of [s] lies inside a quoted field. *)
Fixpoint ends_inside (enclosure : byte) (inside : bool) (s : list byte) : bool :=
  match s with
  | [] => inside
  | b :: s' =>
      ends_inside enclosure (if bool_decide (b = enclosure) then negb inside else inside) s'
  end.

(** Neither a carriage return nor a linefeed. *)
Definition no_line_break (b : byte) : bool :=
  negb (bool_decide (b = CR)) && negb (bool_decide (b = LF)).

(** [s] holds no line break outside quoted fields. *)
Definition line_break_free (enclosure : byte) (s : list byte) : bool :=
  forallb no_line_break (unenclosed enclosure false s).

(** The number of occurrences of [d] in [s]. *)
Definition count_byte (d : byte) (s : list byte) : Z :=
  Z.of_nat (length (filter (λ b, b = d) s)).

(** The number of commas of [s] outside quoted fields. *)
Definition unenclosed_commas (enclosure : byte) (s : list byte) : Z :=
  count_byte ","%byte (unenclosed enclosure false s).

(** A row terminator: a linefeed, a carriage return, or both. *)
Definition terminator (t : list byte) : bool :=
  bool_decide (t = [LF]) || bool_decide (t = [CR]) || bool_decide (t = [CR; LF]).

(** A line of the stream with [c] unenclosed commas: its content, without
    unenclosed line break and ending outside quoted fields, and its
    terminator. *)
Definition line_of (enclosure : byte) (c : Z) (row : list byte * list byte) : bool :=
  line_break_free enclosure row.1 && negb (ends_inside enclosure false row.1)
  && terminator row.2 && (unenclosed_commas enclosure row.1 =? c).

(** The bytes of a stream made of terminated lines and a rest. *)
Definition stream (rows : list (list byte * list byte)) (rest : list byte) : list byte :=
  concat ((λ row, row.1 ++ row.2) <$> rows) ++ rest.

(** A carriage return ends a read and a linefeed starts the next one that
    is not empty; [prev] is the last byte delivered so far. *)
Fixpoint crlf_split (prev : byte) (reads : list (list byte)) : bool :=
  match reads with
  | [] => false
  | buf :: reads' =>
      bool_decide (prev = CR) && bool_decide (head buf = Some LF)
      || crlf_split (default prev (last buf)) reads'
  end.

(** The lines [rows] are all the lines the sampler is to look at: they are
    fewer than [sampleLines - 1] and the rest of the stream has no unenclosed
    line break, or they are [sampleLines - 1] and the last read delivers the
    terminator of the last of them (and so the rest of the stream). *)
Definition sampled_to_the_end (enclosure : byte) (reads : list (list byte))
    (rows : list (list byte * list byte)) (rest : list byte) : bool :=
  if Z.of_nat (length rows) <? sampleLines - 1 then line_break_free enclosure rest
  else (Z.of_nat (length rows) =? sampleLines - 1)
       && (length ((default ([], []) (last rows)).2 ++ rest)
           <=? length (default [] (last reads)))%nat.

(** The reading of one byte by the loop body when neither the lookahead nor
    the target interfere: the state after it, and the byte as the next
    lookbehind. *)
Definition scan_step (enclosure : byte) (s : SampleState * byte) (current : byte)
    : SampleState * byte :=
  let st := s.1 in
  let prev := s.2 in
  (if bool_decide (current = enclosure) then
     {| frequencies := frequencies st;
        enclosed := negb (enclosed st);
        actualSampleLines := actualSampleLines st |}
   else if (bool_decide (current = LF) && bool_decide (prev ≠ CR) || bool_decide (current = CR))
           && negb (enclosed st) then
     {| frequencies := frequencies st;
        enclosed := enclosed st;
        actualSampleLines := actualSampleLines st + 1 |}
   else if negb (enclosed st) then
     if negb (nonDelimiter current) then
       {| frequencies := increment (frequencies st) current (actualSampleLines st);
          enclosed := enclosed st;
          actualSampleLines := actualSampleLines st |}
     else st
   else st,
   current).

(** The bytes of [s] read one after the other. *)
Definition scan (enclosure : byte) (s : SampleState * byte) (buf : list byte)
    : SampleState * byte :=
  fold_left (scan_step enclosure) buf s.

(** A hundred and twenty lines [a,b,c,dd], each ended by a linefeed. *)
Definition regular_lines : list (list byte * list byte) :=
  replicate 120 (bytes "a,b,c,dd", [LF]).

(** Two lines ended by a carriage return and a linefeed, delivered by one
    read, and by two reads that part the first terminator. *)
Definition crlf_one_read : list (list byte) :=
  [bytes "a,b" ++ [CR; LF] ++ bytes "c,d" ++ [CR; LF]].
Definition crlf_two_reads : list (list byte) :=
  [bytes "a,b" ++ [CR]; [LF] ++ bytes "c,d" ++ [CR; LF]].

(** * Properties *)

(** Replace the literals [bytes "..."] of the goal by their bytes. *)
Ltac eval_bytes :=
  repeat match goal with
         | |- context [bytes ?s] =>
             let l := eval vm_compute in (bytes s) in change (bytes s) with l
         end.

(** Membership in a list written out: a disjunction of equations. *)
Ltac in_list :=
  eval_bytes;
  rewrite ?elem_of_app, ?elem_of_cons, ?elem_of_nil; intuition (auto; congruence).

(** ** Row terminator *)

Section RowTerminator.

Lemma HasPrefix_spec (s sep : list byte) :
  HasPrefix s sep = true ↔ ∃ l2, s = sep ++ l2.
Proof.
  revert s. induction sep as [|p sep IH]; intros s; simpl.
  - split; [intros _; by exists s | by destruct s].
  - destruct s as [|c s]; simpl.
    + split; [done | intros [l2 Hl2]; discriminate].
    + rewrite andb_true_iff, bool_decide_eq_true, IH. split.
      * intros [-> [l2 ->]]. eauto.
      * intros [l2 Hl2]. injection Hl2 as -> ->. eauto.
Qed.

Lemma Index_range (s sep : list byte) : -1 ≤ Index s sep.
Proof.
  induction s as [|c s IH]; cbn [Index].
  - destruct (HasPrefix [] sep); lia.
  - destruct (HasPrefix (c :: s) sep); [lia|].
    destruct (Z.eqb_spec (Index s sep) (-1)); lia.
Qed.

Lemma Index_found (s sep : list byte) : Index s sep ≠ -1 ↔ occurs_in sep s.
Proof.
  induction s as [|c s IH]; cbn [Index].
  - destruct (HasPrefix [] sep) eqn:Hp.
    + split; [|lia]. intros _. apply HasPrefix_spec in Hp as [l2 Hl2]. by exists [], l2.
    + split; [lia|]. intros (l1 & l2 & Heq).
      destruct l1; [|discriminate]. simpl in Heq.
      assert (HasPrefix [] sep = true) by (apply HasPrefix_spec; eauto). congruence.
  - destruct (HasPrefix (c :: s) sep) eqn:Hp.
    + split; [|lia]. intros _. apply HasPrefix_spec in Hp as [l2 Hl2]. by exists [], l2.
    + pose proof (Index_range s sep) as Hr.
      destruct (Z.eqb_spec (Index s sep) (-1)) as [Heq|Hne].
      * split; [lia|]. intros ([|c' l1] & l2 & Hocc).
        -- assert (HasPrefix (c :: s) sep = true) by (apply HasPrefix_spec; eauto). congruence.
        -- injection Hocc as -> Hs. exfalso. apply IH; [|done]. by exists l1, l2.
      * split; [|lia]. intros _. apply IH in Hne as (l1 & l2 & ->). by exists (c :: l1), l2.
Qed.

(** The zero bytes that follow the bytes read hide no occurrence of a
    separator free of zero bytes. *)
Lemma occurs_in_snoc_zero (sep s : list byte) :
  sep ≠ [] → x00 ∉ sep → occurs_in sep (s ++ [x00]) ↔ occurs_in sep s.
Proof.
  intros Hsep Hz. split.
  - intros (l1 & l2 & Heq).
    destruct l2 as [|z l2 _] using rev_ind.
    + destruct sep as [|p sep _] using rev_ind; [done|].
      rewrite app_nil_r, app_assoc in Heq. apply app_inj_tail in Heq as [_ <-].
      exfalso. apply Hz. in_list.
    + rewrite !app_assoc in Heq. apply app_inj_tail in Heq as [-> _].
      exists l1, l2. by rewrite app_assoc.
  - intros (l1 & l2 & ->). exists l1, (l2 ++ [x00]). by rewrite <- !app_assoc.
Qed.

Lemma occurs_in_padding (sep data : list byte) (k : nat) :
  sep ≠ [] → x00 ∉ sep →
  occurs_in sep (data ++ replicate k x00) ↔ occurs_in sep data.
Proof.
  intros Hsep Hz. induction k as [|k IH].
  - by rewrite app_nil_r.
  - rewrite replicate_S_end, app_assoc, occurs_in_snoc_zero by done. apply IH.
Qed.

Lemma buffer_after_read_fits (size : Z) (o : ReadOutcome) :
  (length (read_data o) ≤ Z.to_nat size)%nat →
  buffer_after_read size o
  = read_data o ++ replicate (Z.to_nat size - length (read_data o)) x00.
Proof.
  intros Hlen. unfold buffer_after_read. apply take_ge.
  rewrite length_app, length_replicate. lia.
Qed.

Lemma occurs_in_CR (s : list byte) : occurs_in [x0d] s ↔ x0d ∈ s.
Proof.
  split.
  - intros (l1 & l2 & ->). in_list.
  - intros (l1 & l2 & ->)%list_elem_of_split. by exists l1, l2.
Qed.

(** C2, as the code has it: [DetectRowTerminator] never fails; when the read
    returns an error (end of input included, hence on the empty stream) it
    returns the empty string, and otherwise one of the three terminators
    CR LF, CR, LF. *)
Theorem DetectRowTerminator_results (o : ReadOutcome) :
  match read_err o with
  | Some _ => DetectRowTerminator o = []
  | None => DetectRowTerminator o ∈ [[CR; LF]; [CR]; [LF]]
  end.
Proof.
  unfold DetectRowTerminator. destruct (read_err o) as [[]|]; [done..|].
  repeat case_match; in_list.
Qed.

(** C2 fails as stated: on the empty stream the first read reports end of
    input and the result is the empty string, not the linefeed, and none of
    the three terminators; the same holds for any other read error. *)
Lemma DetectRowTerminator_empty_stream :
  read_err (Read_in_memory [] (128 * KB)) = Some EOF
  ∧ DetectRowTerminator (Read_in_memory [] (128 * KB)) = []
  ∧ (DetectRowTerminator (Read_in_memory [] (128 * KB)) ≠ [LF])
  ∧ (DetectRowTerminator (Read_in_memory [] (128 * KB)) ∉ [[CR; LF]; [CR]; [LF]])
  ∧ (DetectRowTerminator (Build_ReadOutcome (bytes "a,b" ++ [LF]) (Some ErrOther)) ≠ [LF]).
Proof.
  assert (DetectRowTerminator (Read_in_memory [] (128 * KB)) = []) as Hd by reflexivity.
  rewrite Hd. split; [reflexivity|]. split; [reflexivity|]. split; [discriminate|].
  split; [in_list | discriminate].
Qed.

(** C8: after a successful read, CR LF anywhere in the bytes read gives
    CR LF; otherwise a carriage return gives CR; otherwise the result is LF.
    Five lines ended by CR LF give CR LF, five lines ended by LF give LF. *)
Theorem DetectRowTerminator_priority :
  (∀ data : list byte,
     Z.of_nat (length data) ≤ 128 * KB →
     let o := {| read_data := data; read_err := None |} in
     (occurs_in [CR; LF] data → DetectRowTerminator o = [CR; LF])
     ∧ (¬ occurs_in [CR; LF] data → CR ∈ data → DetectRowTerminator o = [CR])
     ∧ (CR ∉ data → DetectRowTerminator o = [LF]))
  ∧ DetectRowTerminator (Read_in_memory (five_lines [CR; LF]) (128 * KB)) = [CR; LF]
  ∧ DetectRowTerminator (Read_in_memory (five_lines [LF]) (128 * KB)) = [LF].
Proof.
  split; [|split; vm_compute; reflexivity].
  intros data Hlen o.
  assert (∀ sep, sep ≠ [] → x00 ∉ sep →
            Index (buffer_after_read (128 * KB) o) sep ≠ -1 ↔ occurs_in sep data) as Hidx.
  { intros sep Hsep Hz. rewrite buffer_after_read_fits by (simpl; lia).
    rewrite Index_found. by apply occurs_in_padding. }
  assert (x00 ∉ [CR; LF]) as Hz2 by (unfold CR, LF; in_list).
  assert (x00 ∉ [CR]) as Hz1 by (unfold CR; in_list).
  pose proof (Hidx [CR; LF] ltac:(done) Hz2) as H2.
  pose proof (Hidx [CR] ltac:(done) Hz1) as H1.
  unfold CR in H1 at 2. rewrite occurs_in_CR in H1. fold CR in H1.
  assert (occurs_in [CR; LF] data → CR ∈ data) as Hsub.
  { intros (l1 & l2 & ->). in_list. }
  unfold DetectRowTerminator. cbn [read_err o]. fold o.
  destruct (Z.eqb_spec (Index (buffer_after_read (128 * KB) o) [CR; LF]) (-1)) as [E2|E2];
    destruct (Z.eqb_spec (Index (buffer_after_read (128 * KB) o) [CR]) (-1)) as [E1|E1];
    cbn [negb]; repeat split; try done; intros; exfalso; tauto.
Qed.

(** The priority rule at a concrete read: a lone carriage return. *)
Lemma DetectRowTerminator_priority_witness :
  CR ∈ bytes "a" ++ [CR] ++ bytes "b"
  ∧ DetectRowTerminator {| read_data := bytes "a" ++ [CR] ++ bytes "b"; read_err := None |} = [CR].
Proof.
  assert (CR ∈ bytes "a" ++ [CR] ++ bytes "b") as Hin by in_list.
  split; [exact Hin|].
  apply (proj1 DetectRowTerminator_priority (bytes "a" ++ [CR] ++ bytes "b")).
  - vm_compute. discriminate.
  - intros (l1 & l2 & Heq). vm_compute in Heq.
    destruct l1 as [|? [|? [|? [|? l1]]]]; simplify_eq.
  - exact Hin.
Defined.

End RowTerminator.

(** ** The sampler *)

Section Sampler.

Lemma wrap_int_small (z : Z) : - 2 ^ 63 ≤ z < 2 ^ 63 → wrap_int z = z.
Proof.
  intros Hz. unfold wrap_int.
  rewrite Z.mod_small; lia.
Qed.

(** One execution of the loop body leaves the line counter alone, unless
    it sees an unenclosed line break, which adds one. *)
Lemma sample_body_lines (sl : Z) (e prev current next : byte) (st : SampleState) :
  actualSampleLines (sample_body sl e prev current next st).1
  = if unenclosed_line_break e (Build_Iteration prev current next st)
    then int_add (actualSampleLines st) 1 else actualSampleLines st.
Proof.
  unfold sample_body, unenclosed_line_break. cbn [it_current it_prev it_state].
  destruct (decide (current = e)) as [->|Hne].
  - rewrite bool_decide_eq_true_2 by done.
    rewrite (bool_decide_eq_false_2 (e ≠ e)) by (intros H; by apply H).
    cbn [andb]. by destruct (negb (enclosed st) || bool_decide (next ≠ e)).
  - rewrite bool_decide_eq_false_2, (bool_decide_eq_true_2 (current ≠ e)) by done.
    cbn [andb].
    destruct ((bool_decide (current = LF) && bool_decide (prev ≠ CR)
               || bool_decide (current = CR)) && negb (enclosed st)); cbn [actualSampleLines].
    + by destruct (sl <=? int_add (actualSampleLines st) 1).
    + destruct (negb (enclosed st)); [by destruct (negb (nonDelimiter current))|done].
Qed.

(** A byte read while enclosed changes neither the table nor the counter. *)
Lemma sample_body_enclosed (sl : Z) (e prev current next : byte) (st : SampleState) :
  enclosed st = true →
  frequencies (sample_body sl e prev current next st).1 = frequencies st
  ∧ actualSampleLines (sample_body sl e prev current next st).1 = actualSampleLines st.
Proof.
  intros He. unfold sample_body. rewrite He.
  repeat (case_bool_decide || case_match); simplify_eq/=; done.
Qed.

(** While enclosed, a byte other than the enclosure leaves the whole state
    as it is and the loop goes on. *)
Lemma sample_body_enclosed_other (sl : Z) (e prev current next : byte) (st : SampleState) :
  enclosed st = true → current ≠ e →
  sample_body sl e prev current next st = (st, Next).
Proof.
  intros He Hne. unfold sample_body. rewrite He.
  rewrite bool_decide_eq_false_2 by done.
  by rewrite andb_false_r.
Qed.

Lemma sample_chunk_enclosed_prefix (sl : Z) (e : byte) (pre rest : list byte) :
  e ∉ pre →
  ∀ (prev : byte) (st : SampleState),
    enclosed st = true →
    sample_chunk sl e prev (pre ++ rest) st = sample_chunk sl e (default prev (last pre)) rest st.
Proof.
  induction pre as [|c pre IH]; intros Hpre prev st He; [done|].
  apply not_elem_of_cons in Hpre as [Hc Hpre].
  cbn [app sample_chunk]. rewrite sample_body_enclosed_other by done.
  rewrite IH by done. f_equal. rewrite last_cons. by destruct (last pre).
Qed.

(** C5: a byte read while the enclosure state is active is neither recorded
    in the frequency table nor counted as a line break, whatever the byte
    (a line break, a delimiter, the enclosure itself); a run of enclosed
    bytes up to the next enclosure byte leaves the sampler state unchanged. *)
Theorem enclosed_bytes_ignored (sl : Z) (e prev current next : byte) (st : SampleState) :
  enclosed st = true →
  (frequencies (sample_body sl e prev current next st).1 = frequencies st
   ∧ actualSampleLines (sample_body sl e prev current next st).1 = actualSampleLines st)
  ∧ (∀ pre rest : list byte,
       e ∉ pre →
       sample_chunk sl e prev (pre ++ rest) st = sample_chunk sl e (default prev (last pre)) rest st).
Proof.
  intros He. split; [by apply sample_body_enclosed|].
  intros pre rest Hpre. by apply sample_chunk_enclosed_prefix.
Qed.

(** An enclosed line break and an enclosed comma, from the state reached
    after an opening quote. *)
Lemma enclosed_bytes_ignored_witness :
  let st := {| frequencies := ∅; enclosed := true; actualSampleLines := 1 |} in
  (frequencies (sample_body sampleLines quote x00 LF x00 st).1 = ∅
   ∧ actualSampleLines (sample_body sampleLines quote x00 LF x00 st).1 = 1)
  ∧ sample_chunk sampleLines quote x00 ([LF] ++ bytes ",") st = st.
Proof.
  intros st.
  pose proof (enclosed_bytes_ignored sampleLines quote x00 LF x00 st eq_refl) as [H1 H2].
  split; [exact H1|].
  assert (quote ∉ [LF] ++ bytes ",") as Hq by (unfold quote, LF; in_list).
  pose proof (H2 ([LF] ++ bytes ",") [] Hq) as H3.
  rewrite app_nil_r in H3. exact H3.
Defined.

(** C6 fails as stated: outside a quoted field a doubled enclosure is not a
    literal pair.  The first quote toggles the state (it opens the field)
    and the second byte is not skipped. *)
Lemma doubled_enclosure_outside_field :
  sample_body sampleLines quote x00 quote quote sample_init
  = ({| frequencies := ∅; enclosed := true; actualSampleLines := 1 |}, Next)
  ∧ (sample_body sampleLines quote x00 quote quote sample_init).2 ≠ SkipNext
  ∧ enclosed (sample_body sampleLines quote x00 quote quote sample_init).1
    ≠ enclosed sample_init.
Proof. by split; [reflexivity|split]. Qed.

(** C6, as the code has it: inside a quoted field, when the current byte and
    the next byte of the same chunk are both the enclosure, the second byte
    is skipped and the state (enclosure flag, table, counter) is unchanged;
    the scan goes on after the pair, still enclosed.  Outside a quoted field
    the first enclosure byte opens the field, whatever follows. *)
Theorem escaped_enclosure_inside_field (sl : Z) (e prev : byte) (st : SampleState) :
  enclosed st = true →
  sample_body sl e prev e e st = (st, SkipNext)
  ∧ (∀ rest : list byte,
       sample_chunk sl e prev (e :: e :: rest) st = sample_chunk sl e e rest st)
  ∧ (∀ (st0 : SampleState) (next : byte),
       enclosed st0 = false →
       (sample_body sl e prev e next st0).2 = Next
       ∧ enclosed (sample_body sl e prev e next st0).1 = true).
Proof.
  intros He.
  assert (sample_body sl e prev e e st = (st, SkipNext)) as Hb.
  { unfold sample_body. rewrite He, bool_decide_eq_true_2 by done.
    by rewrite bool_decide_eq_false_2 by (intros H; by apply H). }
  split; [exact Hb|]. split.
  - intros rest. cbn [sample_chunk]. by rewrite Hb.
  - intros st0 next H0. unfold sample_body.
    rewrite H0, bool_decide_eq_true_2 by done. done.
Qed.

(** A quoted field holding an escaped quote and a comma: the comma is not
    recorded. *)
Lemma escaped_enclosure_inside_field_witness :
  let st := {| frequencies := ∅; enclosed := true; actualSampleLines := 1 |} in
  sample_body sampleLines quote x00 quote quote st = (st, SkipNext)
  ∧ sample_chunk sampleLines quote x00 (quote :: quote :: bytes ",") st = st.
Proof.
  intros st.
  pose proof (escaped_enclosure_inside_field sampleLines quote x00 st eq_refl) as (H1 & H2 & _).
  split; [exact H1|]. rewrite H2. reflexivity.
Defined.

End Sampler.

(** ** The sampling bound *)

Section SampleBound.

(** What one execution of the loop body does to the line counter. *)
Lemma sample_body_counter (sl : Z) (e prev current next : byte) (st st' : SampleState)
    (ctl : Control) :
  sample_body sl e prev current next st = (st', ctl) →
  (ctl = Break ∧ actualSampleLines st' = int_add (actualSampleLines st) 1
   ∧ sl ≤ actualSampleLines st')
  ∨ (ctl ≠ Break
     ∧ (actualSampleLines st' = actualSampleLines st
        ∨ (actualSampleLines st' = int_add (actualSampleLines st) 1
           ∧ actualSampleLines st' < sl))).
Proof.
  unfold sample_body.
  destruct (bool_decide (current = e)).
  { destruct (negb (enclosed st) || bool_decide (next ≠ e));
      intros [= <- <-]; right; split; auto; discriminate. }
  destruct ((bool_decide (current = LF) && bool_decide (prev ≠ CR) || bool_decide (current = CR))
            && negb (enclosed st)).
  { cbn [actualSampleLines].
    destruct (Z.leb_spec sl (int_add (actualSampleLines st) 1)); intros [= <- <-].
    - left. auto.
    - right. split; [discriminate|]. right. auto. }
  destruct (negb (enclosed st)); [destruct (negb (nonDelimiter current))|];
    intros [= <- <-]; right; split; auto; discriminate.
Qed.

(** Within one chunk the counter stops at the target. *)
Lemma sample_chunk_bounded (sl : Z) (e : byte) :
  0 ≤ sl < 2 ^ 62 →
  ∀ (n : nat) (buf : list byte) (prev : byte) (st : SampleState),
    (length buf ≤ n)%nat →
    0 ≤ actualSampleLines st < sl →
    actualSampleLines (sample_chunk sl e prev buf st) ≤ sl.
Proof.
  intros Hsl. induction n as [|n IH]; intros buf prev st Hlen Hst.
  { destruct buf; [cbn; lia | cbn in Hlen; lia]. }
  destruct buf as [|current rest]; [cbn; lia|].
  cbn [sample_chunk length] in *.
  destruct (sample_body sl e prev current _ st) as [st' ctl] eqn:Hb.
  assert (int_add (actualSampleLines st) 1 = actualSampleLines st + 1) as Hadd.
  { apply wrap_int_small. lia. }
  apply sample_body_counter in Hb as [(-> & Hc & _)|(Hctl & Hc)].
  - lia.
  - assert (0 ≤ actualSampleLines st' < sl) as Hst' by lia.
    destruct ctl; [apply IH; [lia|done] | | done].
    destruct rest as [|skipped rest']; [lia|]. apply IH; [cbn in Hlen; lia|done].
Qed.

(** A stream delivered by a single successful read is sampled within the
    target: the returned count is at most [sampleLines]. *)
Lemma sample_single_read_bounded (buf : list byte) (e : byte) :
  (sample [buf] sampleLines e).2 ≤ sampleLines.
Proof.
  unfold sample, sample_loop. cbn [fold_left snd].
  apply (sample_chunk_bounded sampleLines e ltac:(unfold sampleLines; lia) (length buf));
    [done | cbn; unfold sampleLines; lia].
Qed.

(** C4 fails on the code: the [break] leaves the inner loop only, and the
    next chunk is sampled again.  On a stream of 2048 linefeeds followed by a
    comma the counter reaches 15 in the first chunk of 1024 bytes and 16 in
    the second; the comma of the third chunk is recorded at line 16. *)
Theorem sample_overruns_target :
  let result := sample (buffered_reads (replicate 2048 LF ++ bytes ",")) sampleLines quote in
  result.2 = 16
  ∧ sampleLines < result.2
  ∧ (result.1 !! ","%byte) ≫= (.!! 16) = Some 1.
Proof. vm_compute. by repeat split. Qed.

End SampleBound.

(** ** Candidates *)

Section Candidates.

Lemma fold_append_filter {A B} (P : A → bool) (f : A → B) (l : list A) (acc : list B) :
  fold_left (fun acc x => if P x then acc ++ [f x] else acc) l acc
  = acc ++ (f <$> filter (λ x, P x = true) l).
Proof.
  revert acc. induction l as [|x l IH]; intros acc; cbn [fold_left].
  - by rewrite app_nil_r.
  - rewrite IH. destruct (P x) eqn:HP.
    + rewrite filter_cons_True by done. by rewrite fmap_cons, <- app_assoc.
    + rewrite filter_cons_False by congruence. done.
Qed.

Lemma analyze_filter (order : list byte) (ft : gmap byte (gmap Z Z)) (n : Z) :
  analyze order ft n = filter (λ d, qualifies ft n d = true) order.
Proof.
  unfold analyze.
  rewrite <- (list_fmap_id (filter _ order)), <- (app_nil_l (id <$> _)).
  rewrite <- (fold_append_filter (qualifies ft n) id).
  set (acc := @nil byte) at 2 4. clearbody acc. revert acc.
  induction order as [|d order IH]; intros acc; [done|].
  cbn [fold_left]. rewrite IH. unfold qualifies, id. by destruct (ft !! d).
Qed.

Lemma DetectDelimiter_filter (order : list byte) (reads : list (list byte)) (e : byte) :
  DetectDelimiter order reads e
  = string_of_byte <$>
      filter (λ d, validDelimiter d = true)
        (filter (λ d, qualifies (sample reads sampleLines e).1
                                (int_sub (sample reads sampleLines e).2 1) d = true) order).
Proof.
  unfold DetectDelimiter. destruct (sample reads sampleLines e) as [ft n]. cbn [fst snd].
  rewrite fold_append_filter, analyze_filter. done.
Qed.

Lemma validDelimiter_spec (d : byte) :
  validDelimiter d = true ↔ d ∈ possibleDelimiters.
Proof.
  unfold validDelimiter. induction possibleDelimiters as [|p l IH]; cbn [validDelimiter_loop].
  - rewrite elem_of_nil. split; [discriminate | tauto].
  - rewrite elem_of_cons. case_bool_decide; [tauto|]. rewrite IH. tauto.
Qed.

Lemma string_of_valid (d : byte) :
  validDelimiter d = true → string_of_byte d = [d] ∧ [d] ∈ allowed_strings.
Proof.
  rewrite validDelimiter_spec. unfold possibleDelimiters, allowed_strings.
  eval_bytes. cbn [app]. rewrite !elem_of_cons, elem_of_nil.
  intros [->|[->|[->|[->|[]]]]]; (split; [reflexivity | in_list]).
Qed.

Lemma string_of_byte_inj (d d' : byte) :
  validDelimiter d' = true → string_of_byte d = string_of_byte d' → d = d'.
Proof.
  intros [Hs _]%string_of_valid. rewrite Hs. unfold string_of_byte.
  destruct (byte_val d <? 128); [congruence | discriminate].
Qed.

(** C3: every string [DetectDelimiter] returns, whatever the stream, the
    enclosure and the iteration order of the table, is one of the four
    one-character strings comma, pipe, tab, semicolon; the string of a
    character outside the allow-list is never returned, also when the
    character passes the zero-deviation test. *)
Theorem DetectDelimiter_allow_list (order : list byte) (reads : list (list byte)) (e : byte) :
  Forall (λ s, s ∈ allowed_strings ∧ length s = 1%nat) (DetectDelimiter order reads e)
  ∧ (∀ d : byte,
       validDelimiter d = false → string_of_byte d ∉ DetectDelimiter order reads e).
Proof.
  rewrite DetectDelimiter_filter. split.
  - apply Forall_forall. intros s (d & -> & [Hv _]%list_elem_of_filter)%list_elem_of_fmap.
    apply string_of_valid in Hv as [-> Hin]. done.
  - intros d Hd (d' & Heq & [Hv _]%list_elem_of_filter)%list_elem_of_fmap.
    apply string_of_byte_inj in Heq; [|done]. congruence.
Qed.

(** A uniform letter and a uniform comma: only the comma is returned. *)
Lemma DetectDelimiter_allow_list_witness :
  validDelimiter "#"%byte = false
  ∧ DetectDelimiter (bytes "#,") (buffered_reads (bytes "1#2,3" ++ [LF])) quote = [bytes ","]
  ∧ (string_of_byte "#"%byte
       ∉ DetectDelimiter (bytes "#,") (buffered_reads (bytes "1#2,3" ++ [LF])) quote).
Proof.
  split; [reflexivity|]. split; [vm_compute; reflexivity|].
  apply (proj2 (DetectDelimiter_allow_list (bytes "#,")
                  (buffered_reads (bytes "1#2,3" ++ [LF])) quote)).
  reflexivity.
Defined.

(** *** Iteration order *)

Lemma tie_stream_comma_first :
  DetectDelimiter_returns (buffered_reads tie_stream) quote [bytes ","; bytes ";"].
Proof.
  exists (bytes ",;"). split; [|vm_compute; reflexivity].
  unfold range_order. vm_compute. apply Permutation_refl || apply perm_swap.
Qed.

Lemma tie_stream_semicolon_first :
  DetectDelimiter_returns (buffered_reads tie_stream) quote [bytes ";"; bytes ","].
Proof.
  exists (bytes ";,"). split; [|vm_compute; reflexivity].
  unfold range_order. vm_compute. apply Permutation_refl || apply perm_swap.
Qed.

(** The same bytes in two reads that part a carriage return from its
    linefeed: the linefeed is counted as a line of its own, the lines are four
    and not three, and the comma of the one-read stream is not returned. *)
Lemma crlf_two_reads_nothing (r : list (list byte)) :
  DetectDelimiter_returns crlf_two_reads quote r → r = [].
Proof.
  intros (order & Ho & ->). unfold range_order in Ho.
  assert ((map_to_list (sample crlf_two_reads sampleLines quote).1).*1 = bytes ",") as Hkeys
    by (vm_compute; reflexivity).
  rewrite Hkeys in Ho. apply Permutation_singleton_r in Ho. subst order.
  vm_compute. reflexivity.
Qed.

(** C7 fails as stated, twice.  The candidates come out in the order in
    which [range] visits the table, which Go leaves unspecified: on a stream
    where comma and semicolon are both uniform, both orders are possible
    results of [DetectDelimiter] on the same bytes.  And the result depends
    on the reads and not on the bytes alone: two lines ended by CR LF give
    the comma when one read delivers them, and nothing when a read ends
    between the first carriage return and its linefeed. *)
Lemma DetectDelimiter_not_determined_by_content :
  (DetectDelimiter_returns (buffered_reads tie_stream) quote [bytes ","; bytes ";"]
   ∧ DetectDelimiter_returns (buffered_reads tie_stream) quote [bytes ";"; bytes ","]
   ∧ [bytes ","; bytes ";"] ≠ [bytes ";"; bytes ","])
  ∧ (concat crlf_one_read = concat crlf_two_reads
     ∧ DetectDelimiter_returns crlf_one_read quote [bytes ","]
     ∧ DetectDelimiter_returns crlf_two_reads quote []
     ∧ ∀ r, DetectDelimiter_returns crlf_two_reads quote r → ¬ r ≡ₚ [bytes ","]).
Proof.
  split.
  - split; [apply tie_stream_comma_first|]. split; [apply tie_stream_semicolon_first|].
    discriminate.
  - split; [reflexivity|]. split; [|split].
    + exists (bytes ","). split; [|vm_compute; reflexivity].
      unfold range_order. vm_compute. apply Permutation_refl.
    + exists (bytes ","). split; [|vm_compute; reflexivity].
      unfold range_order. vm_compute. apply Permutation_refl.
    + intros r Hr%crlf_two_reads_nothing. subst r. intros H%Permutation_nil_l. done.
Qed.

(** C7, as the code has it: two calls on two streams that deliver the same
    bytes in the same reads, with the same enclosure, return the same
    candidates, each the same number of times, possibly in a different
    order. *)
Theorem DetectDelimiter_same_candidates (reads1 reads2 : list (list byte)) (e : byte)
    (r1 r2 : list (list byte)) :
  reads1 = reads2 →
  DetectDelimiter_returns reads1 e r1 →
  DetectDelimiter_returns reads2 e r2 →
  r1 ≡ₚ r2.
Proof.
  intros <- (o1 & Ho1 & ->) (o2 & Ho2 & ->).
  rewrite !DetectDelimiter_filter.
  unfold range_order in *. by rewrite Ho1, Ho2.
Qed.

(** Two in-memory readers over the same content: both orders are possible
    for the two calls. *)
Lemma DetectDelimiter_same_candidates_witness :
  [bytes ","; bytes ";"] ≡ₚ [bytes ";"; bytes ","].
Proof.
  apply (DetectDelimiter_same_candidates (buffered_reads tie_stream)
           (buffered_reads tie_stream) quote).
  - reflexivity.
  - apply tie_stream_comma_first.
  - apply tie_stream_semicolon_first.
Defined.

End Candidates.

(** ** Streams without a line break *)

Section NoLineBreak.

Lemma sample_chunk_no_break (sl : Z) (e : byte) (n : nat) :
  ∀ (buf : list byte) (prev : byte) (st : SampleState),
    (length buf ≤ n)%nat →
    Forall (λ it, unenclosed_line_break e it = false) (chunk_iterations sl e prev buf st) →
    actualSampleLines (sample_chunk sl e prev buf st) = actualSampleLines st.
Proof.
  induction n as [|n IH]; intros buf prev st Hlen Hq.
  { destruct buf; [done | cbn in Hlen; lia]. }
  destruct buf as [|current rest]; [done|].
  cbn [sample_chunk chunk_iterations length] in *.
  apply Forall_cons in Hq as [Hit Hq].
  pose proof (sample_body_lines sl e prev current
                (match rest with [] => x00 | b :: _ => b end) st) as Hl.
  rewrite Hit in Hl.
  destruct (sample_body sl e prev current _ st) as [st' ctl]. cbn [fst] in Hl.
  destruct ctl; [| |done].
  - rewrite IH; [done | lia | done].
  - destruct rest as [|skipped rest']; [done|].
    rewrite IH; [done | cbn in Hlen; lia | done].
Qed.

Lemma sample_loop_no_break (sl : Z) (e : byte) (reads : list (list byte)) :
  ∀ st : SampleState,
    Forall (λ it, unenclosed_line_break e it = false) (sample_iterations sl e reads st) →
    actualSampleLines (sample_loop sl e reads st) = actualSampleLines st.
Proof.
  induction reads as [|buf reads IH]; intros st Hq; [done|].
  cbn [sample_iterations] in Hq. apply Forall_app in Hq as [Hbuf Hrest].
  unfold sample_loop in *. cbn [fold_left]. rewrite IH by done.
  by apply (sample_chunk_no_break sl e (length buf)).
Qed.

(** The hypothesis on the iterations, checked by evaluation. *)
Lemma Forall_false_forallb {A} (f : A → bool) (l : list A) :
  forallb (λ x, negb (f x)) l = true → Forall (λ x, f x = false) l.
Proof.
  induction l as [|x l IH]; cbn [forallb]; [constructor|].
  intros [Hx Hl]%andb_true_iff. constructor; [by destruct (f x) | by apply IH].
Qed.

(** With an effective line count of zero the deviation is [0/0], a NaN,
    which is not equal to zero: no key of the table qualifies. *)
Lemma qualifies_zero_lines (ft : gmap byte (gmap Z Z)) (d : byte) :
  qualifies ft 0 d = false.
Proof. unfold qualifies. by destruct (ft !! d). Qed.

(** C10: when no iteration of the sampler sees an unenclosed line break
    (the empty stream, a single line without terminator, line breaks inside
    quotes only), the sampler returns a line count of 1, the analyzer runs
    with an effective line count of 0, no character of the table qualifies
    and [DetectDelimiter] returns the empty sequence. *)
Theorem no_line_break_no_candidate (order : list byte) (reads : list (list byte)) (e : byte) :
  Forall (λ it, unenclosed_line_break e it = false)
         (sample_iterations sampleLines e reads sample_init) →
  (sample reads sampleLines e).2 = 1
  ∧ int_sub (sample reads sampleLines e).2 1 = 0
  ∧ (∀ d : byte, qualifies (sample reads sampleLines e).1 0 d = false)
  ∧ analyze order (sample reads sampleLines e).1 0 = []
  ∧ DetectDelimiter order reads e = [].
Proof.
  intros Hq.
  assert ((sample reads sampleLines e).2 = 1) as H1.
  { unfold sample. cbn [snd]. by rewrite sample_loop_no_break. }
  assert (∀ l : list byte,
            filter (λ d, qualifies (sample reads sampleLines e).1 0 d = true) l = []) as Hf.
  { induction l as [|d l IHl]; [done|].
    rewrite filter_cons_False; [done|]. by rewrite qualifies_zero_lines. }
  split; [exact H1|]. split; [by rewrite H1|].
  split; [intros d; apply qualifies_zero_lines|].
  split; [by rewrite analyze_filter|].
  rewrite DetectDelimiter_filter, H1.
  change (int_sub 1 1) with 0. by rewrite Hf.
Qed.

(** A single line with three commas and no terminator, a line whose only
    line break is inside quotes, and the empty stream. *)
Lemma no_line_break_no_candidate_witness :
  DetectDelimiter (bytes ",") (buffered_reads (bytes "a,b,c,d")) quote = []
  ∧ (sample (buffered_reads (bytes "a," ++ [quote; LF; quote] ++ bytes ",b")) sampleLines quote).2
    = 1
  ∧ DetectDelimiter [] (buffered_reads []) quote = [].
Proof.
  split; [|split].
  3: { apply (no_line_break_no_candidate [] (buffered_reads []) quote). constructor. }
  - apply (no_line_break_no_candidate (bytes ",") (buffered_reads (bytes "a,b,c,d")) quote).
    apply Forall_false_forallb. vm_compute. reflexivity.
  - apply (no_line_break_no_candidate (bytes ",")
             (buffered_reads (bytes "a," ++ [quote; LF; quote] ++ bytes ",b")) quote).
    apply Forall_false_forallb. vm_compute. reflexivity.
Defined.

End NoLineBreak.

(** ** The dialect builder *)

Section DialectBuilder.
Import Dialect.

(** C9 fails on the code for the delimiter: [Dialect] checks the length of
    the enclosure and of the escape string and not that of the delimiter
    string.  With an empty delimiter it returns a dialect whose delimiter is
    the rune 0, with a delimiter of two characters a dialect with the first
    one; the enclosure and escape strings are rejected in both cases. *)
Theorem Dialect_delimiter_unchecked :
  let flags (q esc d : list byte) :=
    {| quoteCharString := q; escapeCharString := esc; delimiterCharString := d;
       flagSet := None |} in
  Dialect true (flags [quote] (bytes "\") [])
  = inl {| Delimiter := 0; QuoteChar := 34; EscapeChar := 92; DoubleQuote := NoDoubleQuote |}
  ∧ Dialect true (flags [quote] (bytes "\") (bytes ",;"))
    = inl {| Delimiter := 44; QuoteChar := 34; EscapeChar := 92; DoubleQuote := NoDoubleQuote |}
  ∧ Dialect true (flags [] (bytes "\") (bytes ","))
    = inr "-fields-optionally-enclosed-by can't be an empty string."%string
  ∧ Dialect true (flags [quote; quote] (bytes "\") (bytes ","))
    = inr "-fields-optionally-enclosed-by can't be more than one character."%string
  ∧ Dialect true (flags [quote] [] (bytes ","))
    = inr "-fields-escaped-by can't be an empty string."%string
  ∧ Dialect true (flags [quote] (bytes "\\") (bytes ","))
    = inr "-fields-escaped-by can't be more than one character."%string.
Proof. vm_compute. by repeat split. Qed.

End DialectBuilder.

(** ** Floating-point arithmetic

    What [analyze] needs of the arithmetic of [SpecFloat]: integers below
    [2 ^ prec] and their exact quotients are computed exactly, and a value
    of the normal range stays away from zero through subtraction,
    multiplication, square root, addition and division. *)

(** ** Binary digits *)

Lemma Zdigits2_log2 (m : Z) : 0 < m → Zdigits2 m = Z.log2 m + 1.
Proof.
  destruct m as [|p|p]; [lia| |lia]. intros _.
  assert (∀ q, digits2_pos q = Pos.size q) as Hsize.
  { induction q; simpl; congruence. }
  cbn [Zdigits2]. rewrite Hsize.
  destruct p; cbn [Z.log2 Pos.size]; lia.
Qed.

Lemma Zdigits2_bounds (m : Z) :
  0 < m → 2 ^ (Zdigits2 m - 1) ≤ m < 2 ^ Zdigits2 m.
Proof.
  intros Hm. rewrite Zdigits2_log2 by done.
  replace (Z.log2 m + 1 - 1) with (Z.log2 m) by lia.
  apply Z.log2_spec. done.
Qed.

Lemma Zdigits2_unique (m d : Z) :
  2 ^ (d - 1) ≤ m < 2 ^ d → 0 < m → Zdigits2 m = d.
Proof.
  intros Hb Hm. rewrite Zdigits2_log2 by done.
  assert (0 < d).
  { destruct (Z.le_gt_cases d 0) as [Hd|]; [|done].
    destruct (Z.eq_dec d 0) as [->|]; [simpl in Hb; lia|].
    rewrite (Z.pow_neg_r 2 d) in Hb by lia. lia. }
  rewrite (Z.log2_unique m (d - 1)); lia || (replace (Z.succ (d - 1)) with d by lia; lia).
Qed.

Lemma Zdigits2_pos (m : Z) : 0 < m → 0 < Zdigits2 m.
Proof. intros Hm. rewrite Zdigits2_log2 by done. pose proof (Z.log2_nonneg m). lia. Qed.

Lemma Zdigits2_mul_pow2 (m k : Z) :
  0 < m → 0 ≤ k → Zdigits2 (m * 2 ^ k) = Zdigits2 m + k.
Proof.
  intros Hm Hk. assert (0 < 2 ^ k) by (apply Z.pow_pos_nonneg; lia).
  rewrite !Zdigits2_log2 by nia. rewrite Z.log2_mul_pow2 by lia. lia.
Qed.

Lemma Zdigits2_div_pow2 (m k : Z) :
  0 < m → 0 ≤ k < Zdigits2 m → Zdigits2 (m / 2 ^ k) = Zdigits2 m - k.
Proof.
  intros Hm Hk. pose proof (Zdigits2_bounds m Hm) as Hb.
  assert (0 < 2 ^ k) by (apply Z.pow_pos_nonneg; lia).
  assert (2 ^ (Zdigits2 m - 1) = 2 ^ (Zdigits2 m - k - 1) * 2 ^ k) as E1.
  { rewrite <- Z.pow_add_r by lia. f_equal. lia. }
  assert (2 ^ Zdigits2 m = 2 ^ (Zdigits2 m - k) * 2 ^ k) as E2.
  { rewrite <- Z.pow_add_r by lia. f_equal. lia. }
  assert (0 < 2 ^ (Zdigits2 m - k - 1)) by (apply Z.pow_pos_nonneg; lia).
  assert (2 ^ (Zdigits2 m - k - 1) ≤ m / 2 ^ k).
  { apply Z.div_le_lower_bound; lia. }
  assert (m / 2 ^ k < 2 ^ (Zdigits2 m - k)).
  { apply Z.div_lt_upper_bound; lia. }
  apply Zdigits2_unique; lia.
Qed.

Lemma Zdigits2_pow2 (k : Z) : 0 ≤ k → Zdigits2 (2 ^ k) = k + 1.
Proof.
  intros Hk. assert (0 < 2 ^ k) by (apply Z.pow_pos_nonneg; lia).
  rewrite Zdigits2_log2 by done. rewrite Z.log2_pow2; lia.
Qed.

Lemma Zdigits2_le (m n : Z) : 0 < m → m ≤ n → Zdigits2 m ≤ Zdigits2 n.
Proof.
  intros Hm Hn. rewrite !Zdigits2_log2 by lia.
  pose proof (Z.log2_le_mono m n Hn). lia.
Qed.

Lemma Zdigits2_succ (m : Z) :
  0 < m →
  Zdigits2 (m + 1) = Zdigits2 m
  ∨ (m + 1 = 2 ^ Zdigits2 m ∧ Zdigits2 (m + 1) = Zdigits2 m + 1).
Proof.
  intros Hm. pose proof (Zdigits2_bounds m Hm) as Hb.
  destruct (Z.eq_dec (m + 1) (2 ^ Zdigits2 m)) as [E|E].
  - right. split; [done|]. rewrite E. apply Zdigits2_pow2.
    pose proof (Zdigits2_pos m Hm). lia.
  - left. apply Zdigits2_unique; lia.
Qed.

Lemma Zdigits2_ge (m d : Z) : 0 ≤ d → 2 ^ d ≤ m → d + 1 ≤ Zdigits2 m.
Proof.
  intros Hd Hm. assert (0 < 2 ^ d) by (apply Z.pow_pos_nonneg; lia).
  rewrite <- (Zdigits2_pow2 d) by done. apply Zdigits2_le; lia.
Qed.

Lemma Zdigits2_mul (a b : Z) :
  0 < a → 0 < b →
  Zdigits2 a + Zdigits2 b - 1 ≤ Zdigits2 (a * b) ≤ Zdigits2 a + Zdigits2 b.
Proof.
  intros Ha Hb.
  pose proof (Zdigits2_bounds a Ha) as Ba. pose proof (Zdigits2_bounds b Hb) as Bb.
  pose proof (Zdigits2_pos a Ha). pose proof (Zdigits2_pos b Hb).
  assert (0 < 2 ^ (Zdigits2 a - 1)) by (apply Z.pow_pos_nonneg; lia).
  assert (0 < 2 ^ (Zdigits2 b - 1)) by (apply Z.pow_pos_nonneg; lia).
  assert (2 ^ (Zdigits2 a + Zdigits2 b - 2) ≤ a * b).
  { replace (Zdigits2 a + Zdigits2 b - 2) with ((Zdigits2 a - 1) + (Zdigits2 b - 1)) by lia.
    rewrite Z.pow_add_r by lia. nia. }
  assert (a * b < 2 ^ (Zdigits2 a + Zdigits2 b)).
  { rewrite Z.pow_add_r by lia. nia. }
  split.
  - pose proof (Zdigits2_ge (a * b) (Zdigits2 a + Zdigits2 b - 2) ltac:(lia) ltac:(done)). lia.
  - destruct (Z.le_gt_cases (Zdigits2 (a * b)) (Zdigits2 a + Zdigits2 b)) as [|Hgt]; [done|].
    pose proof (Zdigits2_bounds (a * b) ltac:(nia)) as Bab.
    assert (2 ^ (Zdigits2 a + Zdigits2 b) ≤ 2 ^ (Zdigits2 (a * b) - 1)).
    { apply Z.pow_le_mono_r; lia. }
    lia.
Qed.

Lemma Zdigits2_upper (m d : Z) : 0 < m < 2 ^ d → 0 ≤ d → Zdigits2 m ≤ d.
Proof.
  intros Hm Hd. destruct (Z.le_gt_cases (Zdigits2 m) d) as [|Hgt]; [done|].
  pose proof (Zdigits2_bounds m ltac:(lia)) as [Blo _].
  assert (2 ^ d ≤ 2 ^ (Zdigits2 m - 1)) by (apply Z.pow_le_mono_r; lia). lia.
Qed.

(** ** Shifting the mantissa right *)

Lemma shr_m_of_loc (m : Z) (l : location) : shr_m (shr_record_of_loc m l) = m.
Proof. by destruct l as [|[]]. Qed.

Lemma shr_1_m (mrs : shr_record) : 0 ≤ shr_m mrs → shr_m (shr_1 mrs) = shr_m mrs / 2.
Proof.
  destruct mrs as [m r s]. cbn [shr_m]. intros Hm.
  destruct m as [|[p|p|]|p]; cbn [shr_1 shr_m]; try lia; try done.
  - apply (Z.div_unique (Z.pos p~1) 2 (Z.pos p) 1); lia.
  - apply (Z.div_unique (Z.pos p~0) 2 (Z.pos p) 0); lia.
Qed.

Lemma pow2_xO (p : positive) : 2 ^ Z.pos p~0 = 2 ^ Z.pos p * 2 ^ Z.pos p.
Proof.
  replace (Z.pos p~0) with (Z.pos p + Z.pos p) by lia.
  apply Z.pow_add_r; lia.
Qed.

Lemma pow2_xI (p : positive) : 2 ^ Z.pos p~1 = 2 * (2 ^ Z.pos p * 2 ^ Z.pos p).
Proof.
  replace (Z.pos p~1) with (1 + (Z.pos p + Z.pos p)) by lia.
  rewrite !Z.pow_add_r by lia. done.
Qed.

Lemma shr_iter_m (p : positive) :
  ∀ mrs, 0 ≤ shr_m mrs → shr_m (SpecFloat.iter_pos shr_1 p mrs) = shr_m mrs / 2 ^ Zpos p.
Proof.
  induction p as [p IH|p IH|]; intros mrs Hm; cbn [SpecFloat.iter_pos].
  - assert (0 < 2 ^ Z.pos p) as Hp by (apply Z.pow_pos_nonneg; lia).
    assert (0 ≤ shr_m (shr_1 mrs)) as H1.
    { rewrite shr_1_m by done. apply Z.div_pos; lia. }
    assert (0 ≤ shr_m (SpecFloat.iter_pos shr_1 p (shr_1 mrs))) as H2.
    { rewrite IH by done. apply Z.div_pos; lia. }
    rewrite (IH _ H2), (IH _ H1), shr_1_m by done.
    rewrite !Z.div_div by lia. f_equal. rewrite pow2_xI. lia.
  - assert (0 < 2 ^ Z.pos p) as Hp by (apply Z.pow_pos_nonneg; lia).
    assert (0 ≤ shr_m (SpecFloat.iter_pos shr_1 p mrs)) as H2.
    { rewrite IH by done. apply Z.div_pos; lia. }
    rewrite (IH _ H2), (IH _ Hm).
    rewrite !Z.div_div by lia. f_equal. rewrite pow2_xO. lia.
  - rewrite shr_1_m by done. done.
Qed.

Lemma shr_1_exact (m : Z) :
  0 ≤ m → shr_1 (Build_shr_record (m * 2) false false) = Build_shr_record m false false.
Proof.
  intros Hm. destruct m as [|p|p]; [done| |lia].
  replace (Z.pos p * 2) with (Z.pos p~0) by lia. done.
Qed.

Lemma shr_iter_exact (p : positive) :
  ∀ m, 0 ≤ m →
       SpecFloat.iter_pos shr_1 p (Build_shr_record (m * 2 ^ Zpos p) false false)
       = Build_shr_record m false false.
Proof.
  induction p as [p IH|p IH|]; intros m Hm; cbn [SpecFloat.iter_pos].
  - assert (0 < 2 ^ Z.pos p) by (apply Z.pow_pos_nonneg; lia).
    replace (m * 2 ^ Z.pos p~1) with ((m * 2 ^ Z.pos p * 2 ^ Z.pos p) * 2).
    + rewrite shr_1_exact by nia. rewrite IH by nia. by rewrite IH.
    + rewrite pow2_xI. lia.
  - assert (0 < 2 ^ Z.pos p) by (apply Z.pow_pos_nonneg; lia).
    replace (m * 2 ^ Z.pos p~0) with (m * 2 ^ Z.pos p * 2 ^ Z.pos p).
    + rewrite IH by nia. by rewrite IH.
    + rewrite pow2_xO. lia.
  - change (2 ^ 1) with 2. by apply shr_1_exact.
Qed.

Lemma round_nearest_even_cases (m : Z) (l : location) :
  round_nearest_even m l = m ∨ round_nearest_even m l = m + 1.
Proof. destruct l as [|[]]; cbn; try destruct (Z.even m); auto. Qed.

Lemma Pos_iter_xO (m d : positive) : Zpos (Pos.iter xO m d) = Zpos m * 2 ^ Zpos d.
Proof.
  revert m. induction d as [|d IH] using Pos.peano_ind; intros m.
  - cbn [Pos.iter]. lia.
  - rewrite Pos.iter_succ, Pos2Z.inj_xO, IH, Pos2Z.inj_succ, Z.pow_succ_r by lia. lia.
Qed.

Lemma shl_align_spec (mx : positive) (ex ex' : Z) :
  ex' ≤ ex →
  ∃ m, shl_align mx ex ex' = (m, ex') ∧ Zpos m = Zpos mx * 2 ^ (ex - ex').
Proof.
  intros Hle. unfold shl_align.
  destruct (ex' - ex) as [|p|p] eqn:E; [|lia|].
  - exists mx. assert (ex' = ex) as -> by lia. rewrite Z.sub_diag. split; [done|lia].
  - exists (Pos.iter xO mx p). split; [done|]. rewrite Pos_iter_xO. f_equal. f_equal. lia.
Qed.

Lemma shl_align_keep (mx : positive) (ex ex' : Z) :
  ex ≤ ex' → ∃ m, shl_align mx ex ex' = (m, ex) ∧ m = mx.
Proof.
  intros Hle. unfold shl_align. exists mx. destruct (ex' - ex) as [|p|p] eqn:E; [done|done|lia].
Qed.

Lemma div2_bounds (x : Z) : 2 * Z.div2 x ≤ x ≤ 2 * Z.div2 x + 1.
Proof. rewrite (Z.div2_odd x) at 2 3. destruct (Z.odd x); cbn [Z.b2z]; lia. Qed.

Lemma large_weaken (prec : Z) (s : bool) (L L' : Z) (x : spec_float) :
  large prec s L x → L' ≤ L → large prec s L' x.
Proof.
  intros [->|(m & e & -> & Hd & HL)] Hle; [by left|right].
  exists m, e. split; [done|]. split; [done|lia].
Qed.

Lemma SFeqb_zero_large (prec : Z) (L : Z) (x : spec_float) :
  large prec false L x → SFeqb (S754_zero false) x = false.
Proof. by intros [->|(m & e & -> & _)]. Qed.

Section Rounding.
Variables prec emax : Z.
Hypothesis Hprec : 2 ≤ prec.
Hypothesis Hemax : prec < emax.

Lemma fexp_normal (mag : Z) :
  emin prec emax + prec ≤ mag → fexp prec emax mag = mag - prec.
Proof using Hprec Hemax. unfold fexp. lia. Qed.

Lemma shr_fexp_spec (m e : Z) (l : location) :
  0 < m →
  let k := Z.max 0 (fexp prec emax (Zdigits2 m + e) - e) in
  shr_m (shr_fexp prec emax m e l).1 = m / 2 ^ k
  ∧ (shr_fexp prec emax m e l).2 = e + k
  ∧ (k = 0 → (shr_fexp prec emax m e l).1 = shr_record_of_loc m l).
Proof using Hprec Hemax.
  intros Hm k. unfold shr_fexp, shr. subst k.
  destruct (fexp prec emax (Zdigits2 m + e) - e) as [|p|p] eqn:E; cbn [fst snd].
  - rewrite shr_m_of_loc. change (Z.max 0 0) with 0. rewrite Z.div_1_r.
    split; [done|]. split; [lia|done].
  - rewrite shr_iter_m by (rewrite shr_m_of_loc; lia). rewrite shr_m_of_loc.
    replace (Z.max 0 (Z.pos p)) with (Z.pos p) by lia. split; [done|]. split; [done|lia].
  - rewrite shr_m_of_loc. replace (Z.max 0 (Z.neg p)) with 0 by lia. rewrite Z.div_1_r.
    split; [done|]. split; [lia|done].
Qed.

(** A mantissa of [prec] digits followed by [k] zero bits is rounded to
    itself. *)
Lemma binary_round_aux_exact (s : bool) (m : positive) (e k : Z) :
  0 ≤ k → Zdigits2 (Zpos m) = prec → emin prec emax ≤ e ≤ emax - prec →
  binary_round_aux prec emax s (Zpos m * 2 ^ k) (e - k) loc_Exact = S754_finite s m e.
Proof using Hprec Hemax.
  intros Hk Hd He.
  assert (fexp prec emax (prec + e) = e) as Hf by (unfold fexp; lia).
  assert (shr_fexp prec emax (Zpos m * 2 ^ k) (e - k) loc_Exact
          = (Build_shr_record (Zpos m) false false, e)) as H1.
  { unfold shr_fexp. rewrite Zdigits2_mul_pow2 by lia. rewrite Hd.
    replace (prec + k + (e - k)) with (prec + e) by lia. rewrite Hf.
    replace (e - (e - k)) with k by lia. unfold shr. cbn [shr_record_of_loc].
    destruct k as [|p|p]; [|  |lia].
    - f_equal; [f_equal; lia | lia].
    - rewrite shr_iter_exact by lia. f_equal. lia. }
  assert (shr_fexp prec emax (Zpos m) e loc_Exact
          = (Build_shr_record (Zpos m) false false, e)) as H2.
  { unfold shr_fexp. rewrite Hd, Hf, Z.sub_diag. done. }
  unfold binary_round_aux. rewrite H1. cbn [shr_m loc_of_shr_record round_nearest_even].
  rewrite H2. cbn [shr_m].
  destruct (Z.leb_spec e (emax - prec)); [done|lia].
Qed.

(** A positive mantissa of at least [prec] digits in the normal range is
    rounded to a normal number of the same binade or the next one, or to
    infinity when that binade is beyond [emax]. *)
Lemma binary_round_aux_normal (s : bool) (mx ex : Z) (lx : location) :
  0 < mx → prec ≤ Zdigits2 mx → emin prec emax + prec ≤ Zdigits2 mx + ex →
  ∃ (m : positive) (mag : Z),
    Zdigits2 (Zpos m) = prec
    ∧ Zdigits2 mx + ex ≤ mag ≤ Zdigits2 mx + ex + 1
    ∧ binary_round_aux prec emax s mx ex lx
      = if mag <=? emax then S754_finite s m (mag - prec) else S754_infinity s.
Proof using Hprec Hemax.
  intros Hmx Hd Hmag. set (d := Zdigits2 mx) in *.
  unfold binary_round_aux.
  pose proof (shr_fexp_spec mx ex lx Hmx) as (H1m & H1e & _).
  destruct (shr_fexp prec emax mx ex lx) as [mrs1 e1]. cbn [fst snd] in H1m, H1e.
  fold d in H1m, H1e. rewrite fexp_normal in H1m, H1e by done.
  replace (Z.max 0 (d + ex - prec - ex)) with (d - prec) in H1m, H1e by lia.
  assert (0 < 2 ^ (d - prec)) as Hpow by (apply Z.pow_pos_nonneg; lia).
  assert (Zdigits2 (shr_m mrs1) = prec) as Hd1.
  { rewrite H1m, Zdigits2_div_pow2 by (fold d; lia). fold d. lia. }
  assert (0 < shr_m mrs1) as Hm1.
  { rewrite H1m. pose proof (Zdigits2_bounds mx Hmx) as [Hlo _]. fold d in Hlo.
    assert (2 ^ (d - prec) ≤ mx).
    { etrans; [|exact Hlo]. apply Z.pow_le_mono_r; lia. }
    apply Z.div_str_pos. lia. }
  set (m2 := round_nearest_even (shr_m mrs1) (loc_of_shr_record mrs1)).
  assert (0 < m2) as Hm2.
  { subst m2. destruct (round_nearest_even_cases (shr_m mrs1) (loc_of_shr_record mrs1)); lia. }
  pose proof (shr_fexp_spec m2 e1 loc_Exact Hm2) as (H2m & H2e & _).
  destruct (shr_fexp prec emax m2 e1 loc_Exact) as [mrs2 e2]. cbn [fst snd] in H2m, H2e.
  assert (Zdigits2 m2 = prec ∨ (m2 = 2 ^ prec ∧ Zdigits2 m2 = prec + 1)) as [Hd2|[Hp2 Hd2]].
  { subst m2. destruct (round_nearest_even_cases (shr_m mrs1) (loc_of_shr_record mrs1)) as [->| ->].
    - by left.
    - destruct (Zdigits2_succ (shr_m mrs1) Hm1) as [E|[E1 E2]]; rewrite Hd1 in *; auto. }
  - rewrite Hd2, fexp_normal in H2m, H2e by lia.
    replace (Z.max 0 (prec + e1 - prec - e1)) with 0 in H2m, H2e by lia.
    rewrite Z.div_1_r in H2m. rewrite H2m.
    destruct m2 as [|m|m] eqn:Em2; [lia| |lia].
    exists m, (d + ex). split; [done|]. split; [lia|].
    replace (d + ex - prec) with e2 by lia.
    destruct (Z.leb_spec e2 (emax - prec)), (Z.leb_spec (d + ex) emax); done || lia.
  - rewrite Hd2, fexp_normal in H2m, H2e by lia.
    replace (Z.max 0 (prec + 1 + e1 - prec - e1)) with 1 in H2m, H2e by lia.
    assert (shr_m mrs2 = 2 ^ (prec - 1)) as E.
    { rewrite H2m, Hp2. change (2 ^ 1) with 2.
      replace prec with (prec - 1 + 1) at 1 by lia.
      rewrite Z.pow_add_r by lia. change (2 ^ 1) with 2. apply Z.div_mul. lia. }
    assert (0 < 2 ^ (prec - 1)) by (apply Z.pow_pos_nonneg; lia).
    rewrite E. destruct (2 ^ (prec - 1)) as [|m|m] eqn:Em; [lia| |lia].
    exists m, (d + ex + 1). split.
    { rewrite <- Em. rewrite Zdigits2_pow2 by lia. lia. }
    split; [lia|].
    replace (d + ex + 1 - prec) with e2 by lia.
    destruct (Z.leb_spec e2 (emax - prec)), (Z.leb_spec (d + ex + 1) emax); done || lia.
Qed.

(** [binary_round]: the mantissa is first aligned to [prec] digits. *)


Lemma binary_round_normal (s : bool) (mx : positive) (ex : Z) :
  emin prec emax + prec ≤ Zdigits2 (Zpos mx) + ex →
  ∃ (m : positive) (mag : Z),
    Zdigits2 (Zpos m) = prec
    ∧ Zdigits2 (Zpos mx) + ex ≤ mag ≤ Zdigits2 (Zpos mx) + ex + 1
    ∧ binary_round prec emax s mx ex
      = if mag <=? emax then S754_finite s m (mag - prec) else S754_infinity s.
Proof using Hprec Hemax.
  intros Hmag. unfold binary_round.
  change (Z.pos (digits2_pos mx)) with (Zdigits2 (Zpos mx)).
  rewrite fexp_normal by done. set (d := Zdigits2 (Zpos mx)) in *.
  destruct (Z.le_gt_cases (d + ex - prec) ex) as [Hle|Hgt].
  - destruct (shl_align_spec mx ex (d + ex - prec) Hle) as (m' & -> & Hm').
    assert (Zdigits2 (Zpos m') = prec) as Hd'.
    { rewrite Hm', Zdigits2_mul_pow2 by lia. fold d. lia. }
    destruct (binary_round_aux_normal s (Zpos m') (d + ex - prec) loc_Exact) as (m & mag & H1 & H2 & H3);
      [lia | lia | lia |].
    exists m, mag. rewrite Hd' in H2. split; [done|]. split; [lia|done].
  - destruct (shl_align_keep mx ex (d + ex - prec) ltac:(lia)) as (m' & -> & ->).
    destruct (binary_round_aux_normal s (Zpos mx) ex loc_Exact) as (m & mag & H1 & H2 & H3);
      [lia | fold d; lia | fold d; lia |].
    exists m, mag. done.
Qed.


Lemma rounded_large (s : bool) (L lo hi : Z) (r : spec_float) :
  (∃ (m : positive) (mag : Z),
     Zdigits2 (Zpos m) = prec ∧ lo ≤ mag ≤ hi
     ∧ r = if mag <=? emax then S754_finite s m (mag - prec) else S754_infinity s) →
  L ≤ lo → large prec s L r.
Proof using Hprec Hemax.
  intros (m & mag & Hd & Hm & ->) HL.
  destruct (mag <=? emax); [right|by left].
  exists m, (mag - prec). split; [done|]. split; [done|lia].
Qed.


Lemma SFmul_large (s1 s2 : bool) (L1 L2 : Z) (x y : spec_float) :
  large prec s1 L1 x → large prec s2 L2 y →
  emin prec emax + prec ≤ L1 + L2 - 1 →
  large prec (xorb s1 s2) (L1 + L2 - 1) (SFmul prec emax x y).
Proof using Hprec Hemax.
  intros [->|(mx & ex & -> & Hdx & Hx)] [->|(my & ey & -> & Hdy & Hy)] HL;
    cbn [SFmul]; try by left.
  pose proof (Zdigits2_mul (Zpos mx) (Zpos my) ltac:(lia) ltac:(lia)) as Hd.
  rewrite Hdx, Hdy in Hd.
  eapply rounded_large.
  - apply (binary_round_aux_normal); rewrite ?Pos2Z.inj_mul; lia.
  - rewrite Pos2Z.inj_mul. lia.
Qed.

Lemma SFsub_distinct (mx my : positive) (ex ey : Z) :
  Zdigits2 (Zpos mx) = prec → Zdigits2 (Zpos my) = prec →
  (mx, ex) ≠ (my, ey) →
  emin prec emax + prec ≤ Z.min ex ey + 1 →
  ∃ s, large prec s (Z.min ex ey + 1)
         (SFsub prec emax (S754_finite false mx ex) (S754_finite false my ey)).
Proof using Hprec Hemax.
  intros Hdx Hdy Hne HL. cbn [SFsub cond_Zopp]. set (ez := Z.min ex ey) in *.
  destruct (shl_align_spec mx ex ez ltac:(lia)) as (m1 & -> & Hm1).
  destruct (shl_align_spec my ey ez ltac:(lia)) as (m2 & -> & Hm2).
  cbn [fst].
  assert (Zpos m1 - Zpos m2 ≠ 0) as HD.
  { intros HD. assert (Zpos m1 = Zpos m2) as E by lia.
    assert (Zdigits2 (Zpos m1) = Zdigits2 (Zpos m2)) as Ed by (by rewrite E).
    rewrite Hm1, Hm2, !Zdigits2_mul_pow2, Hdx, Hdy in Ed by lia.
    assert (ex = ey) as -> by lia.
    rewrite Hm1, Hm2 in E. apply Z.mul_cancel_r in E.
    - apply Hne. by injection E as ->.
    - assert (0 < 2 ^ (ey - ez)) by (apply Z.pow_pos_nonneg; lia). lia. }
  destruct (Zpos m1 - Zpos m2) as [|p|p] eqn:ED; [done| |]; cbn [binary_normalize].
  - exists false. eapply rounded_large.
    + apply (binary_round_normal).
      pose proof (Zdigits2_pos (Zpos p) ltac:(lia)). lia.
    + pose proof (Zdigits2_pos (Zpos p) ltac:(lia)). lia.
  - exists true. eapply rounded_large.
    + apply (binary_round_normal).
      pose proof (Zdigits2_pos (Zpos p) ltac:(lia)). lia.
    + pose proof (Zdigits2_pos (Zpos p) ltac:(lia)). lia.
Qed.

Lemma SFsub_same (x : spec_float) (s : bool) (m : positive) (e : Z) :
  x = S754_finite s m e → SFsub prec emax x x = S754_zero false.
Proof using Hprec Hemax.
  intros ->. cbn [SFsub]. by rewrite Z.sub_diag.
Qed.

Lemma SFadd_zero_or_large (L : Z) (x y : spec_float) :
  emin prec emax + prec ≤ L →
  zero_or_large prec L x → zero_or_large prec L y →
  zero_or_large prec L (SFadd prec emax x y)
  ∧ (large prec false L x ∨ large prec false L y → large prec false L (SFadd prec emax x y)).
Proof using Hprec Hemax.
  intros HL Hx Hy.
  assert (∀ mx ex my ey,
            Zdigits2 (Zpos mx) = prec → L ≤ prec + ex →
            Zdigits2 (Zpos my) = prec → L ≤ prec + ey →
            large prec false L
              (SFadd prec emax (S754_finite false mx ex) (S754_finite false my ey))) as Hff.
  { intros mx ex my ey Hdx Hx' Hdy Hy'. cbn [SFadd cond_Zopp]. set (ez := Z.min ex ey).
    destruct (shl_align_spec mx ex ez ltac:(lia)) as (m1 & -> & Hm1).
    destruct (shl_align_spec my ey ez ltac:(lia)) as (m2 & -> & Hm2).
    cbn [fst]. change (Zpos m1 + Zpos m2) with (Zpos (m1 + m2)). cbn [binary_normalize].
    assert (prec + (ex - ez) ≤ Zdigits2 (Zpos (m1 + m2))) as Hd.
    { rewrite <- Hdx, <- Zdigits2_mul_pow2, <- Hm1 by lia. apply Zdigits2_le; lia. }
    eapply rounded_large.
    - apply (binary_round_normal). lia.
    - lia. }
  destruct Hx as [->|[->|(mx & ex & -> & Hdx & Hx)]];
    destruct Hy as [->|[->|(my & ey & -> & Hdy & Hy)]]; cbn [SFadd].
  - split; [by left|]. intros [[|(? & ? & ? & _)]|[|(? & ? & ? & _)]]; discriminate.
  - split; [right|intros _]; by left.
  - split; [right|intros _]; right; by exists my, ey.
  - split; [right|intros _]; by left.
  - split; [right|intros _]; by left.
  - split; [right|intros _]; by left.
  - split; [right|intros _]; right; by exists mx, ex.
  - split; [right|intros _]; by left.
  - split; [right|intros _]; by apply Hff.
Qed.

Lemma SFdiv_normal (sx sy : bool) (mx my : positive) (ex ey : Z) :
  Zdigits2 (Zpos mx) = prec → Zdigits2 (Zpos my) = prec →
  emin prec emax + prec ≤ ex - ey →
  ∃ (m : positive) (mag : Z),
    Zdigits2 (Zpos m) = prec ∧ ex - ey ≤ mag ≤ ex - ey + 2
    ∧ SFdiv prec emax (S754_finite sx mx ex) (S754_finite sy my ey)
      = if mag <=? emax then S754_finite (xorb sx sy) m (mag - prec)
        else S754_infinity (xorb sx sy).
Proof using Hprec Hemax.
  intros Hdx Hdy HL. cbn [SFdiv]. unfold SFdiv_core_binary.
  rewrite Hdx, Hdy.
  replace (prec + ex - (prec + ey)) with (ex - ey) by lia.
  rewrite fexp_normal by done.
  replace (Z.min (ex - ey - prec) (ex - ey)) with (ex - ey - prec) by lia.
  replace (ex - ey - (ex - ey - prec)) with prec by lia.
  assert (∀ a, match prec with
               | Z.pos _ => Z.shiftl a prec
               | 0 => a
               | Z.neg _ => 0
               end = a * 2 ^ prec) as ->.
  { intros a. rewrite <- Z.shiftl_mul_pow2 by lia. destruct prec; [lia|done|lia]. }
  destruct (Z.div_eucl (Z.pos mx * 2 ^ prec) (Z.pos my)) as [q r] eqn:Eq.
  assert (q = Zpos mx * 2 ^ prec / Zpos my) as Hq by (unfold Z.div; by rewrite Eq).
  pose proof (Zdigits2_bounds (Zpos mx) ltac:(lia)) as Bx.
  pose proof (Zdigits2_bounds (Zpos my) ltac:(lia)) as By.
  rewrite Hdx in Bx. rewrite Hdy in By.
  assert (0 < 2 ^ prec) as Hp by (apply Z.pow_pos_nonneg; lia).
  assert (0 < 2 ^ (prec - 1)) as Hp1 by (apply Z.pow_pos_nonneg; lia).
  assert (2 ^ prec = 2 * 2 ^ (prec - 1)) as Hpp.
  { replace prec with (1 + (prec - 1)) at 1 by lia. rewrite Z.pow_add_r by lia. done. }
  assert (2 ^ (prec - 1) ≤ q) as Hqlo.
  { rewrite Hq. apply Z.div_le_lower_bound; [lia|]. nia. }
  assert (q < 2 ^ (prec + 1)) as Hqhi.
  { rewrite Hq. apply Z.div_lt_upper_bound; [lia|].
    rewrite Z.pow_add_r by lia. change (2 ^ 1) with 2. nia. }
  assert (prec ≤ Zdigits2 q ≤ prec + 1) as Hdq.
  { split.
    - pose proof (Zdigits2_ge q (prec - 1) ltac:(lia) Hqlo). lia.
    - destruct (Z.le_gt_cases (Zdigits2 q) (prec + 1)) as [|Hgt]; [done|].
      pose proof (Zdigits2_bounds q ltac:(lia)) as [Bq _].
      assert (2 ^ (prec + 1) ≤ 2 ^ (Zdigits2 q - 1)) by (apply Z.pow_le_mono_r; lia).
      lia. }
  destruct (binary_round_aux_normal (xorb sx sy) q (ex - ey - prec)
              (new_location (Z.pos my) r)) as (m & mag & H1 & H2 & H3); [lia|lia|lia|].
  exists m, mag. split; [done|]. split; [lia|done].
Qed.

Lemma SFdiv_large (L U : Z) (x y : spec_float) :
  large prec false L x →
  (∃ my ey, y = S754_finite false my ey ∧ Zdigits2 (Zpos my) = prec ∧ prec + ey ≤ U) →
  emin prec emax + prec ≤ L - U →
  large prec false (L - U) (SFdiv prec emax x y).
Proof using Hprec Hemax.
  intros [->|(mx & ex & -> & Hdx & Hx)] (my & ey & -> & Hdy & Hy) HL; [by left|].
  eapply rounded_large.
  - apply (SFdiv_normal false false); [done|done|lia].
  - lia.
Qed.




Lemma SFsqrt_large (L L' : Z) (x : spec_float) :
  large prec false L x →
  2 * L' ≤ L + 1 → emin prec emax + prec ≤ L' →
  large prec false L' (SFsqrt prec emax x).
Proof using Hprec Hemax.
  intros [->|(mx & ex & -> & Hdx & Hx)] HL HL'; [by left|].
  cbn [SFsqrt]. unfold SFsqrt_core_binary. rewrite Hdx.
  pose proof (div2_bounds (prec + ex + 1)) as B1.
  pose proof (div2_bounds ex) as B2.
  rewrite fexp_normal by lia.
  set (e' := Z.min (Z.div2 (prec + ex + 1) - prec) (Z.div2 ex)).
  assert (0 ≤ ex - 2 * e') as Hs by lia.
  assert (match ex - 2 * e' with
          | Z.pos _ => Z.shiftl (Z.pos mx) (ex - 2 * e')
          | 0 => Z.pos mx
          | Z.neg _ => 0
          end = Zpos mx * 2 ^ (ex - 2 * e')) as ->.
  { rewrite <- Z.shiftl_mul_pow2 by lia. destruct (ex - 2 * e'); [done|done|lia]. }
  set (m' := Zpos mx * 2 ^ (ex - 2 * e')).
  assert (0 < 2 ^ (ex - 2 * e')) by (apply Z.pow_pos_nonneg; lia).
  assert (Zdigits2 m' = prec + ex - 2 * e') as Hdm.
  { unfold m'. rewrite Zdigits2_mul_pow2 by lia. lia. }
  pose proof (Z.sqrtrem_spec m' ltac:(lia)) as Hsq.
  destruct (Z.sqrtrem m') as [q r].
  destruct Hsq as (Hm' & Hr).
  (* the root has at least [h + 1] digits whenever [2 h < digits m'] *)
  assert (∀ h, 0 ≤ h → 2 * h + 1 ≤ Zdigits2 m' → h + 1 ≤ Zdigits2 q) as Hroot.
  { intros h Hh Hh2. pose proof (Zdigits2_bounds m' ltac:(lia)) as [Blo _].
    assert (2 ^ (2 * h) ≤ m').
    { etrans; [|exact Blo]. apply Z.pow_le_mono_r; lia. }
    assert (2 ^ (2 * h) = 2 ^ h * 2 ^ h) as E.
    { replace (2 * h) with (h + h) by lia. apply Z.pow_add_r; lia. }
    assert (0 < 2 ^ h) by (apply Z.pow_pos_nonneg; lia).
    assert (2 ^ h ≤ q) by nia.
    by apply Zdigits2_ge. }
  assert (prec ≤ Zdigits2 q) as Hdq.
  { pose proof (Hroot (prec - 1) ltac:(lia) ltac:(lia)). lia. }
  assert (0 < q) as Hq.
  { pose proof (Hroot 0 ltac:(lia) ltac:(lia)) as Hq1.
    destruct q as [|q|q]; [cbn in Hq1; lia|lia|lia]. }
  eapply rounded_large.
  - apply (binary_round_aux_normal); [done|done|lia].
  - lia.
Qed.

(** *** Integers below [2 ^ prec] are represented exactly *)

Lemma binary_normalize_int (k : Z) :
  0 < k < 2 ^ prec →
  ∃ m, Zpos m = k * 2 ^ (prec - Zdigits2 k)
       ∧ Zdigits2 (Zpos m) = prec
       ∧ binary_normalize prec emax k 0 false = S754_finite false m (Zdigits2 k - prec).
Proof using Hprec Hemax.
  intros Hk. destruct k as [|p|p]; [lia| |lia]. cbn [binary_normalize].
  assert (Zdigits2 (Zpos p) ≤ prec) as Hd.
  { destruct (Z.le_gt_cases (Zdigits2 (Zpos p)) prec) as [|Hgt]; [done|].
    pose proof (Zdigits2_bounds (Zpos p) ltac:(lia)) as [Blo _].
    assert (2 ^ prec ≤ 2 ^ (Zdigits2 (Zpos p) - 1)) by (apply Z.pow_le_mono_r; lia). lia. }
  pose proof (Zdigits2_pos (Zpos p) ltac:(lia)) as Hd0.
  unfold binary_round. change (Z.pos (digits2_pos p)) with (Zdigits2 (Zpos p)).
  rewrite Z.add_0_r, fexp_normal by (unfold emin; lia).
  destruct (shl_align_spec p 0 (Zdigits2 (Zpos p) - prec) ltac:(lia)) as (m & -> & Hm).
  replace (0 - (Zdigits2 (Z.pos p) - prec)) with (prec - Zdigits2 (Zpos p)) in Hm by lia.
  assert (Zdigits2 (Zpos m) = prec) as Hdm.
  { rewrite Hm, Zdigits2_mul_pow2 by lia. lia. }
  exists m. split; [done|]. split; [done|].
  pose proof (binary_round_aux_exact false m (Zdigits2 (Zpos p) - prec) 0) as He.
  rewrite Z.mul_1_r, Z.sub_0_r in He. apply He; [lia|done|unfold emin; lia].
Qed.

Lemma binary_normalize_int_inj (k1 k2 : Z) :
  0 ≤ k1 < 2 ^ prec → 0 ≤ k2 < 2 ^ prec →
  binary_normalize prec emax k1 0 false = binary_normalize prec emax k2 0 false →
  k1 = k2.
Proof using Hprec Hemax.
  intros H1 H2 E.
  destruct (Z.eq_dec k1 0) as [->|N1]; destruct (Z.eq_dec k2 0) as [->|N2]; [done| | |].
  - destruct (binary_normalize_int k2 ltac:(lia)) as (m & _ & _ & E2).
    rewrite E2 in E. discriminate.
  - destruct (binary_normalize_int k1 ltac:(lia)) as (m & _ & _ & E1).
    rewrite E1 in E. discriminate.
  - destruct (binary_normalize_int k1 ltac:(lia)) as (m1 & M1 & _ & E1).
    destruct (binary_normalize_int k2 ltac:(lia)) as (m2 & M2 & _ & E2).
    rewrite E1, E2 in E. injection E as Em Ee.
    assert (Zdigits2 k1 = Zdigits2 k2) as Ed by lia.
    rewrite Em, M2, Ed in M1.
    apply Z.mul_cancel_r in M1; [done|].
    pose proof (Zdigits2_pos k2 ltac:(lia)).
    assert (Zdigits2 k2 ≤ prec).
    { destruct (Z.le_gt_cases (Zdigits2 k2) prec) as [|Hgt]; [done|].
      pose proof (Zdigits2_bounds k2 ltac:(lia)) as [Blo _].
      assert (2 ^ prec ≤ 2 ^ (Zdigits2 k2 - 1)) by (apply Z.pow_le_mono_r; lia). lia. }
    assert (0 < 2 ^ (prec - Zdigits2 k2)) by (apply Z.pow_pos_nonneg; lia). lia.
Qed.

(** *** An exact quotient of two such integers is computed exactly *)

Lemma SFdiv_int_exact (c n : Z) :
  0 < c → 0 < n → c * n < 2 ^ prec →
  SFdiv prec emax (binary_normalize prec emax (c * n) 0 false)
                  (binary_normalize prec emax n 0 false)
  = binary_normalize prec emax c 0 false.
Proof using Hprec Hemax.
  intros Hc Hn Hcn.
  destruct (binary_normalize_int (c * n) ltac:(nia)) as (m1 & M1 & D1 & ->).
  destruct (binary_normalize_int n ltac:(nia)) as (m2 & M2 & D2 & ->).
  destruct (binary_normalize_int c ltac:(nia)) as (m3 & M3 & D3 & ->).
  set (da := Zdigits2 (c * n)) in *. set (dn := Zdigits2 n) in *. set (dc := Zdigits2 c) in *.
  pose proof (Zdigits2_mul c n Hc Hn) as Hda. fold da dn dc in Hda.
  pose proof (Zdigits2_pos c Hc) as Hdc. pose proof (Zdigits2_pos n Hn) as Hdn.
  fold dc in Hdc. fold dn in Hdn.
  assert (da ≤ prec) as Hda'.
  { destruct (Z.le_gt_cases da prec) as [|Hgt]; [done|].
    pose proof (Zdigits2_bounds (c * n) ltac:(nia)) as [Blo _]. fold da in Blo.
    assert (2 ^ prec ≤ 2 ^ (da - 1)) by (apply Z.pow_le_mono_r; lia). lia. }
  cbn [SFdiv xorb]. unfold SFdiv_core_binary. rewrite D1, D2.
  replace (prec + (da - prec) - (prec + (dn - prec))) with (da - dn) by lia.
  rewrite fexp_normal by (unfold emin; lia).
  replace (Z.min (da - dn - prec) (da - prec - (dn - prec))) with (da - dn - prec) by lia.
  replace (da - prec - (dn - prec) - (da - dn - prec)) with prec by lia.
  assert (∀ a, match prec with
               | Z.pos _ => Z.shiftl a prec
               | 0 => a
               | Z.neg _ => 0
               end = a * 2 ^ prec) as ->.
  { intros a. rewrite <- Z.shiftl_mul_pow2 by lia. destruct prec; [lia|done|lia]. }
  set (j := dc + dn - da).
  assert (Zpos m1 * 2 ^ prec = (Zpos m3 * 2 ^ j) * Zpos m2) as Hprod.
  { rewrite M1, M2, M3.
    transitivity (c * n * (2 ^ (prec - da) * 2 ^ prec)); [ring|].
    transitivity (c * n * (2 ^ (prec - dc) * 2 ^ j * 2 ^ (prec - dn))); [|ring].
    f_equal. rewrite <- !Z.pow_add_r by lia. f_equal. lia. }
  assert (Z.div_eucl (Zpos m1 * 2 ^ prec) (Zpos m2) = (Zpos m3 * 2 ^ j, 0)) as ->.
  { pose proof (Z.div_eucl_eq (Zpos m1 * 2 ^ prec) (Zpos m2) ltac:(lia)) as Heq.
    pose proof (Z.mod_pos_bound (Zpos m1 * 2 ^ prec) (Zpos m2) ltac:(lia)) as Hmod.
    unfold Z.modulo in Hmod.
    destruct (Z.div_eucl (Zpos m1 * 2 ^ prec) (Zpos m2)) as [q r].
    assert (q = Zpos m3 * 2 ^ j ∧ r = 0) as [-> ->]; [|done].
    apply (Z.div_mod_unique (Zpos m2)); [left; lia | left; lia |].
    rewrite <- Heq, Hprod. ring. }
  assert (new_location (Zpos m2) 0 = loc_Exact) as ->.
  { unfold new_location, new_location_even, new_location_odd.
    by destruct (Z.even (Z.pos m2)). }
  replace (da - dn - prec) with (dc - prec - j) by lia.
  apply (binary_round_aux_exact); [lia | done | unfold emin; lia].
Qed.

End Rounding.

(** ** The analyzer *)

Section Analyze.

Lemma frequency32_count (fl : gmap Z Z) (i : Z) :
  frequency32 fl i = float32_of_int (line_count fl i).
Proof. unfold frequency32, line_count. by destruct (fl !! i). Qed.

Lemma deviation_unfold (fl : gmap Z Z) (size : Z) :
  deviation fl size
  = div64 (fold_left (λ total i, add64 total (deviation_term (mean fl size) fl i))
                     (seqZ 1 size) zero64)
          (float64_of_int size).
Proof. reflexivity. Qed.

(** The integer total of [mean] does not wrap. *)
Lemma mean_total (fl : gmap Z Z) (lines : list Z) :
  ∀ acc : Z,
    0 ≤ acc →
    Forall (λ i, 0 ≤ line_count fl i) lines →
    acc + foldr Z.add 0 (line_count fl <$> lines) < 2 ^ 62 →
    fold_left (λ total i, match fl !! i with
                          | Some frequency => int_add total frequency
                          | None => total
                          end) lines acc
    = acc + foldr Z.add 0 (line_count fl <$> lines).
Proof.
  induction lines as [|i lines IH]; intros acc Hacc Hnn Hsum; cbn [fold_left fmap list_fmap foldr].
  - lia.
  - apply Forall_cons in Hnn as [Hi Hnn]. cbn [fmap list_fmap foldr] in Hsum.
    assert (0 ≤ foldr Z.add 0 (line_count fl <$> lines)) as Hrest.
    { clear -Hnn. induction Hnn; cbn; lia. }
    destruct (fl !! i) as [v|] eqn:E.
    + assert (line_count fl i = v) as Hc by (unfold line_count; by rewrite E).
      rewrite Hc in *.
      unfold int_add. rewrite wrap_int_small by lia. rewrite IH; [lia|lia|done|lia].
    + assert (line_count fl i = 0) as Hc by (unfold line_count; by rewrite E).
      rewrite Hc in *. rewrite IH; [lia|lia|done|lia].
Qed.

Lemma mean_eq (fl : gmap Z Z) (n : Z) :
  float32_exact fl n →
  mean fl n = div32 (float32_of_int (occurrences fl n)) (float32_of_int n).
Proof.
  intros (Hn & Hnn & Hocc). unfold mean, occurrences in *.
  rewrite mean_total; [done|lia| |lia].
  apply Forall_forall. intros i Hi%elem_of_seqZ. apply Hnn. lia.
Qed.

#[local] Instance spec_float_eq_dec : EqDecision spec_float.
Proof. solve_decision. Defined.

Lemma format32 : 2 ≤ prec32 ∧ prec32 < emax32 ∧ emin prec32 emax32 = -149.
Proof. by compute. Qed.

Lemma format64 : 2 ≤ prec64 ∧ prec64 < emax64 ∧ emin prec64 emax64 = -1074.
Proof. by compute. Qed.

Lemma float32_of_int_pos (k : Z) :
  0 < k < 2 ^ 24 →
  ∃ m e, float32_of_int k = S754_finite false m e
         ∧ Zdigits2 (Zpos m) = 24 ∧ -23 ≤ e ≤ 0.
Proof.
  intros Hk. destruct format32 as (H1 & H2 & _).
  destruct (binary_normalize_int prec32 emax32 H1 H2 k Hk) as (m & _ & Hd & E).
  exists m, (Zdigits2 k - prec32). split; [done|]. split; [done|].
  pose proof (Zdigits2_pos k ltac:(lia)).
  pose proof (Zdigits2_upper k 24 Hk ltac:(lia)). unfold prec32. lia.
Qed.

Lemma float64_of_int_pos (k : Z) :
  0 < k < 2 ^ 24 →
  ∃ m e, float64_of_int k = S754_finite false m e
         ∧ Zdigits2 (Zpos m) = 53 ∧ prec64 + e ≤ 24.
Proof.
  intros Hk. destruct format64 as (H1 & H2 & _).
  assert (0 < k < 2 ^ prec64) as Hk'.
  { split; [lia|]. unfold prec64. assert (2 ^ 24 < 2 ^ 53) by (by compute). lia. }
  destruct (binary_normalize_int prec64 emax64 H1 H2 k Hk') as (m & _ & Hd & E).
  exists m, (Zdigits2 k - prec64). split; [done|]. split; [done|].
  pose proof (Zdigits2_upper k 24 Hk ltac:(lia)). lia.
Qed.

(** A line whose frequency is the average adds nothing. *)
Lemma deviation_term_same (average : float32) (fl : gmap Z Z) (i : Z) :
  frequency32 fl i = average →
  (average = S754_zero false ∨ ∃ m e, average = S754_finite false m e) →
  deviation_term average fl i = S754_zero false.
Proof.
  intros Hf Ha. unfold deviation_term. rewrite Hf.
  destruct Ha as [->|(m & e & ->)]; [reflexivity|].
  destruct format32 as (H1 & H2 & _). unfold sub32. by rewrite (SFsub_same prec32 emax32 H1 H2 _ false m e).
Qed.

(** A line whose frequency is not the average adds a term of binade -46
    at least. *)
Lemma deviation_term_large (ma : positive) (ea : Z) (fl : gmap Z Z) (i : Z) :
  Zdigits2 (Zpos ma) = 24 → -47 ≤ ea →
  0 ≤ line_count fl i < 2 ^ 24 →
  frequency32 fl i ≠ S754_finite false ma ea →
  large prec64 false (-46) (deviation_term (S754_finite false ma ea) fl i).
Proof.
  intros Hda Hea Hc Hne. unfold deviation_term.
  destruct format32 as (H1 & H2 & Hmin32). destruct format64 as (H3 & H4 & Hmin64).
  set (z := sub32 (S754_finite false ma ea) (frequency32 fl i)).
  assert (∃ s, large prec32 s (-46) z) as [s Hz].
  { subst z. rewrite frequency32_count in *.
    destruct (Z.eq_dec (line_count fl i) 0) as [E|E].
    - rewrite E. exists false. right. exists ma, ea. unfold prec32.
      split; [done|]. split; [done|lia].
    - destruct (float32_of_int_pos (line_count fl i) ltac:(lia)) as (mf & ef & Ef & Hdf & Hef).
      rewrite Ef in *.
      destruct (SFsub_distinct prec32 emax32 H1 H2 ma mf ea ef Hda Hdf) as [s Hs].
      + congruence.
      + rewrite Hmin32. unfold prec32. lia.
      + exists s. eapply large_weaken; [exact Hs|lia]. }
  assert (large prec32 false (-93) (mul32 z z)) as Hw.
  { pose proof (SFmul_large prec32 emax32 H1 H2 s s (-46) (-46) z z Hz Hz) as Hm.
    rewrite Hmin32 in Hm. unfold prec32 in Hm at 1. specialize (Hm ltac:(lia)).
    by destruct s. }
  assert (large prec64 false (-93) (float64_of_float32 (mul32 z z))) as Hw64.
  { destruct Hw as [->|(m & e & -> & Hd & He)]; [by left|].
    cbn [float64_of_float32 cond_Zopp binary_normalize].
    eapply (rounded_large prec64 emax64 H3 H4).
    - apply (binary_round_normal prec64 emax64 H3 H4).
      rewrite Hmin64, Hd. unfold prec32, prec64 in *. lia.
    - rewrite Hd. unfold prec32 in *. lia. }
  apply (SFsqrt_large prec64 emax64 H3 H4 (-93) (-46)); [done|lia|].
  rewrite Hmin64. unfold prec64. lia.
Qed.

(** *** Sums of counts *)

Lemma sum_const {A} (f : A → Z) (c : Z) (l : list A) :
  (∀ i, i ∈ l → f i = c) → foldr Z.add 0 (f <$> l) = c * Z.of_nat (length l).
Proof.
  induction l as [|i l IH]; intros Hc; cbn [fmap list_fmap foldr length]; [lia|].
  rewrite IH by (intros j Hj; apply Hc; by right).
  rewrite (Hc i) by (by left). lia.
Qed.

Lemma sum_bounds {A} (f : A → Z) (l : list A) (i : A) :
  (∀ j, j ∈ l → 0 ≤ f j) → i ∈ l → 0 ≤ f i ≤ foldr Z.add 0 (f <$> l).
Proof.
  induction l as [|j l IH]; intros Hnn Hi; [by apply elem_of_nil in Hi|].
  cbn [fmap list_fmap foldr].
  assert (0 ≤ foldr Z.add 0 (f <$> l)) as Hrest.
  { clear -Hnn. induction l as [|k l IH]; cbn [fmap list_fmap foldr]; [lia|].
    pose proof (Hnn k ltac:(right; by left)).
    assert (0 ≤ foldr Z.add 0 (f <$> l)); [|lia].
    apply IH. intros j' [->|Hj']%elem_of_cons; apply Hnn; [by left|right; by right]. }
  pose proof (Hnn j ltac:(by left)).
  apply elem_of_cons in Hi as [->|Hi]; [lia|].
  assert (0 ≤ f i ≤ foldr Z.add 0 (f <$> l)); [|lia].
  apply IH; [|done]. intros k Hk. apply Hnn. by right.
Qed.

Lemma line_count_bounds (fl : gmap Z Z) (n i : Z) :
  float32_exact fl n → 1 ≤ i ≤ n → 0 ≤ line_count fl i ≤ occurrences fl n.
Proof.
  intros (Hn & Hnn & Hocc) Hi. apply sum_bounds.
  - intros j Hj%elem_of_seqZ. apply Hnn. lia.
  - apply elem_of_seqZ. lia.
Qed.

Lemma occurrences_uniform (fl : gmap Z Z) (n c : Z) :
  0 ≤ n → (∀ i, 1 ≤ i ≤ n → line_count fl i = c) → occurrences fl n = c * n.
Proof.
  intros Hn Hc. unfold occurrences. rewrite (sum_const _ c).
  - rewrite length_seqZ, Z2Nat.id by lia. done.
  - intros i Hi%elem_of_seqZ. apply Hc. lia.
Qed.

(** *** The average *)

Lemma mean_value (fl : gmap Z Z) (n : Z) :
  float32_exact fl n →
  (occurrences fl n = 0 → mean fl n = S754_zero false)
  ∧ (0 < occurrences fl n →
     ∃ ma ea, mean fl n = S754_finite false ma ea ∧ Zdigits2 (Zpos ma) = 24 ∧ -47 ≤ ea).
Proof.
  intros Hex. rewrite mean_eq by done. destruct Hex as (Hn & Hnn & Hocc).
  destruct (float32_of_int_pos n ltac:(lia)) as (mn & en & -> & Hdn & Hen).
  split.
  - intros ->. reflexivity.
  - intros Hpos.
    destruct (float32_of_int_pos (occurrences fl n) ltac:(lia)) as (mT & eT & -> & HdT & HeT).
    destruct format32 as (H1 & H2 & Hmin).
    destruct (SFdiv_normal prec32 emax32 H1 H2 false false mT mn eT en HdT Hdn)
      as (m & mag & Hd & Hmag & E).
    { rewrite Hmin. unfold prec32. lia. }
    unfold div32. rewrite E.
    destruct (Z.leb_spec mag emax32) as [_|Hgt]; [|unfold emax32 in Hgt; lia].
    exists m, (mag - prec32). split; [done|]. split; [done|]. unfold prec32. lia.
Qed.

Lemma mean_uniform (fl : gmap Z Z) (n c : Z) :
  float32_exact fl n → (∀ i, 1 ≤ i ≤ n → line_count fl i = c) →
  mean fl n = float32_of_int c ∧ 0 ≤ c < 2 ^ 24.
Proof.
  intros Hex Hc. pose proof (line_count_bounds fl n 1 Hex) as Hb1.
  rewrite mean_eq by done. destruct Hex as (Hn & Hnn & Hocc).
  rewrite (Hc 1) in Hb1 by lia. specialize (Hb1 ltac:(lia)).
  rewrite (occurrences_uniform fl n c) in * by (done || lia).
  split; [|lia].
  destruct (Z.eq_dec c 0) as [->|Hc0].
  - destruct (float32_of_int_pos n ltac:(lia)) as (mn & en & -> & _). reflexivity.
  - destruct format32 as (H1 & H2 & _).
    apply (SFdiv_int_exact prec32 emax32 H1 H2); [lia|lia|done].
Qed.

(** *** The sum of the deviations *)

Lemma deviation_sum_zero (average : float32) (fl : gmap Z Z) (lines : list Z) :
  (∀ i, i ∈ lines → deviation_term average fl i = S754_zero false) →
  fold_left (λ total i, add64 total (deviation_term average fl i)) lines zero64 = zero64.
Proof.
  induction lines as [|i lines IH]; intros Hz; [done|].
  cbn [fold_left]. rewrite (Hz i) by (by left).
  change (add64 zero64 (S754_zero false)) with zero64.
  apply IH. intros j Hj. apply Hz. by right.
Qed.

Lemma deviation_sum_large (average : float32) (fl : gmap Z Z) (lines : list Z) :
  ∀ acc : float64,
    zero_or_large prec64 (-46) acc →
    (∀ i, i ∈ lines → zero_or_large prec64 (-46) (deviation_term average fl i)) →
    large prec64 false (-46) acc
    ∨ (∃ i, i ∈ lines ∧ large prec64 false (-46) (deviation_term average fl i)) →
    large prec64 false (-46)
      (fold_left (λ total i, add64 total (deviation_term average fl i)) lines acc).
Proof.
  destruct format64 as (H3 & H4 & Hmin).
  induction lines as [|i lines IH]; intros acc Hacc Hall Hex; cbn [fold_left].
  - destruct Hex as [|(i & Hi & _)]; [done|by apply elem_of_nil in Hi].
  - destruct (SFadd_zero_or_large prec64 emax64 H3 H4 (-46) acc (deviation_term average fl i))
      as [Hsum Hlarge]; [rewrite Hmin; unfold prec64; lia | done | apply Hall; by left |].
    apply IH; [done | intros j Hj; apply Hall; by right |].
    destruct Hex as [Ha|(j & [->|Hj]%elem_of_cons & Hlj)].
    + left. apply Hlarge. by left.
    + left. apply Hlarge. by right.
    + right. by exists j.
Qed.

(** *** Zero deviation *)

Lemma deviation_uniform (fl : gmap Z Z) (n : Z) :
  float32_exact fl n → uniform fl n → deviation fl n = zero64.
Proof.
  intros Hex Hu.
  assert (∀ i, 1 ≤ i ≤ n → line_count fl i = line_count fl 1) as Hc.
  { intros i Hi. apply Hu; [done|]. destruct Hex as (Hn & _). lia. }
  destruct (mean_uniform fl n _ Hex Hc) as [Hmean Hb].
  rewrite deviation_unfold, Hmean.
  rewrite deviation_sum_zero.
  - destruct Hex as (Hn & _).
    destruct (float64_of_int_pos n ltac:(lia)) as (mn & en & -> & _). reflexivity.
  - intros i Hi%elem_of_seqZ. apply deviation_term_same.
    + rewrite frequency32_count, Hc by lia. done.
    + destruct (Z.eq_dec (line_count fl 1) 0) as [->|Hne]; [by left|right].
      destruct (float32_of_int_pos (line_count fl 1) ltac:(lia)) as (m & e & -> & _). eauto.
Qed.

Lemma deviation_not_uniform (fl : gmap Z Z) (n : Z) :
  float32_exact fl n → ¬ uniform fl n → float_eq zero64 (deviation fl n) = false.
Proof.
  intros Hex Hnu.
  destruct (mean_value fl n Hex) as [Hzero Hpos].
  assert (0 < occurrences fl n) as Hocc.
  { destruct (Z.lt_trichotomy 0 (occurrences fl n)) as [|[E|Hneg]]; [done| |].
    - exfalso. apply Hnu. intros i j Hi Hj.
      pose proof (line_count_bounds fl n i Hex Hi). pose proof (line_count_bounds fl n j Hex Hj).
      lia.
    - pose proof (line_count_bounds fl n 1 Hex) as Hb. destruct Hex as (Hn & _). lia. }
  destruct (Hpos Hocc) as (ma & ea & Hmean & Hda & Hea).
  assert (∃ i, 1 ≤ i ≤ n ∧ frequency32 fl i ≠ S754_finite false ma ea) as (i0 & Hi0 & Hne0).
  { destruct (decide (Forall (λ i, frequency32 fl i = S754_finite false ma ea) (seqZ 1 n)))
      as [Hall|Hex'].
    - exfalso. apply Hnu. intros i j Hi Hj. rewrite Forall_forall in Hall.
      pose proof (Hall i ltac:(apply elem_of_seqZ; lia)) as Ei.
      pose proof (Hall j ltac:(apply elem_of_seqZ; lia)) as Ej.
      rewrite frequency32_count in Ei, Ej.
      pose proof (line_count_bounds fl n i Hex Hi). pose proof (line_count_bounds fl n j Hex Hj).
      destruct Hex as (_ & _ & Hlt). destruct format32 as (H1 & H2 & _).
      apply (binary_normalize_int_inj prec32 emax32 H1 H2); unfold prec32; [lia|lia|].
      exact (eq_trans Ei (eq_sym Ej)).
    - apply not_Forall_Exists in Hex'; [|apply _].
      apply Exists_exists in Hex' as (i & Hi%elem_of_seqZ & Hne). exists i. split; [lia|done]. }
  rewrite deviation_unfold, Hmean.
  destruct format64 as (H3 & H4 & Hmin).
  assert (large prec64 false (-46)
            (fold_left (λ total i, add64 total (deviation_term (S754_finite false ma ea) fl i))
                       (seqZ 1 n) zero64)) as Hsum.
  { apply deviation_sum_large.
    - by left.
    - intros i Hi%elem_of_seqZ.
      destruct (decide (frequency32 fl i = S754_finite false ma ea)) as [E|E].
      + left. apply deviation_term_same; [done|]. right. eauto.
      + right. apply deviation_term_large; [done|done| |done].
        pose proof (line_count_bounds fl n i Hex ltac:(lia)).
        destruct Hex as (_ & _ & Hlt). lia.
    - right. exists i0. split; [apply elem_of_seqZ; lia|].
      apply deviation_term_large; [done|done| |done].
      pose proof (line_count_bounds fl n i0 Hex Hi0).
      destruct Hex as (_ & _ & Hlt). lia. }
  destruct Hex as (Hn & _).
  destruct (float64_of_int_pos n ltac:(lia)) as (mn & en & En & Hdn & Hen).
  apply (SFeqb_zero_large prec64 (-46 - 24)).
  apply (SFdiv_large prec64 emax64 H3 H4); [done| |rewrite Hmin; unfold prec64; lia].
  exists mn, en. by rewrite En.
Qed.

(** With exact conversions the deviation is zero exactly for the counts that
    are the same on every line. *)
Lemma deviation_zero_iff (fl : gmap Z Z) (n : Z) :
  float32_exact fl n → float_eq zero64 (deviation fl n) = true ↔ uniform fl n.
Proof.
  intros Hex. split.
  - intros Hz.
    assert (Decision (uniform fl n)) as [Hu|Hnu]; [|done|].
    { unfold uniform.
      destruct (decide (Forall (λ i, Forall (λ j, line_count fl i = line_count fl j) (seqZ 1 n))
                               (seqZ 1 n))) as [Hall|Hnall].
      - left. intros i j Hi Hj. rewrite Forall_forall in Hall.
        specialize (Hall i ltac:(apply elem_of_seqZ; lia)). rewrite Forall_forall in Hall.
        apply Hall, elem_of_seqZ. lia.
      - right. intros Hu. apply Hnall. apply Forall_forall. intros i Hi%elem_of_seqZ.
        apply Forall_forall. intros j Hj%elem_of_seqZ. apply Hu; lia. }
    rewrite deviation_not_uniform in Hz by done. discriminate.
  - intros Hu. by rewrite deviation_uniform.
Qed.

End Analyze.

(** ** The sampler on a stream of lines

    As long as the target is not reached the sampler reads the stream byte by
    byte ([scan]): the doubled enclosure it skips inside a quoted field
    would close the field and open it again, and the lookbehind it resets at
    the start of a read matters only for a linefeed that follows the carriage
    return of the read before. *)

Section Scan.
Variables (sl : Z) (e : byte).

Lemma scan_app (s : SampleState * byte) (buf1 buf2 : list byte) :
  scan e s (buf1 ++ buf2) = scan e (scan e s buf1) buf2.
Proof. apply fold_left_app. Qed.

Lemma scan_step_lines (s : SampleState * byte) (b : byte) :
  actualSampleLines s.1 ≤ actualSampleLines (scan_step e s b).1.
Proof.
  unfold scan_step. cbn [fst snd].
  repeat (case_match; cbn [actualSampleLines]); lia.
Qed.

Lemma scan_lines (s : SampleState * byte) (buf : list byte) :
  actualSampleLines s.1 ≤ actualSampleLines (scan e s buf).1.
Proof.
  revert s. induction buf as [|b buf IH]; intros s; [done|].
  change (scan e s (b :: buf)) with (scan e (scan_step e s b) buf).
  pose proof (scan_step_lines s b). pose proof (IH (scan_step e s b)). lia.
Qed.

Lemma scan_prev (s : SampleState * byte) (buf : list byte) :
  (scan e s buf).2 = default s.2 (last buf).
Proof.
  revert s. induction buf as [|b buf IH]; intros s; [done|].
  change (scan e s (b :: buf)) with (scan e (scan_step e s b) buf).
  rewrite IH, last_cons. by destruct (last buf).
Qed.

Lemma state_eta (st : SampleState) :
  st = {| frequencies := frequencies st; enclosed := enclosed st;
          actualSampleLines := actualSampleLines st |}.
Proof. by destruct st. Qed.

(** The inner loop reads a piece of a chunk byte by byte as long as the
    target is not reached: a doubled enclosure inside a quoted field, which
    it skips, would close the field and open it again. *)
Lemma sample_chunk_scan (buf rest : list byte) (prev : byte) (st : SampleState) :
  match rest with [] => e ≠ x00 | b :: _ => b ≠ e end →
  0 ≤ actualSampleLines st → sl < 2 ^ 62 →
  actualSampleLines (scan e (st, prev) buf).1 < sl →
  sample_chunk sl e prev (buf ++ rest) st
  = sample_chunk sl e (scan e (st, prev) buf).2 rest (scan e (st, prev) buf).1.
Proof.
  intros Hrest Hl Hsl. revert prev st Hl.
  induction buf as [|b buf IH]; intros prev st Hl Hlt; [done|].
  change (scan e (st, prev) (b :: buf)) with (scan e (scan_step e (st, prev) b) buf) in *.
  pose proof (scan_lines (scan_step e (st, prev) b) buf) as Hmono.
  pose proof (scan_step_lines (st, prev) b) as Hstep.
  cbn [fst] in Hstep.
  assert (scan_step e (st, prev) b = ((scan_step e (st, prev) b).1, b)) as Hsnd by done.
  rewrite Hsnd in Hlt |- *. rewrite Hsnd in Hmono. cbn [fst snd] in Hmono.
  rewrite <- IH; [|lia|done].
  cbn [app sample_chunk].
  set (next := match buf ++ rest with [] => x00 | b0 :: _ => b0 end).
  unfold sample_body, scan_step. cbn [fst snd].
  assert (actualSampleLines (scan_step e (st, prev) b).1 < sl) as Hlt' by lia.
  unfold scan_step in Hlt'. cbn [fst snd] in Hlt'.
  case_bool_decide as Hbe.
  - (* the enclosure *)
    destruct (enclosed st) eqn:Henc; cbn [negb orb].
    + case_bool_decide as Hnext.
      * done.
      * (* skipped: [next] is the enclosure again *)
        destruct buf as [|b' buf].
        { exfalso. cbn [app] in next. subst next. destruct rest; congruence. }
        cbn [app] in next. subst next. subst b'.
        cbn [app sample_chunk]. unfold sample_body.
        rewrite bool_decide_eq_true_2 by done. cbn [enclosed negb orb].
        rewrite (state_eta st) at 1. by rewrite Henc.
    + done.
  - destruct ((bool_decide (b = LF) && bool_decide (prev ≠ CR) || bool_decide (b = CR))
              && negb (enclosed st)) eqn:Hbrk.
    + cbn [actualSampleLines] in Hlt'.
      assert (int_add (actualSampleLines st) 1 = actualSampleLines st + 1) as ->.
      { unfold int_add. apply wrap_int_small. lia. }
      cbn [actualSampleLines].
      destruct (sl <=? actualSampleLines st + 1) eqn:Hle; [lia|done].
    + destruct (negb (enclosed st)); [|done].
      by destruct (negb (nonDelimiter b)).
Qed.

End Scan.

Section ScanLoop.
Variables (sl : Z) (e : byte).

Lemma scan_step_lookbehind (st : SampleState) (prev prev' b : byte) :
  ¬ (prev = CR ∧ b = LF) → ¬ (prev' = CR ∧ b = LF) →
  scan_step e (st, prev) b = scan_step e (st, prev') b.
Proof.
  intros H1 H2. unfold scan_step. cbn [fst snd].
  destruct (decide (b = LF)) as [Hb|Hb].
  - rewrite !(bool_decide_eq_true_2 (_ ≠ CR)) by tauto. done.
  - rewrite !(bool_decide_eq_false_2 (b = LF)) by done. done.
Qed.

Lemma scan_lookbehind (st : SampleState) (prev prev' : byte) (buf : list byte) :
  ¬ (prev = CR ∧ head buf = Some LF) → ¬ (prev' = CR ∧ head buf = Some LF) →
  (scan e (st, prev) buf).1 = (scan e (st, prev') buf).1.
Proof.
  destruct buf as [|b buf]; [done|]. cbn [head]. intros H1 H2.
  change (scan e (st, ?p) (b :: buf)) with (scan e (scan_step e (st, p) b) buf).
  rewrite (scan_step_lookbehind st prev prev' b); [done| |];
    intros [? ?]; [apply H1|apply H2]; split; congruence.
Qed.

Lemma sample_loop_cons (buf : list byte) (reads : list (list byte)) (st : SampleState) :
  sample_loop sl e (buf :: reads) st = sample_loop sl e reads (sample_chunk sl e x00 buf st).
Proof. reflexivity. Qed.

Lemma sample_loop_app (reads1 reads2 : list (list byte)) (st : SampleState) :
  sample_loop sl e (reads1 ++ reads2) st = sample_loop sl e reads2 (sample_loop sl e reads1 st).
Proof. unfold sample_loop. apply fold_left_app. Qed.

(** The outer loop reads the stream byte by byte, whatever the reads, as
    long as the target is not reached and no read starts with the linefeed
    of a carriage return that ended the read before. *)
Lemma sample_loop_scan (reads : list (list byte)) (prev : byte) (st : SampleState) :
  e ≠ x00 → 0 ≤ actualSampleLines st → sl < 2 ^ 62 →
  crlf_split prev reads = false →
  actualSampleLines (scan e (st, prev) (concat reads)).1 < sl →
  sample_loop sl e reads st = (scan e (st, prev) (concat reads)).1.
Proof.
  intros He Hl Hsl. revert prev st Hl.
  induction reads as [|buf reads IH]; intros prev st Hl Hsplit Hlt; [done|].
  cbn [crlf_split] in Hsplit. apply orb_false_elim in Hsplit as [Hhere Hsplit].
  cbn [concat] in Hlt |- *. rewrite scan_app in Hlt |- *.
  assert (¬ (prev = CR ∧ head buf = Some LF)) as Hprev.
  { intros [-> Hh]. rewrite Hh in Hhere. by rewrite !bool_decide_eq_true_2 in Hhere. }
  assert ((scan e (st, x00) buf).1 = (scan e (st, prev) buf).1) as Hsame.
  { apply scan_lookbehind; [|done]. by intros [? _]. }
  pose proof (scan_lines e (scan e (st, prev) buf) (concat reads)) as Hmono.
  pose proof (scan_lines e (st, prev) buf) as Hmono'. cbn [fst] in Hmono'.
  rewrite sample_loop_cons.
  assert (sample_chunk sl e x00 buf st = (scan e (st, prev) buf).1) as ->.
  { rewrite <- (app_nil_r buf) at 1.
    rewrite (sample_chunk_scan sl e buf [] x00 st); [by rewrite Hsame|done|done|done|].
    rewrite Hsame. lia. }
  rewrite (IH (scan e (st, prev) buf).2 (scan e (st, prev) buf).1).
  - by rewrite <- surjective_pairing.
  - lia.
  - by rewrite scan_prev.
  - by rewrite <- surjective_pairing.
Qed.

Lemma crlf_split_app (prev : byte) (reads1 reads2 : list (list byte)) :
  crlf_split prev (reads1 ++ reads2)
  = crlf_split prev reads1 || crlf_split (default prev (last (concat reads1))) reads2.
Proof.
  revert prev. induction reads1 as [|buf reads1 IH]; intros prev; [done|].
  cbn [app crlf_split concat]. rewrite IH, orb_assoc. do 2 f_equal.
  rewrite last_app. destruct (last (concat reads1)); [done|]. done.
Qed.

End ScanLoop.

Section ScanRows.
Variable (e : byte).

Lemma recorded_count_increment (f : gmap byte (gmap Z Z)) (c d : byte) (l l' : Z) :
  recorded_count (increment f c l) d l'
  = if decide (d = c ∧ l' = l) then int_add (recorded_count f c l) 1
    else recorded_count f d l'.
Proof.
  assert (increment f c l
          = <[c := <[l := int_add (recorded_count f c l) 1]> (default ∅ (f !! c))]> f) as ->.
  { unfold increment, recorded_count, line_count.
    destruct (f !! c) as [row|] eqn:Hc; simpl.
    - rewrite Hc. simpl. destruct (row !! l) as [v|] eqn:Hl; simpl.
      + by rewrite Hl.
      + rewrite lookup_insert_eq. simpl. by rewrite insert_insert_eq.
    - rewrite lookup_insert_eq. simpl. rewrite lookup_empty, lookup_insert_eq.
      simpl. by rewrite !insert_insert_eq. }
  unfold recorded_count at 1. destruct (decide (d = c)) as [->|Hd].
  - rewrite lookup_insert_eq. unfold line_count.
    destruct (decide (l' = l)) as [->|Hl].
    + rewrite lookup_insert_eq. by rewrite decide_True.
    + rewrite lookup_insert_ne by done. rewrite decide_False by tauto.
      unfold recorded_count, line_count. destruct (f !! c); [done|].
      simpl. by rewrite lookup_empty.
  - rewrite lookup_insert_ne by done. by rewrite decide_False by tauto.
Qed.

Lemma count_byte_cons (d b : byte) (s : list byte) :
  count_byte d (b :: s) = (if decide (b = d) then 1 else 0) + count_byte d s.
Proof.
  unfold count_byte. destruct (decide (b = d)) as [Hb|Hb].
  - rewrite filter_cons_True by done. cbn [length]. lia.
  - rewrite filter_cons_False by done. lia.
Qed.

Lemma count_byte_nonneg (d : byte) (s : list byte) : 0 ≤ count_byte d s.
Proof. unfold count_byte. lia. Qed.

(** Reading bytes without an unenclosed line break leaves the line counter
    alone, follows the quoted fields, and adds to the count of a character
    at the current line its unenclosed occurrences. *)
Lemma scan_segment (buf : list byte) (st : SampleState) (prev : byte) :
  forallb no_line_break (unenclosed e (enclosed st) buf) = true →
  actualSampleLines (scan e (st, prev) buf).1 = actualSampleLines st
  ∧ enclosed (scan e (st, prev) buf).1 = ends_inside e (enclosed st) buf
  ∧ (∀ d l, l ≠ actualSampleLines st →
       recorded_count (frequencies (scan e (st, prev) buf).1) d l
       = recorded_count (frequencies st) d l)
  ∧ (∀ d, nonDelimiter d = false →
       0 ≤ recorded_count (frequencies st) d (actualSampleLines st) →
       recorded_count (frequencies st) d (actualSampleLines st)
       + count_byte d (unenclosed e (enclosed st) buf) < 2 ^ 63 →
       recorded_count (frequencies (scan e (st, prev) buf).1) d (actualSampleLines st)
       = recorded_count (frequencies st) d (actualSampleLines st)
         + count_byte d (unenclosed e (enclosed st) buf)).
Proof.
  revert st prev. induction buf as [|b buf IH]; intros st prev Hfree.
  { cbn. split; [done|]. split; [done|]. split; [done|]. intros; unfold count_byte; cbn; lia. }
  change (scan e (st, prev) (b :: buf)) with (scan e (scan_step e (st, prev) b) buf).
  assert (scan_step e (st, prev) b = ((scan_step e (st, prev) b).1, b)) as -> by done.
  cbn [unenclosed ends_inside] in Hfree |- *.
  unfold scan_step. cbn [fst snd].
  case_bool_decide as Hbe.
  - (* the enclosure *)
    specialize (IH {| frequencies := frequencies st; enclosed := negb (enclosed st);
                      actualSampleLines := actualSampleLines st |} b Hfree).
    cbn [frequencies enclosed actualSampleLines] in IH. exact IH.
  - destruct (enclosed st) eqn:Henc.
    + (* inside a quoted field *)
      rewrite andb_false_r. cbn [negb].
      specialize (IH st b). rewrite Henc in IH. exact (IH Hfree).
    + (* outside *)
      cbn [forallb] in Hfree. apply andb_prop in Hfree as [Hb Hfree].
      unfold no_line_break in Hb. apply andb_prop in Hb as [HbCR HbLF].
      apply negb_true_iff, bool_decide_eq_false in HbCR, HbLF.
      rewrite (bool_decide_eq_false_2 (b = LF)), (bool_decide_eq_false_2 (b = CR)) by done.
      cbn [andb orb negb].
      destruct (nonDelimiter b) eqn:Hnd; cbn [negb].
      * specialize (IH st b). rewrite Henc in IH. destruct (IH Hfree) as (H1 & H2 & H3 & H4).
        split; [done|]. split; [done|]. split; [done|].
        intros d Hd Hpos Hbound. rewrite count_byte_cons in Hbound |- *.
        destruct (decide (b = d)) as [->|Hbd]; [congruence|].
        rewrite H4; [lia|done|done|lia].
      * specialize (IH {| frequencies := increment (frequencies st) b (actualSampleLines st);
                          enclosed := false;
                          actualSampleLines := actualSampleLines st |} b Hfree).
        cbn [frequencies enclosed actualSampleLines] in IH.
        destruct IH as (H1 & H2 & H3 & H4).
        split; [done|]. split; [done|]. split.
        { intros d l Hl. rewrite H3 by done. rewrite recorded_count_increment.
          rewrite decide_False; [done|]. tauto. }
        intros d Hd Hpos Hbound. rewrite count_byte_cons in Hbound |- *.
        pose proof (count_byte_nonneg d (unenclosed e false buf)).
        assert (recorded_count (increment (frequencies st) b (actualSampleLines st)) d
                  (actualSampleLines st)
                = recorded_count (frequencies st) d (actualSampleLines st)
                  + (if decide (b = d) then 1 else 0)) as Hinc.
        { rewrite recorded_count_increment. destruct (decide (b = d)) as [->|Hbd].
          - rewrite decide_True by done. unfold int_add. apply wrap_int_small. lia.
          - rewrite decide_False; [lia|]. intros [-> _]. done. }
        rewrite H4; [rewrite Hinc; lia|done|rewrite Hinc; destruct (decide (b = d)); lia
                     |rewrite Hinc; lia].
Qed.

End ScanRows.

Section Lines.
Variable (e : byte).
Hypothesis (HeCR : e ≠ CR) (HeLF : e ≠ LF).

Lemma last_unenclosed (r : list byte) (inside : bool) (b : byte) :
  ends_inside e inside r = false → last r = Some b → b ≠ e → b ∈ unenclosed e inside r.
Proof.
  revert inside. induction r as [|x r IH]; intros inside Hend Hlast Hb; [done|].
  destruct r as [|y r].
  - injection Hlast as ->. cbn [ends_inside unenclosed] in *.
    rewrite bool_decide_eq_false_2 in Hend |- * by done. subst inside.
    apply elem_of_cons. by left.
  - change (last (x :: y :: r)) with (last (y :: r)) in Hlast.
    change (ends_inside e inside (x :: y :: r))
      with (ends_inside e (if bool_decide (x = e) then negb inside else inside) (y :: r))
      in Hend.
    change (unenclosed e inside (x :: y :: r))
      with (if bool_decide (x = e) then unenclosed e (negb inside) (y :: r)
            else if inside then unenclosed e inside (y :: r)
                 else x :: unenclosed e inside (y :: r)).
    case_bool_decide; [by apply IH|]. destruct inside; [by apply IH|].
    apply elem_of_cons. right. by apply IH.
Qed.

Lemma scan_terminator (t : list byte) (st : SampleState) (prev : byte) :
  terminator t = true → enclosed st = false → prev ≠ CR →
  (scan e (st, prev) t).1
  = {| frequencies := frequencies st; enclosed := false;
       actualSampleLines := actualSampleLines st + 1 |}.
Proof using HeCR HeLF.
  intros Ht Henc Hprev. unfold terminator in Ht.
  apply orb_prop in Ht as [Ht|Ht]; [apply orb_prop in Ht as [Ht|Ht]|];
    apply bool_decide_eq_true in Ht; subst t; cbn [scan fold_left]; unfold scan_step;
    cbn [fst snd frequencies enclosed actualSampleLines]; rewrite Henc.
  - rewrite (bool_decide_eq_false_2 (LF = e)) by done.
    rewrite (bool_decide_eq_true_2 (LF = LF)), (bool_decide_eq_true_2 (prev ≠ CR)) by done.
    done.
  - rewrite (bool_decide_eq_false_2 (CR = e)) by done.
    rewrite (bool_decide_eq_true_2 (CR = CR)) by done. by rewrite orb_true_r.
  - rewrite (bool_decide_eq_false_2 (CR = e)) by done.
    rewrite (bool_decide_eq_true_2 (CR = CR)) by done. rewrite orb_true_r.
    cbn [andb negb frequencies enclosed actualSampleLines].
    rewrite (bool_decide_eq_false_2 (LF = e)) by done.
    rewrite (bool_decide_eq_false_2 (CR ≠ CR)) by (intros HH; by apply HH).
    rewrite (bool_decide_eq_false_2 (LF = CR)) by done.
    rewrite andb_false_r. cbn [orb andb negb]. done.
Qed.

Lemma count_byte_pos_last (d : byte) (r : list byte) :
  0 < count_byte d (unenclosed e false r) → ∃ b, last r = Some b.
Proof.
  destruct r as [|x r]; [unfold count_byte; cbn; lia|]. intros _.
  by apply last_is_Some.
Qed.

(** The content of a line with a comma outside quoted fields: it ends
    outside quoted fields, on the line it started on, and not with a
    carriage return. *)
Lemma scan_line_content (row : list byte * list byte) (c : Z) (st : SampleState)
    (prev : byte) :
  line_of e c row = true → 0 < c →
  enclosed st = false →
  actualSampleLines (scan e (st, prev) row.1).1 = actualSampleLines st
  ∧ enclosed (scan e (st, prev) row.1).1 = false
  ∧ (scan e (st, prev) row.1).2 ≠ CR.
Proof using HeCR.
  destruct row as [r t]. cbn [fst snd]. unfold line_of. cbn [fst snd].
  intros Hrow Hc Henc.
  apply andb_prop in Hrow as [Hrow Hcount]. apply andb_prop in Hrow as [Hrow Ht].
  apply andb_prop in Hrow as [Hfree Hend]. apply negb_true_iff in Hend.
  apply Z.eqb_eq in Hcount. unfold unenclosed_commas in Hcount.
  unfold line_break_free in Hfree.
  destruct (scan_segment e r st prev) as (H1 & H2 & _); [by rewrite Henc|].
  rewrite Henc, Hend in H2. split; [done|]. split; [done|].
  rewrite scan_prev. cbn [snd].
  destruct (count_byte_pos_last ","%byte r) as [b Hb]; [lia|]. rewrite Hb. cbn.
  intros ->. assert (CR ∈ unenclosed e false r) as Hin by (by apply last_unenclosed).
  rewrite forallb_forall in Hfree. apply list_elem_of_In, Hfree in Hin. done.
Qed.

(** At the terminator that takes the counter to the target the inner loop
    is left. *)
Lemma sample_chunk_terminator (sl : Z) (t rest : list byte) (st : SampleState) (prev : byte) :
  terminator t = true → enclosed st = false → prev ≠ CR →
  0 ≤ actualSampleLines st < 2 ^ 62 → sl ≤ actualSampleLines st + 1 →
  sample_chunk sl e prev (t ++ rest) st
  = {| frequencies := frequencies st; enclosed := false;
       actualSampleLines := actualSampleLines st + 1 |}.
Proof using HeCR HeLF.
  intros Ht Henc Hprev Hl Hsl.
  assert (int_add (actualSampleLines st) 1 = actualSampleLines st + 1) as Hadd.
  { unfold int_add. apply wrap_int_small. lia. }
  assert (∃ b t', t = b :: t' ∧ b ≠ e ∧ (b = LF ∨ b = CR)) as (b & t' & -> & Hbe & Hb).
  { unfold terminator in Ht.
    apply orb_prop in Ht as [Ht|Ht]; [apply orb_prop in Ht as [Ht|Ht]|];
      apply bool_decide_eq_true in Ht; subst t; eauto 10. }
  cbn [app sample_chunk]. unfold sample_body.
  rewrite (bool_decide_eq_false_2 (b = e)) by done. rewrite Henc.
  assert (bool_decide (b = LF) && bool_decide (prev ≠ CR) || bool_decide (b = CR) = true) as ->.
  { destruct Hb as [-> | ->].
    - by rewrite (bool_decide_eq_true_2 (LF = LF)), (bool_decide_eq_true_2 (prev ≠ CR)).
    - rewrite (bool_decide_eq_true_2 (CR = CR)) by done. apply orb_true_r. }
  cbn [andb negb actualSampleLines]. rewrite Hadd.
  destruct (sl <=? actualSampleLines st + 1) eqn:Hle; [done|lia].
Qed.

(** A line is read as one line: the counter goes up by one and the commas
    outside its quoted fields are added at the line it started on. *)
Lemma scan_line (row : list byte * list byte) (c : Z) (st : SampleState) (prev : byte) :
  line_of e c row = true → 0 < c < 2 ^ 62 →
  enclosed st = false →
  recorded_count (frequencies st) ","%byte (actualSampleLines st) = 0 →
  actualSampleLines (scan e (st, prev) (row.1 ++ row.2)).1 = actualSampleLines st + 1
  ∧ enclosed (scan e (st, prev) (row.1 ++ row.2)).1 = false
  ∧ (∀ d l, l ≠ actualSampleLines st →
       recorded_count (frequencies (scan e (st, prev) (row.1 ++ row.2)).1) d l
       = recorded_count (frequencies st) d l)
  ∧ recorded_count (frequencies (scan e (st, prev) (row.1 ++ row.2)).1) ","%byte
      (actualSampleLines st) = c.
Proof using HeCR HeLF.
  destruct row as [r t]. cbn [fst snd]. unfold line_of. cbn [fst snd].
  intros Hrow Hc Henc Hzero.
  apply andb_prop in Hrow as [Hrow Hcount]. apply andb_prop in Hrow as [Hrow Ht].
  apply andb_prop in Hrow as [Hfree Hend]. apply negb_true_iff in Hend.
  apply Z.eqb_eq in Hcount. unfold unenclosed_commas in Hcount.
  unfold line_break_free in Hfree.
  destruct (scan_segment e r st prev) as (H1 & H2 & H3 & H4); [by rewrite Henc|].
  rewrite Henc in H2, H4. rewrite Hend in H2.
  specialize (H4 ","%byte eq_refl). rewrite Hzero, Hcount in H4.
  specialize (H4 ltac:(lia) ltac:(lia)).
  assert ((scan e (st, prev) r).2 ≠ CR) as Hprev.
  { rewrite scan_prev. cbn [snd].
    destruct (count_byte_pos_last ","%byte r) as [b Hb]; [lia|]. rewrite Hb. cbn.
    intros ->. assert (CR ∈ unenclosed e false r) as Hin by (by apply last_unenclosed).
    rewrite forallb_forall in Hfree. apply list_elem_of_In, Hfree in Hin. done. }
  rewrite scan_app. rewrite (surjective_pairing (scan e (st, prev) r)).
  rewrite scan_terminator by done.
  cbn [frequencies enclosed actualSampleLines]. rewrite H1.
  split; [done|]. split; [done|]. split; [exact H3|lia].
Qed.

(** Lines of [c] unenclosed commas are read as so many lines, each with the
    count [c] for the comma. *)
Lemma scan_lines_of (rows : list (list byte * list byte)) (c : Z) (st : SampleState)
    (prev : byte) :
  forallb (line_of e c) rows = true → 0 < c < 2 ^ 62 →
  enclosed st = false →
  (∀ l, actualSampleLines st ≤ l → recorded_count (frequencies st) ","%byte l = 0) →
  let s := (scan e (st, prev) (concat ((λ row, row.1 ++ row.2) <$> rows))).1 in
  actualSampleLines s = actualSampleLines st + Z.of_nat (length rows)
  ∧ enclosed s = false
  ∧ (∀ d l, l < actualSampleLines st →
       recorded_count (frequencies s) d l = recorded_count (frequencies st) d l)
  ∧ (∀ l, actualSampleLines st ≤ l < actualSampleLines st + Z.of_nat (length rows) →
       recorded_count (frequencies s) ","%byte l = c)
  ∧ (∀ l, actualSampleLines st + Z.of_nat (length rows) ≤ l →
       recorded_count (frequencies s) ","%byte l = 0).
Proof using HeCR HeLF.
  intros Hrows Hc. revert st prev.
  induction rows as [|row rows IH]; intros st prev Henc Hzero; cbn zeta.
  { cbn. split; [lia|]. split; [done|]. split; [done|]. split; [lia|].
    intros l Hl. apply Hzero. lia. }
  cbn [forallb] in Hrows. apply andb_prop in Hrows as [Hrow Hrows].
  rewrite fmap_cons. cbn [concat]. rewrite scan_app.
  destruct (scan_line row c st prev Hrow Hc Henc) as (H1 & H2 & H3 & H4);
    [apply Hzero; lia|].
  rewrite (surjective_pairing (scan e (st, prev) (row.1 ++ row.2))).
  destruct (IH Hrows (scan e (st, prev) (row.1 ++ row.2)).1
               (scan e (st, prev) (row.1 ++ row.2)).2 H2) as (I1 & I2 & I3 & I4 & I5).
  { intros l Hl. rewrite H3 by lia. apply Hzero. lia. }
  cbn zeta in I1, I2, I3, I4, I5. rewrite H1 in I1, I3, I4, I5. cbn [length].
  split; [lia|]. split; [done|]. split; [|split].
  - intros d l Hl. rewrite I3 by lia. apply H3. lia.
  - intros l Hl. destruct (decide (l = actualSampleLines st)) as [->|Hne].
    + rewrite I3 by lia. exact H4.
    + apply I4. lia.
  - intros l Hl. apply I5. lia.
Qed.

End Lines.

Section SampledLines.

Lemma app_suffix {A} (l1 l2 k1 k2 : list A) :
  l1 ++ l2 = k1 ++ k2 → (length k2 ≤ length l2)%nat →
  ∃ pre, l2 = pre ++ k2 ∧ k1 = l1 ++ pre.
Proof.
  revert k1. induction l1 as [|a l1 IH]; intros k1 Heq Hlen.
  - exists k1. done.
  - destruct k1 as [|a' k1].
    + cbn in Heq. subst k2. cbn in Hlen. rewrite length_app in Hlen. lia.
    + injection Heq as -> Heq. destruct (IH k1 Heq Hlen) as (pre & -> & ->).
      by exists pre.
Qed.

Lemma recorded_count_init (d : byte) (l : Z) :
  recorded_count (frequencies sample_init) d l = 0.
Proof.
  unfold recorded_count, sample_init, createFrequencyTable. cbn [frequencies].
  by rewrite lookup_empty.
Qed.

(** The sampler on a stream of lines of [c] unenclosed commas each, read to
    the end of the lines it is to look at: it counts the lines and records
    [c] commas for each. *)
Lemma sample_lines_of (reads : list (list byte)) (e : byte)
    (rows : list (list byte * list byte)) (rest : list byte) (c : Z) :
  e ≠ x00 → e ≠ CR → e ≠ LF →
  concat reads = stream rows rest →
  forallb (line_of e c) rows = true →
  0 < c < 2 ^ 62 →
  crlf_split x00 reads = false →
  sampled_to_the_end e reads rows rest = true →
  (sample reads sampleLines e).2 = 1 + Z.of_nat (length rows)
  ∧ (∀ i, 1 ≤ i ≤ Z.of_nat (length rows) →
       recorded_count (sample reads sampleLines e).1 ","%byte i = c).
Proof.
  intros He0 HeCR HeLF Hstream Hrows Hc Hsplit Hend.
  unfold sample. cbn [fst snd].
  destruct (scan_lines_of e HeCR HeLF rows c sample_init x00 Hrows Hc eq_refl)
    as (R1 & R2 & _ & R4 & R5); [intros; apply recorded_count_init|].
  cbn zeta in R1, R2, R4, R5. change (actualSampleLines sample_init) with 1 in R1, R4, R5.
  set (lines := concat ((λ row, row.1 ++ row.2) <$> rows)) in *.
  unfold sampled_to_the_end in Hend.
  destruct (Z.of_nat (length rows) <? sampleLines - 1) eqn:Hfew.
  - (* fewer lines than the target: the whole stream is read *)
    apply Z.ltb_lt in Hfew. unfold sampleLines in Hfew.
    unfold line_break_free in Hend.
    destruct (scan_segment e rest (scan e (sample_init, x00) lines).1
                (scan e (sample_init, x00) lines).2) as (T1 & _ & T3 & _);
      [by rewrite R2|].
    rewrite <- surjective_pairing, <- scan_app in T1, T3.
    change (lines ++ rest) with (stream rows rest) in T1, T3. rewrite <- Hstream in T1, T3.
    rewrite (sample_loop_scan sampleLines e reads x00 sample_init);
      [|done|done|done|done|rewrite T1, R1; unfold sampleLines; lia].
    split; [rewrite T1, R1; lia|].
    intros i Hi. rewrite T3 by lia. apply R4. lia.
  - (* as many lines as the target allows: the loop is left at the last terminator *)
    apply andb_prop in Hend as [Hlen Hlast]. apply Z.eqb_eq in Hlen.
    unfold sampleLines in Hlen. apply Nat.leb_le in Hlast.
    destruct (last rows) as [[r t]|] eqn:Hlr; [|apply last_None in Hlr; subst rows; done].
    apply last_Some in Hlr as [rows' ->]. cbn [default snd] in Hlast.
    rewrite forallb_app in Hrows. apply andb_prop in Hrows as [Hrows' Hrow].
    cbn [forallb] in Hrow. rewrite andb_true_r in Hrow.
    assert (terminator t = true) as Ht.
    { unfold line_of in Hrow. cbn [fst snd] in Hrow.
      apply andb_prop in Hrow as [Hrow _]. by apply andb_prop in Hrow as [_ ?]. }
    set (X := concat ((λ row, row.1 ++ row.2) <$> rows') ++ r).
    assert (lines = X ++ t) as Hlines.
    { unfold lines, X. rewrite fmap_app, concat_app. cbn. by rewrite app_nil_r, app_assoc. }
    assert (stream (rows' ++ [(r, t)]) rest = X ++ (t ++ rest)) as HX.
    { unfold stream. fold lines. rewrite Hlines. by rewrite <- app_assoc. }
    rewrite HX in Hstream.
    destruct (last reads) as [final|] eqn:Hlf.
    2: { apply last_None in Hlf. subst reads. cbn in Hlast. rewrite length_app in Hlast.
         destruct t; [done|cbn in Hlast; lia]. }
    apply last_Some in Hlf as [before ->]. cbn [default] in Hlast.
    rewrite concat_app in Hstream. cbn [concat] in Hstream. rewrite app_nil_r in Hstream.
    destruct (app_suffix _ _ _ _ Hstream Hlast) as (pre & -> & HXeq).
    rewrite crlf_split_app in Hsplit. apply orb_false_elim in Hsplit as [Hsplit1 Hsplit2].
    cbn [crlf_split] in Hsplit2. rewrite orb_false_r in Hsplit2.
    (* the state after the content of the last line *)
    destruct (scan_lines_of e HeCR HeLF rows' c sample_init x00 Hrows' Hc eq_refl)
      as (P1 & P2 & _); [intros; apply recorded_count_init|].
    cbn zeta in P1, P2. change (actualSampleLines sample_init) with 1 in P1.
    destruct (scan_line_content e HeCR (r, t) c
                (scan e (sample_init, x00) (concat ((λ row, row.1 ++ row.2) <$> rows'))).1
                (scan e (sample_init, x00) (concat ((λ row, row.1 ++ row.2) <$> rows'))).2
                Hrow ltac:(lia) P2) as (Q1 & Q2 & Q3).
    cbn [fst] in Q1, Q2, Q3. rewrite <- surjective_pairing, <- scan_app in Q1, Q2, Q3.
    fold X in Q1, Q2, Q3. rewrite P1 in Q1.
    rewrite length_app in Hlen. cbn [length] in Hlen.
    (* the reads before the last one *)
    pose proof (scan_lines e (scan e (sample_init, x00) (concat before)) pre) as Hmono.
    rewrite <- scan_app, <- HXeq in Hmono.
    rewrite sample_loop_app. cbn [sample_loop fold_left].
    rewrite (sample_loop_scan sampleLines e before x00 sample_init);
      [|done|done|done|done|unfold sampleLines; lia].
    (* the last read up to the terminator *)
    assert ((scan e ((scan e (sample_init, x00) (concat before)).1, x00) pre).1
            = (scan e (sample_init, x00) X).1) as Hpre.
    { rewrite HXeq, scan_app.
      rewrite (surjective_pairing (scan e (sample_init, x00) (concat before))) at 2.
      apply scan_lookbehind; [by intros [? _]|].
      rewrite scan_prev. cbn [snd]. intros [Hp Hh].
      rewrite Hp in Hsplit2. destruct pre as [|b pre]; [done|].
      cbn [head app] in Hh, Hsplit2. rewrite Hh in Hsplit2.
      by rewrite !bool_decide_eq_true_2 in Hsplit2. }
    assert ((scan e ((scan e (sample_init, x00) (concat before)).1, x00) pre).2 ≠ CR) as Hpp.
    { rewrite scan_prev. cbn [snd]. destruct (last pre) as [b|] eqn:Hb; [|done].
      cbn. rewrite scan_prev, HXeq, last_app, Hb in Q3. done. }
    rewrite (sample_chunk_scan sampleLines e pre (t ++ rest) x00);
      [| |pose proof (scan_lines e (sample_init, x00) (concat before)) as Hb0;
           cbn [fst] in Hb0; change (actualSampleLines sample_init) with 1 in Hb0; lia
       |done
       |rewrite Hpre, Q1; unfold sampleLines; lia].
    2: { unfold terminator in Ht.
         apply orb_prop in Ht as [Ht|Ht]; [apply orb_prop in Ht as [Ht|Ht]|];
           apply bool_decide_eq_true in Ht; subst t; cbn [app]; congruence. }
    rewrite (sample_chunk_terminator e HeCR HeLF sampleLines t rest);
      [|done|by rewrite Hpre|done|rewrite Hpre, Q1; lia
       |rewrite Hpre, Q1; unfold sampleLines; lia].
    rewrite Hpre.
    (* the same state as after reading the terminator *)
    assert ((scan e (sample_init, x00) lines).1
            = {| frequencies := frequencies (scan e (sample_init, x00) X).1;
                 enclosed := false;
                 actualSampleLines := actualSampleLines (scan e (sample_init, x00) X).1 + 1 |})
      as <-.
    { rewrite Hlines, scan_app.
      rewrite (surjective_pairing (scan e (sample_init, x00) X)).
      by apply scan_terminator. }
    split; [exact R1|]. intros i Hi. apply R4. lia.
Qed.

End SampledLines.

(** ** Uniform characters *)

Section Uniform.

Lemma range_order_elem (ft : gmap byte (gmap Z Z)) (order : list byte) (d : byte) :
  range_order ft order → d ∈ order ↔ is_Some (ft !! d).
Proof.
  unfold range_order. intros ->. rewrite list_elem_of_fmap. split.
  - intros ([d' fl] & -> & Hin%elem_of_map_to_list). eauto.
  - intros [fl Hfl]. exists (d, fl). split; [done|]. by apply elem_of_map_to_list.
Qed.

Lemma analyze_elem (order : list byte) (ft : gmap byte (gmap Z Z)) (n : Z) (d : byte)
    (fl : gmap Z Z) :
  range_order ft order → ft !! d = Some fl →
  d ∈ analyze order ft n ↔ float_eq zero64 (deviation fl n) = true.
Proof.
  intros Ho Hd. rewrite analyze_filter, list_elem_of_filter, (range_order_elem ft order d Ho).
  unfold qualifies. rewrite Hd. split; [tauto|eauto].
Qed.

(** The limit of the [float32] conversions: three lines of 5592407
    occurrences each are uniform, yet the total 16777221 is rounded to
    16777220 and the average differs from the frequency. *)
Lemma float32_rounding_hides_uniformity :
  uniform {[1 := 5592407; 2 := 5592407; 3 := 5592407]} 3
  ∧ float_eq zero64 (deviation {[1 := 5592407; 2 := 5592407; 3 := 5592407]} 3) = false.
Proof.
  split; [|vm_compute; reflexivity].
  intros i j Hi Hj.
  assert (i = 1 ∨ i = 2 ∨ i = 3) as [->|[->| ->]] by lia;
    assert (j = 1 ∨ j = 2 ∨ j = 3) as [->|[->| ->]] by lia; reflexivity.
Qed.

(** C1 fails as stated: on the single line [a,b,c,d] without terminator the
    only sampled line holds exactly three unenclosed commas, and the counts
    of the comma are identical on all lines of the effective line count
    (there is none), yet the comma is not a candidate and [DetectDelimiter]
    returns nothing. *)
Lemma single_line_commas_not_detected :
  let reads := buffered_reads (bytes "a,b,c,d") in
  let ft := (sample reads sampleLines quote).1 in
  let total := (sample reads sampleLines quote).2 in
  total = 1
  ∧ (∀ i, 1 ≤ i ≤ total → recorded_count ft ","%byte i = 3)
  ∧ range_order ft (bytes ",")
  ∧ (∃ fl, ft !! ","%byte = Some fl ∧ uniform fl (int_sub total 1))
  ∧ (","%byte ∉ analyze (bytes ",") ft (int_sub total 1))
  ∧ (bytes "," ∉ DetectDelimiter (bytes ",") reads quote).
Proof.
  intros reads ft total.
  assert (total = 1) as Ht by (vm_compute; reflexivity).
  assert (DetectDelimiter (bytes ",") reads quote = []) as Hd by (vm_compute; reflexivity).
  assert (analyze (bytes ",") ft (int_sub total 1) = []) as Ha by (vm_compute; reflexivity).
  split; [exact Ht|].
  split; [intros i Hi; assert (i = 1) as -> by lia; vm_compute; reflexivity|].
  split; [unfold range_order; vm_compute; apply Permutation_refl|].
  split.
  - exists {[1 := 3]}. split; [vm_compute; reflexivity|].
    intros i j Hi. rewrite Ht in Hi. change (int_sub 1 1) with 0 in Hi. lia.
  - rewrite Ha, Hd. split; apply not_elem_of_nil.
Qed.

(** Commas recorded with the same positive count on every line of the
    effective line count are returned. *)
Lemma recorded_commas_returned (order : list byte) (reads : list (list byte)) (e : byte)
    (c : Z) :
  range_order (sample reads sampleLines e).1 order →
  1 ≤ int_sub (sample reads sampleLines e).2 1 →
  0 < c →
  c * int_sub (sample reads sampleLines e).2 1 < 2 ^ 24 →
  (∀ i, 1 ≤ i ≤ int_sub (sample reads sampleLines e).2 1 →
        recorded_count (sample reads sampleLines e).1 ","%byte i = c) →
  bytes "," ∈ DetectDelimiter order reads e.
Proof.
  set (ft := (sample reads sampleLines e).1).
  set (n := int_sub (sample reads sampleLines e).2 1).
  intros Ho Hn Hc Hcn Hcount.
  destruct (ft !! ","%byte) as [fl|] eqn:Hfl.
  2: { specialize (Hcount 1 ltac:(lia)). unfold recorded_count in Hcount.
       rewrite Hfl in Hcount. lia. }
  assert (∀ i, 1 ≤ i ≤ n → line_count fl i = c) as Hline.
  { intros i Hi. specialize (Hcount i Hi). unfold recorded_count in Hcount.
    by rewrite Hfl in Hcount. }
  assert (float32_exact fl n) as Hex.
  { split; [nia|]. split.
    - intros i Hi. rewrite Hline by done. lia.
    - rewrite (occurrences_uniform fl n c) by (done || lia). done. }
  assert (","%byte ∈ analyze order ft n) as Hin.
  { rewrite (analyze_elem order ft n _ fl Ho Hfl). apply deviation_zero_iff; [done|].
    intros i j Hi Hj. by rewrite !Hline. }
  rewrite DetectDelimiter_filter. fold ft n. rewrite <- analyze_filter.
  apply list_elem_of_fmap. exists ","%byte. split; [reflexivity|].
  apply list_elem_of_filter. split; [reflexivity|exact Hin].
Qed.

(** C1, as the code has it.  Let [n] be the effective line count (the
    sampled lines minus one).  A recorded character whose counts are within
    the exact range of [float32] ([1 ≤ n < 2^24], fewer than [2^24]
    occurrences on the lines [1 .. n]) is a candidate of [analyze] exactly
    when its count, a missing line counting as zero, is the same on every
    line of [1 .. n].  And on the stream: when it starts with [n ≥ 1] lines
    that hold the same number [c > 0] of commas outside quoted fields, each
    ended by a linefeed, a carriage return or both, these being all the
    lines the sampler is to look at (fewer than 14 and no line break after
    them, or 14 with the last terminator delivered by the last read), when
    no read parts a carriage return from its linefeed, the enclosure is none
    of NUL, CR and LF, and [c * n < 2^24], then [DetectDelimiter] returns a
    sequence that includes the string [","]. *)
Theorem uniform_characters_are_candidates
    (order : list byte) (reads : list (list byte)) (e : byte) :
  range_order (sample reads sampleLines e).1 order →
  (∀ (d : byte) (fl : gmap Z Z),
     (sample reads sampleLines e).1 !! d = Some fl →
     float32_exact fl (int_sub (sample reads sampleLines e).2 1) →
     d ∈ analyze order (sample reads sampleLines e).1 (int_sub (sample reads sampleLines e).2 1)
     ↔ uniform fl (int_sub (sample reads sampleLines e).2 1))
  ∧ (∀ (rows : list (list byte * list byte)) (rest : list byte) (c : Z),
       e ≠ x00 → e ≠ CR → e ≠ LF →
       concat reads = stream rows rest →
       rows ≠ [] →
       forallb (line_of e c) rows = true →
       0 < c →
       c * Z.of_nat (length rows) < 2 ^ 24 →
       crlf_split x00 reads = false →
       sampled_to_the_end e reads rows rest = true →
       bytes "," ∈ DetectDelimiter order reads e).
Proof.
  intros Ho. split.
  - intros d fl Hd Hex. rewrite (analyze_elem order _ _ d fl Ho Hd).
    by apply deviation_zero_iff.
  - intros rows rest c He0 HeCR HeLF Hstream Hne Hrows Hc Hcn Hsplit Hend.
    assert (0 < Z.of_nat (length rows)) as Hk by (destruct rows; [done|cbn [length]; lia]).
    assert (Z.of_nat (length rows) < sampleLines) as Hk'.
    { unfold sampled_to_the_end in Hend.
      destruct (Z.of_nat (length rows) <? sampleLines - 1) eqn:Hfew.
      - apply Z.ltb_lt in Hfew. lia.
      - apply andb_prop in Hend as [Hlen _]. apply Z.eqb_eq in Hlen. lia. }
    unfold sampleLines in Hk'.
    destruct (sample_lines_of reads e rows rest c) as [Htotal Hcount];
      [done|done|done|done|done|nia|done|done|].
    assert (int_sub (sample reads sampleLines e).2 1 = Z.of_nat (length rows)) as Hn.
    { rewrite Htotal. unfold int_sub. rewrite wrap_int_small; lia. }
    apply (recorded_commas_returned order reads e c); rewrite ?Hn; [done|lia|done|done|done].
Qed.

(** Two lines of three unenclosed commas, one with a quoted field, and an
    unterminated rest, over two reads; and twenty lines of three commas,
    of which the sampler looks at fourteen, in one read. *)
Lemma uniform_characters_are_candidates_witness :
  bytes "," ∈ DetectDelimiter (bytes ",")
                [bytes "a,b";
                 bytes ",c,d" ++ [CR; LF] ++ [quote] ++ bytes "e,f" ++ [quote]
                 ++ bytes ",g,h,i" ++ [LF] ++ bytes "j,k"] quote
  ∧ bytes "," ∈ DetectDelimiter (bytes ",")
                  (buffered_reads (stream (replicate 20 (bytes "a,b,c,dd", [LF])) [])) quote.
Proof.
  split.
  - set (reads := [bytes "a,b";
                   bytes ",c,d" ++ [CR; LF] ++ [quote] ++ bytes "e,f" ++ [quote]
                   ++ bytes ",g,h,i" ++ [LF] ++ bytes "j,k"]).
    assert (range_order (sample reads sampleLines quote).1 (bytes ",")) as Ho.
    { unfold range_order. vm_compute. apply Permutation_refl. }
    apply (proj2 (uniform_characters_are_candidates (bytes ",") reads quote Ho)
             [(bytes "a,b,c,d", [CR; LF]);
              ([quote] ++ bytes "e,f" ++ [quote] ++ bytes ",g,h,i", [LF])]
             (bytes "j,k") 3); try done; reflexivity.
  - set (reads := buffered_reads (stream (replicate 20 (bytes "a,b,c,dd", [LF])) [])).
    assert (range_order (sample reads sampleLines quote).1 (bytes ",")) as Ho.
    { unfold range_order. vm_compute. apply Permutation_refl. }
    apply (proj2 (uniform_characters_are_candidates (bytes ",") reads quote Ho)
             (replicate 14 (bytes "a,b,c,dd", [LF]))
             (stream (replicate 6 (bytes "a,b,c,dd", [LF])) []) 3);
      try done; vm_compute; reflexivity.
Defined.

(** Beyond the read in which the target is reached the sampler goes on
    counting: a hundred and twenty regular lines of three commas, 1080 bytes
    that an in-memory reader delivers in reads of 1024 and 56 bytes, are
    sampled as 16 lines, the fifteenth and the sixteenth without a comma,
    and nothing is returned. *)
Lemma regular_lines_over_two_reads :
  forallb (line_of quote 3) regular_lines = true
  ∧ length <$> buffered_reads (stream regular_lines []) = [1024; 56]%nat
  ∧ (sample (buffered_reads (stream regular_lines [])) sampleLines quote).2 = 16
  ∧ range_order (sample (buffered_reads (stream regular_lines [])) sampleLines quote).1
      (bytes ",")
  ∧ DetectDelimiter (bytes ",") (buffered_reads (stream regular_lines [])) quote = [].
Proof.
  split; [vm_compute; reflexivity|]. split; [vm_compute; reflexivity|].
  split; [vm_compute; reflexivity|]. split; [|vm_compute; reflexivity].
  unfold range_order. vm_compute. apply Permutation_refl.
Qed.

End Uniform.

(** * Further properties of the code *)

(** ** The frequency table *)

Section FrequencyTable.

Lemma increment_insert (f : gmap byte (gmap Z Z)) (c : byte) (l : Z) :
  increment f c l
  = <[c := <[l := int_add (default 0 (entry f c l)) 1]> (default ∅ (f !! c))]> f.
Proof.
  unfold increment, entry. destruct (f !! c) as [row|] eqn:Hc; simpl.
  - rewrite Hc. simpl. destruct (row !! l) as [v|] eqn:Hl; simpl.
    + by rewrite Hl.
    + rewrite lookup_insert_eq. simpl. by rewrite insert_insert_eq.
  - rewrite lookup_insert_eq. simpl. rewrite lookup_empty, lookup_insert_eq.
    simpl. by rewrite !insert_insert_eq.
Qed.

(** X1: after [increment f c l] the entry of [c] at line [l] is one more
    than before (1 when there was none) and every other entry of the table
    is as it was. *)
Theorem increment_entry (f : gmap byte (gmap Z Z)) (c c' : byte) (l l' : Z) :
  entry (increment f c l) c' l'
  = if decide (c' = c ∧ l' = l) then Some (int_add (default 0 (entry f c l)) 1)
    else entry f c' l'.
Proof.
  rewrite increment_insert. unfold entry at 1.
  destruct (decide (c' = c)) as [->|Hc].
  - rewrite lookup_insert_eq. simpl.
    destruct (decide (l' = l)) as [->|Hl].
    + rewrite lookup_insert_eq. by rewrite decide_True.
    + rewrite lookup_insert_ne by done. rewrite decide_False by tauto.
      unfold entry. by destruct (f !! c).
  - rewrite lookup_insert_ne by done. by rewrite decide_False by tauto.
Qed.

Lemma increment_key (f : gmap byte (gmap Z Z)) (c c' : byte) (l : Z) :
  is_Some (increment f c l !! c') ↔ c' = c ∨ is_Some (f !! c').
Proof.
  rewrite increment_insert. destruct (decide (c' = c)) as [->|Hc].
  - rewrite lookup_insert_eq. split; [by left|eauto].
  - rewrite lookup_insert_ne by done. split; [by right|]. by intros [|].
Qed.

End FrequencyTable.

(** ** The run of the sampler as a list of iterations *)

Section Trace.
Variables (sl : Z) (e : byte).

Lemma final_state_app (st : SampleState) (its1 its2 : list Iteration) :
  final_state sl e st (its1 ++ its2) = final_state sl e (final_state sl e st its1) its2.
Proof. unfold final_state. apply fold_left_app. Qed.

Lemma chained_app (st : SampleState) (its1 its2 : list Iteration) :
  chained sl e st (its1 ++ its2)
  ↔ chained sl e st its1 ∧ chained sl e (final_state sl e st its1) its2.
Proof.
  revert st. induction its1 as [|it its1 IH]; intros st; cbn [app chained].
  - unfold final_state. cbn. tauto.
  - rewrite IH. unfold final_state. cbn [fold_left]. tauto.
Qed.

Lemma chunk_iterations_spec (n : nat) :
  ∀ (buf : list byte) (prev : byte) (st : SampleState),
    (length buf ≤ n)%nat →
    chained sl e st (chunk_iterations sl e prev buf st)
    ∧ sample_chunk sl e prev buf st = final_state sl e st (chunk_iterations sl e prev buf st)
    ∧ (length (chunk_iterations sl e prev buf st) ≤ length buf)%nat
    ∧ Forall (λ it, it_current it ∈ buf) (chunk_iterations sl e prev buf st).
Proof.
  induction n as [|n IH]; intros buf prev st Hlen.
  { destruct buf; [|cbn in Hlen; lia]. cbn. by repeat split. }
  destruct buf as [|current rest]; [cbn; by repeat split|].
  cbn [chunk_iterations sample_chunk chained length] in *.
  set (next := match rest with [] => x00 | b :: _ => b end).
  set (it := Build_Iteration prev current next st).
  change (sample_body sl e prev current next st)
    with (sample_body sl e (it_prev it) (it_current it) (it_next it) (it_state it)).
  assert (state_after sl e it
          = (sample_body sl e (it_prev it) (it_current it) (it_next it) (it_state it)).1)
    as Hafter by reflexivity.
  destruct (sample_body sl e (it_prev it) (it_current it) (it_next it) (it_state it))
    as [st' ctl]. cbn [fst] in Hafter.
  assert (∀ its, final_state sl e st (it :: its) = final_state sl e st' its) as Hfin.
  { intros its. unfold final_state. cbn [fold_left]. by rewrite Hafter. }
  rewrite Hfin, Hafter.
  assert (it_current it ∈ current :: rest) as Hcur by (by left).
  destruct ctl.
  - destruct (IH rest current st' ltac:(lia)) as (H1 & H2 & H3 & H4).
    split; [done|]. split; [done|]. split; [cbn; lia|].
    constructor; [done|]. eapply Forall_impl; [exact H4|]. intros ? ?. by right.
  - destruct rest as [|skipped rest'].
    + cbn. split; [done|]. split; [done|]. split; [lia|]. by constructor.
    + destruct (IH rest' skipped st' ltac:(cbn in Hlen; lia)) as (H1 & H2 & H3 & H4).
      split; [done|]. split; [done|]. split; [cbn; lia|].
      constructor; [done|]. eapply Forall_impl; [exact H4|]. intros ? ?. right. by right.
  - cbn. split; [done|]. split; [done|]. split; [lia|]. by constructor.
Qed.

Lemma sample_iterations_spec (reads : list (list byte)) :
  ∀ st : SampleState,
    chained sl e st (sample_iterations sl e reads st)
    ∧ sample_loop sl e reads st = final_state sl e st (sample_iterations sl e reads st)
    ∧ (length (sample_iterations sl e reads st) ≤ length (concat reads))%nat
    ∧ Forall (λ it, it_current it ∈ concat reads) (sample_iterations sl e reads st).
Proof.
  induction reads as [|buf reads IH]; intros st; [cbn; by repeat split|].
  cbn [sample_iterations concat].
  destruct (chunk_iterations_spec (length buf) buf x00 st ltac:(lia)) as (C1 & C2 & C3 & C4).
  destruct (IH (sample_chunk sl e x00 buf st)) as (L1 & L2 & L3 & L4).
  rewrite chained_app, final_state_app, <- C2. unfold sample_loop in *. cbn [fold_left].
  split; [done|]. split; [done|]. split; [rewrite !length_app; lia|].
  apply Forall_app. split.
  - eapply Forall_impl; [exact C4|]. intros ? ?. apply elem_of_app. by left.
  - eapply Forall_impl; [exact L4|]. intros ? ?. apply elem_of_app. by right.
Qed.

(** *** Counting along a chained run *)

Lemma after_lines (it : Iteration) :
  actualSampleLines (state_after sl e it)
  = if unenclosed_line_break e it then int_add (actualSampleLines (it_state it)) 1
    else actualSampleLines (it_state it).
Proof. destruct it as [prev current next st]. apply sample_body_lines. Qed.

Lemma after_frequencies (it : Iteration) :
  frequencies (state_after sl e it)
  = if bool_decide (it_current it ≠ e) && negb (enclosed (it_state it))
       && negb (nonDelimiter (it_current it))
    then increment (frequencies (it_state it)) (it_current it) (actualSampleLines (it_state it))
    else frequencies (it_state it).
Proof.
  destruct it as [prev current next st]. unfold state_after, sample_body.
  cbn [it_prev it_current it_next it_state].
  destruct (decide (current = e)) as [->|Hne].
  - rewrite bool_decide_eq_true_2 by done.
    rewrite (bool_decide_eq_false_2 (e ≠ e)) by (intros H; by apply H).
    cbn [andb]. by destruct (negb (enclosed st) || bool_decide (next ≠ e)).
  - rewrite bool_decide_eq_false_2, (bool_decide_eq_true_2 (current ≠ e)) by done.
    cbn [andb].
    destruct (enclosed st) eqn:He; cbn [negb andb].
    + by rewrite andb_false_r.
    + rewrite andb_true_r. destruct (nonDelimiter current) eqn:Hnd; cbn [negb].
      * destruct (bool_decide (current = LF) && bool_decide (prev ≠ CR)
                  || bool_decide (current = CR)); [|done].
        cbn [actualSampleLines]. by destruct (sl <=? int_add (actualSampleLines st) 1).
      * assert (current ≠ LF ∧ current ≠ CR) as [H1 H2].
        { unfold nonDelimiter in Hnd. apply orb_false_elim in Hnd as [Hnd H2].
          apply orb_false_elim in Hnd as [_ H1].
          by apply bool_decide_eq_false in H1, H2. }
        rewrite (bool_decide_eq_false_2 (current = LF)) by done.
        by rewrite (bool_decide_eq_false_2 (current = CR)) by done.
Qed.

Lemma after_entry (it : Iteration) (d : byte) (l : Z) :
  entry (frequencies (state_after sl e it)) d l
  = if records e d l it
    then Some (int_add (default 0 (entry (frequencies (it_state it)) d l)) 1)
    else entry (frequencies (it_state it)) d l.
Proof.
  rewrite after_frequencies. unfold records.
  destruct (bool_decide (it_current it ≠ e) && negb (enclosed (it_state it))
            && negb (nonDelimiter (it_current it))) eqn:Hrec.
  - rewrite increment_entry.
    apply andb_prop in Hrec as [Hrec Hnd]. apply andb_prop in Hrec as [Hne Hen].
    apply bool_decide_eq_true in Hne.
    destruct (decide (d = it_current it ∧ l = actualSampleLines (it_state it))) as [[-> ->]|Hn].
    + by rewrite !bool_decide_eq_true_2, Hen, Hnd by done.
    + destruct (decide (it_current it = d)) as [<-|Hd].
      * rewrite (bool_decide_eq_false_2 (actualSampleLines (it_state it) = l)) by naive_solver.
        by rewrite andb_false_r.
      * by rewrite bool_decide_eq_false_2 by done.
  - destruct (decide (it_current it = d)) as [<-|Hd].
    + rewrite bool_decide_eq_true_2 by done.
      destruct (bool_decide (actualSampleLines (it_state it) = l)); [|done].
      cbn [andb]. rewrite <- !andb_assoc in *. cbn [andb]. by rewrite Hrec.
    + by rewrite bool_decide_eq_false_2 by done.
Qed.

Lemma line_breaks_seen_cons (it : Iteration) (its : list Iteration) :
  line_breaks_seen e (it :: its)
  = (if unenclosed_line_break e it then 1 else 0) + line_breaks_seen e its.
Proof.
  unfold line_breaks_seen. destruct (unenclosed_line_break e it) eqn:H.
  - rewrite filter_cons_True by done. cbn [length]. lia.
  - rewrite filter_cons_False by congruence. lia.
Qed.

Lemma recordings_cons (d : byte) (l : Z) (it : Iteration) (its : list Iteration) :
  recordings e d l (it :: its) = (if records e d l it then 1 else 0) + recordings e d l its.
Proof.
  unfold recordings. destruct (records e d l it) eqn:H.
  - rewrite filter_cons_True by done. cbn [length]. lia.
  - rewrite filter_cons_False by congruence. lia.
Qed.

Lemma line_breaks_seen_bounds (its : list Iteration) :
  0 ≤ line_breaks_seen e its ≤ Z.of_nat (length its).
Proof.
  unfold line_breaks_seen. pose proof (length_filter (λ it, unenclosed_line_break e it = true) its).
  lia.
Qed.

Lemma recordings_bounds (d : byte) (l : Z) (its : list Iteration) :
  0 ≤ recordings e d l its ≤ Z.of_nat (length its).
Proof.
  unfold recordings. pose proof (length_filter (λ it, records e d l it = true) its). lia.
Qed.

Lemma chained_lines (its : list Iteration) :
  ∀ st : SampleState,
    chained sl e st its →
    - 2 ^ 62 ≤ actualSampleLines st →
    actualSampleLines st + Z.of_nat (length its) < 2 ^ 62 →
    actualSampleLines (final_state sl e st its) = actualSampleLines st + line_breaks_seen e its.
Proof.
  induction its as [|it its IH]; intros st Hch Hlo Hhi.
  - unfold line_breaks_seen. cbn. lia.
  - destruct Hch as [Hst Hch]. rewrite line_breaks_seen_cons.
    change (final_state sl e st (it :: its)) with (final_state sl e (state_after sl e it) its).
    pose proof (after_lines it) as Hl. rewrite Hst in Hl. cbn [length] in Hhi.
    assert (int_add (actualSampleLines st) 1 = actualSampleLines st + 1) as Hadd.
    { apply wrap_int_small. lia. }
    rewrite Hadd in Hl.
    rewrite IH; [|done|destruct (unenclosed_line_break e it); lia..].
    rewrite Hl. destruct (unenclosed_line_break e it); lia.
Qed.

Lemma chained_lines_monotone (its : list Iteration) :
  ∀ st : SampleState,
    chained sl e st its →
    - 2 ^ 62 ≤ actualSampleLines st →
    actualSampleLines st + Z.of_nat (length its) < 2 ^ 62 →
    Forall (λ it, actualSampleLines st ≤ actualSampleLines (it_state it)
                  ≤ actualSampleLines (final_state sl e st its)) its.
Proof.
  induction its as [|it its IH]; intros st Hch Hlo Hhi; [constructor|].
  pose proof (chained_lines (it :: its) st Hch Hlo Hhi) as Hfin.
  pose proof (line_breaks_seen_bounds (it :: its)) as Hb.
  destruct Hch as [Hst Hch].
  change (final_state sl e st (it :: its)) with (final_state sl e (state_after sl e it) its) in *.
  pose proof (after_lines it) as Hl. rewrite Hst in Hl. cbn [length] in Hhi.
  assert (int_add (actualSampleLines st) 1 = actualSampleLines st + 1) as Hadd.
  { apply wrap_int_small. lia. }
  rewrite Hadd in Hl.
  constructor; [rewrite Hst; lia|].
  eapply Forall_impl; [apply (IH (state_after sl e it) Hch)|].
  - destruct (unenclosed_line_break e it); lia.
  - destruct (unenclosed_line_break e it); lia.
  - intros it' Hit'. cbn beta in *. destruct (unenclosed_line_break e it); lia.
Qed.

Lemma chained_entry (d : byte) (l : Z) (its : list Iteration) :
  ∀ st : SampleState,
    chained sl e st its →
    0 ≤ default 0 (entry (frequencies st) d l) →
    default 0 (entry (frequencies st) d l) + Z.of_nat (length its) < 2 ^ 62 →
    entry (frequencies (final_state sl e st its)) d l
    = if recordings e d l its =? 0 then entry (frequencies st) d l
      else Some (default 0 (entry (frequencies st) d l) + recordings e d l its).
Proof.
  induction its as [|it its IH]; intros st Hch Hlo Hhi.
  - unfold recordings. cbn. done.
  - destruct Hch as [Hst Hch]. rewrite recordings_cons.
    change (final_state sl e st (it :: its)) with (final_state sl e (state_after sl e it) its).
    pose proof (after_entry it d l) as He. rewrite Hst in He. cbn [length] in Hhi.
    pose proof (recordings_bounds d l its) as Hb.
    set (v := default 0 (entry (frequencies st) d l)) in *.
    assert (int_add v 1 = v + 1) as Hadd by (apply wrap_int_small; lia).
    rewrite Hadd in He.
    destruct (records e d l it).
    + rewrite IH; [|done|rewrite He; simpl; lia..]. rewrite He. simpl.
      destruct (Z.eqb_spec (recordings e d l its) 0) as [E|E];
        destruct (Z.eqb_spec (1 + recordings e d l its) 0); try lia; f_equal; lia.
    + rewrite IH; [|done|rewrite He; fold v; lia..]. rewrite He. fold v. done.
Qed.

Lemma chained_rows_nonempty (its : list Iteration) :
  ∀ st : SampleState,
    chained sl e st its →
    (∀ d row, frequencies st !! d = Some row → ∃ l, is_Some (row !! l)) →
    ∀ d row, frequencies (final_state sl e st its) !! d = Some row → ∃ l, is_Some (row !! l).
Proof.
  induction its as [|it its IH]; intros st Hch Hinv; [done|].
  destruct Hch as [Hst Hch].
  change (final_state sl e st (it :: its)) with (final_state sl e (state_after sl e it) its).
  apply IH; [done|]. rewrite after_frequencies, Hst.
  destruct (bool_decide (it_current it ≠ e) && negb (enclosed st)
            && negb (nonDelimiter (it_current it))); [|done].
  intros d row. rewrite increment_insert.
  destruct (decide (d = it_current it)) as [->|Hd].
  - rewrite lookup_insert_eq. intros [= <-]. exists (actualSampleLines st).
    by rewrite lookup_insert_eq.
  - rewrite lookup_insert_ne by done. apply Hinv.
Qed.

End Trace.

(** ** What the sampler returns *)

Section SampleResult.

Lemma entry_init (d : byte) (l : Z) : entry (frequencies sample_init) d l = None.
Proof.
  unfold entry, sample_init, createFrequencyTable. cbn [frequencies].
  by rewrite lookup_empty.
Qed.

(** X2: the line count [sample] returns is one more than the number of
    iterations that saw an unenclosed line break (for a stream of fewer than
    [2^61] bytes, so that the counter does not wrap). *)
Theorem sample_counts_line_breaks (reads : list (list byte)) (sl : Z) (e : byte) :
  Z.of_nat (length (concat reads)) < 2 ^ 61 →
  (sample reads sl e).2 = 1 + line_breaks_seen e (sample_iterations sl e reads sample_init).
Proof.
  intros Hlen. unfold sample. cbn [snd].
  destruct (sample_iterations_spec sl e reads sample_init) as (Hch & -> & Hl & _).
  rewrite chained_lines; [done|done|cbn; lia|cbn; lia].
Qed.

Lemma sample_counts_line_breaks_witness :
  (sample (buffered_reads (bytes "a,b" ++ [CR; LF] ++ bytes "c" ++ [LF])) sampleLines quote).2
  = 1 + 2.
Proof.
  rewrite sample_counts_line_breaks; [vm_compute; reflexivity|vm_compute; reflexivity].
Defined.

(** X3: the table [sample] returns holds, for a character and a line, the
    number of iterations that recorded the character at that line, and no
    entry when there was none (same bound on the stream). *)
Theorem sample_table_counts (reads : list (list byte)) (sl : Z) (e d : byte) (l : Z) :
  Z.of_nat (length (concat reads)) < 2 ^ 61 →
  entry (sample reads sl e).1 d l
  = if recordings e d l (sample_iterations sl e reads sample_init) =? 0 then None
    else Some (recordings e d l (sample_iterations sl e reads sample_init)).
Proof.
  intros Hlen. unfold sample. cbn [fst].
  destruct (sample_iterations_spec sl e reads sample_init) as (Hch & -> & Hl & _).
  pose proof (chained_entry sl e d l _ sample_init Hch) as H.
  rewrite entry_init in H. simpl in H. rewrite H by lia.
  by destruct (recordings e d l (sample_iterations sl e reads sample_init) =? 0).
Qed.

Lemma sample_table_counts_witness :
  entry (sample (buffered_reads (bytes "a,b,c" ++ [LF] ++ bytes "d,e" ++ [LF]))
                sampleLines quote).1 ","%byte 1 = Some 2.
Proof.
  rewrite sample_table_counts; [vm_compute; reflexivity|vm_compute; reflexivity].
Defined.

Lemma chained_keys (sl : Z) (e : byte) (its : list Iteration) :
  ∀ st : SampleState,
    chained sl e st its →
    ∀ d, is_Some (frequencies (final_state sl e st its) !! d) →
         is_Some (frequencies st !! d)
         ∨ (d ≠ e ∧ nonDelimiter d = false ∧ ∃ it, it ∈ its ∧ it_current it = d).
Proof.
  induction its as [|it its IH]; intros st Hch d Hd; [by left|].
  destruct Hch as [Hst Hch].
  change (final_state sl e st (it :: its)) with (final_state sl e (state_after sl e it) its) in Hd.
  destruct (IH _ Hch d Hd) as [Hk|(H1 & H2 & it' & Hin & Hcur)].
  - rewrite after_frequencies, Hst in Hk.
    destruct (bool_decide (it_current it ≠ e) && negb (enclosed st)
              && negb (nonDelimiter (it_current it))) eqn:Hrec; [|by left].
    apply increment_key in Hk as [->|Hk]; [|by left]. right.
    apply andb_prop in Hrec as [Hrec Hnd]. apply andb_prop in Hrec as [Hne _].
    apply bool_decide_eq_true in Hne. apply negb_true_iff in Hnd.
    split; [done|]. split; [done|]. exists it. split; [by left|done].
  - right. split; [done|]. split; [done|]. exists it'. split; [by right|done].
Qed.

Lemma sample_keys (reads : list (list byte)) (sl : Z) (e d : byte) :
  is_Some ((sample reads sl e).1 !! d) →
  d ≠ e ∧ nonDelimiter d = false ∧ d ∈ concat reads.
Proof.
  intros Hd. unfold sample in Hd. cbn [fst] in Hd.
  destruct (sample_iterations_spec sl e reads sample_init) as (Hch & Hfin & _ & Hcur).
  rewrite Hfin in Hd.
  destruct (chained_keys sl e _ sample_init Hch d Hd) as [[? Hk]|(H1 & H2 & it & Hin & <-)].
  { unfold sample_init, createFrequencyTable in Hk. cbn [frequencies] in Hk.
    by rewrite lookup_empty in Hk. }
  split; [done|]. split; [done|]. rewrite Forall_forall in Hcur. by apply Hcur.
Qed.

(** X4: a key of the table [sample] returns is never the enclosure and
    never a byte of the class [[[:alnum:]\n\r]], it occurs in the stream,
    and its row is not empty. *)
Theorem sample_table_keys (reads : list (list byte)) (sl : Z) (e : byte) :
  map_Forall (λ d row, d ≠ e ∧ nonDelimiter d = false ∧ d ∈ concat reads
                       ∧ ∃ l, is_Some (row !! l))
             (sample reads sl e).1.
Proof.
  intros d row Hd.
  destruct (sample_keys reads sl e d ltac:(eauto)) as (H1 & H2 & H3).
  split; [done|]. split; [done|]. split; [done|].
  unfold sample in Hd. cbn [fst] in Hd.
  destruct (sample_iterations_spec sl e reads sample_init) as (Hch & Hfin & _ & _).
  rewrite Hfin in Hd.
  eapply (chained_rows_nonempty sl e _ sample_init Hch); [|exact Hd].
  intros d' row' Hk. unfold sample_init, createFrequencyTable in Hk.
  cbn [frequencies] in Hk. by rewrite lookup_empty in Hk.
Qed.

(** X5: every entry of the table [sample] returns counts at least one
    occurrence and at most the bytes of the stream, at a line index between
    1 and the returned line count (same bound on the stream). *)
Theorem sample_table_entries (reads : list (list byte)) (sl : Z) (e d : byte) (l v : Z) :
  Z.of_nat (length (concat reads)) < 2 ^ 61 →
  entry (sample reads sl e).1 d l = Some v →
  1 ≤ v ≤ Z.of_nat (length (concat reads)) ∧ 1 ≤ l ≤ (sample reads sl e).2.
Proof.
  intros Hlen He.
  destruct (sample_iterations_spec sl e reads sample_init) as (Hch & Hfin & Hl & _).
  unfold sample in He. cbn [fst] in He.
  pose proof (chained_entry sl e d l _ sample_init Hch) as H.
  rewrite entry_init in H. simpl in H. rewrite Hfin, H in He by lia. clear H.
  pose proof (recordings_bounds e d l (sample_iterations sl e reads sample_init)) as Hb.
  destruct (Z.eqb_spec (recordings e d l (sample_iterations sl e reads sample_init)) 0)
    as [|Hne]; [done|].
  injection He as <-. split; [lia|].
  assert (∃ it, it ∈ sample_iterations sl e reads sample_init ∧ records e d l it = true)
    as (it & Hin & Hrec).
  { unfold recordings in Hne.
    destruct (filter (λ it, records e d l it = true) (sample_iterations sl e reads sample_init))
      as [|it its'] eqn:Hf; [cbn in Hne; lia|].
    assert (it ∈ filter (λ it, records e d l it = true)
                        (sample_iterations sl e reads sample_init)) as Hit
      by (rewrite Hf; by left).
    apply list_elem_of_filter in Hit as [? ?]. by exists it. }
  pose proof (chained_lines_monotone sl e _ sample_init Hch ltac:(cbn; lia) ltac:(cbn; lia)) as Hmono.
  rewrite Forall_forall in Hmono. specialize (Hmono it Hin).
  unfold records in Hrec. rewrite !andb_true_iff in Hrec.
  destruct Hrec as ((((_ & Hline) & _) & _) & _). apply bool_decide_eq_true in Hline.
  unfold sample. cbn [snd]. rewrite Hfin. cbn in Hmono. lia.
Qed.

Lemma sample_table_entries_witness :
  1 ≤ 2 ≤ Z.of_nat (length (concat (buffered_reads (bytes "a,b,c" ++ [LF] ++ bytes "d,e" ++ [LF]))))
  ∧ 1 ≤ 1 ≤ (sample (buffered_reads (bytes "a,b,c" ++ [LF] ++ bytes "d,e" ++ [LF]))
                    sampleLines quote).2.
Proof.
  apply (sample_table_entries _ sampleLines quote ","%byte 1 2);
    vm_compute; reflexivity.
Defined.

End SampleResult.

(** ** The line counter over several reads *)

Section Overrun.

(** Over one chunk the counter never decreases; below the target it stops
    at the target, and from the target on it grows by one at most (the first
    unenclosed line break leaves the inner loop). *)
Lemma sample_chunk_lines (sl : Z) (e : byte) (n : nat) :
  ∀ (buf : list byte) (prev : byte) (st : SampleState),
    (length buf ≤ n)%nat →
    0 ≤ sl < 2 ^ 62 →
    0 ≤ actualSampleLines st < 2 ^ 62 →
    actualSampleLines st ≤ actualSampleLines (sample_chunk sl e prev buf st)
    ∧ actualSampleLines (sample_chunk sl e prev buf st)
      ≤ Z.max sl (actualSampleLines st + 1).
Proof.
  induction n as [|n IH]; intros buf prev st Hlen Hsl Hst.
  { destruct buf; [cbn; lia | cbn in Hlen; lia]. }
  destruct buf as [|current rest]; [cbn; lia|].
  cbn [sample_chunk length] in *.
  destruct (sample_body sl e prev current _ st) as [st' ctl] eqn:Hb.
  assert (int_add (actualSampleLines st) 1 = actualSampleLines st + 1) as Hadd.
  { apply wrap_int_small. lia. }
  apply sample_body_counter in Hb as [(-> & Hc & _)|(Hctl & Hc)]; [lia|].
  assert (0 ≤ actualSampleLines st' < 2 ^ 62
          ∧ actualSampleLines st ≤ actualSampleLines st'
          ∧ Z.max sl (actualSampleLines st' + 1) ≤ Z.max sl (actualSampleLines st + 1))
    as (Hst' & Hle & Hmax) by lia.
  destruct ctl; [| |done].
  - destruct (IH rest current st' ltac:(lia) Hsl Hst'). lia.
  - destruct rest as [|skipped rest']; [lia|].
    destruct (IH rest' skipped st' ltac:(cbn in Hlen; lia) Hsl Hst'). lia.
Qed.

Lemma sample_loop_lines (sl : Z) (e : byte) (reads : list (list byte)) :
  ∀ st : SampleState,
    0 ≤ sl →
    1 ≤ actualSampleLines st →
    Z.max (sl - 1) (actualSampleLines st) + Z.of_nat (length reads) < 2 ^ 62 →
    1 ≤ actualSampleLines (sample_loop sl e reads st)
    ∧ actualSampleLines (sample_loop sl e reads st)
      ≤ Z.max (sl - 1) (actualSampleLines st) + Z.of_nat (length reads).
Proof.
  induction reads as [|buf reads IH]; intros st Hsl Hst Hlen.
  - cbn. lia.
  - unfold sample_loop in *. cbn [fold_left length] in *.
    destruct (sample_chunk_lines sl e (length buf) buf x00 st ltac:(lia) ltac:(lia) ltac:(lia))
      as [Hlo Hup].
    set (st' := sample_chunk sl e x00 buf st) in *.
    destruct (IH st' Hsl ltac:(lia) ltac:(lia)) as [H1 H2].
    split; [done|]. lia.
Qed.

(** X6: for a target above 1 the line count [sample] returns is at least 1
    and at most the target plus the number of reads after the first: each
    further chunk adds one line at most. *)
Theorem sample_lines_bounds (reads : list (list byte)) (sl : Z) (e : byte) :
  1 < sl < 2 ^ 61 →
  Z.of_nat (length reads) < 2 ^ 61 →
  1 ≤ (sample reads sl e).2
  ∧ (sample reads sl e).2 ≤ sl + Z.max 0 (Z.of_nat (length reads) - 1).
Proof.
  intros Hsl Hlen. unfold sample. cbn [snd].
  assert (2 ^ 61 + 2 ^ 61 = 2 ^ 62) as Hpow by reflexivity.
  destruct (sample_loop_lines sl e reads sample_init ltac:(lia) ltac:(cbn; lia)) as [H1 H2].
  { cbn [sample_init actualSampleLines]. lia. }
  cbn [sample_init actualSampleLines] in H2. split; [done|].
  destruct reads; [cbn in *; lia|]. cbn [length] in *. lia.
Qed.

Lemma sample_lines_bounds_witness :
  1 ≤ (sample (buffered_reads (replicate 2048 LF ++ bytes ",")) sampleLines quote).2
  ∧ (sample (buffered_reads (replicate 2048 LF ++ bytes ",")) sampleLines quote).2
    ≤ sampleLines
      + Z.max 0 (Z.of_nat (length (buffered_reads (replicate 2048 LF ++ bytes ","))) - 1).
Proof.
  apply sample_lines_bounds; vm_compute; split; (reflexivity || discriminate).
Defined.

End Overrun.

(** ** Quoted fields and read boundaries *)

Section Quoting.

(** X7: outside a quoted field, an enclosure, bytes free of the enclosure
    and a closing enclosure not followed by another one are skipped as a
    whole: the scan goes on after them in the state it had before. *)
Theorem quoted_field_skipped (sl : Z) (e prev : byte) (inner rest : list byte)
    (st : SampleState) :
  enclosed st = false →
  e ∉ inner →
  match rest with [] => e ≠ x00 | b :: _ => b ≠ e end →
  sample_chunk sl e prev (e :: inner ++ e :: rest) st = sample_chunk sl e e rest st.
Proof.
  intros He Hin Hnext. destruct st as [ft en lines]. cbn in He. subst en.
  cbn [sample_chunk]. unfold sample_body at 1. rewrite bool_decide_eq_true_2 by done.
  cbn [enclosed negb orb frequencies actualSampleLines].
  rewrite sample_chunk_enclosed_prefix by done.
  cbn [sample_chunk]. unfold sample_body at 1. rewrite bool_decide_eq_true_2 by done.
  cbn [enclosed negb orb frequencies actualSampleLines].
  rewrite bool_decide_eq_true_2; [done|].
  destruct rest; [by intros H|done].
Qed.

Lemma quoted_field_skipped_witness :
  sample_chunk sampleLines quote x00
    (quote :: (bytes "x,y" ++ [LF] ++ bytes "z") ++ quote :: bytes ",b") sample_init
  = sample_chunk sampleLines quote quote (bytes ",b") sample_init.
Proof.
  apply quoted_field_skipped; [reflexivity| |discriminate].
  unfold quote, LF. in_list.
Defined.

(** X14: a carriage return and a linefeed delivered by one read count one
    line; delivered by two consecutive reads they count two, the lookbehind
    of the first byte of a chunk being the zero byte. *)
Theorem CRLF_across_reads (sl : Z) (e : byte) (st : SampleState) :
  enclosed st = false → e ≠ CR → e ≠ LF →
  0 ≤ actualSampleLines st → actualSampleLines st + 2 < sl → sl < 2 ^ 62 →
  actualSampleLines (sample_loop sl e [[CR; LF]] st) = actualSampleLines st + 1
  ∧ actualSampleLines (sample_loop sl e [[CR]; [LF]] st) = actualSampleLines st + 2.
Proof.
  intros He H1 H2 Hlo Hhi Hsl. destruct st as [ft en lines]. cbn in He, Hlo, Hhi. subst en.
  assert (int_add lines 1 = lines + 1) as Ha1 by (apply wrap_int_small; lia).
  assert (int_add (lines + 1) 1 = lines + 2) as Ha2.
  { unfold int_add. rewrite wrap_int_small by lia. lia. }
  unfold sample_loop. cbn [fold_left sample_chunk]. unfold sample_body.
  cbn [enclosed negb frequencies actualSampleLines].
  rewrite !(bool_decide_eq_false_2 (CR = e)) by done.
  rewrite !(bool_decide_eq_false_2 (LF = e)) by done.
  change (bool_decide (CR = LF)) with false. change (bool_decide (CR = CR)) with true.
  change (bool_decide (LF = LF)) with true. change (bool_decide (LF = CR)) with false.
  change (bool_decide (CR ≠ CR)) with false. change (bool_decide (x00 ≠ CR)) with true.
  cbn [andb orb]. rewrite Ha1.
  destruct (Z.leb_spec sl (lines + 1)) as [|_]; [lia|].
  cbn [enclosed negb frequencies actualSampleLines andb orb].
  change (nonDelimiter LF) with true. cbn [negb].
  rewrite Ha2. destruct (Z.leb_spec sl (lines + 2)) as [|_]; [lia|].
  cbn [actualSampleLines]. done.
Qed.

Lemma CRLF_across_reads_witness :
  actualSampleLines (sample_loop sampleLines quote [[CR; LF]] sample_init) = 1 + 1
  ∧ actualSampleLines (sample_loop sampleLines quote [[CR]; [LF]] sample_init) = 1 + 2.
Proof.
  apply CRLF_across_reads; (reflexivity || discriminate).
Defined.

End Quoting.

(** ** What [DetectDelimiter] returns *)

Section Returned.

Lemma DetectDelimiter_elem (order : list byte) (reads : list (list byte)) (e d : byte) :
  validDelimiter d = true →
  string_of_byte d ∈ DetectDelimiter order reads e
  ↔ d ∈ analyze order (sample reads sampleLines e).1 (int_sub (sample reads sampleLines e).2 1).
Proof.
  intros Hv. rewrite DetectDelimiter_filter, <- analyze_filter, list_elem_of_fmap. split.
  - intros (d' & Heq & [Hv' Hin]%list_elem_of_filter).
    by rewrite (string_of_byte_inj d d' Hv' Heq).
  - intros Hin. exists d. split; [done|]. by apply list_elem_of_filter.
Qed.

(** X8: an allow-listed character recorded with counts in the exact range
    of [float32] is returned by [DetectDelimiter] exactly when its count is
    the same on every line of the effective line count; two such characters
    are both returned. *)
Theorem allowed_character_returned_iff_uniform
    (order : list byte) (reads : list (list byte)) (e d : byte) (fl : gmap Z Z) :
  range_order (sample reads sampleLines e).1 order →
  validDelimiter d = true →
  (sample reads sampleLines e).1 !! d = Some fl →
  float32_exact fl (int_sub (sample reads sampleLines e).2 1) →
  string_of_byte d ∈ DetectDelimiter order reads e
  ↔ uniform fl (int_sub (sample reads sampleLines e).2 1).
Proof.
  intros Ho Hv Hd Hex.
  rewrite (DetectDelimiter_elem order reads e d Hv).
  rewrite (analyze_elem order _ _ d fl Ho Hd). by apply deviation_zero_iff.
Qed.

Lemma allowed_character_returned_iff_uniform_witness :
  string_of_byte ";"%byte ∈ DetectDelimiter (bytes ",;") (buffered_reads tie_stream) quote
  ↔ uniform {[1 := 1; 2 := 1]} 2.
Proof.
  assert (int_sub (sample (buffered_reads tie_stream) sampleLines quote).2 1 = 2) as En
    by (vm_compute; reflexivity).
  rewrite <- En.
  apply (allowed_character_returned_iff_uniform (bytes ",;") (buffered_reads tie_stream) quote
           ";"%byte {[1 := 1; 2 := 1]}).
  - unfold range_order. vm_compute. apply Permutation_refl.
  - reflexivity.
  - vm_compute. reflexivity.
  - rewrite En. split; [by vm_compute|]. split; [|by vm_compute].
    intros i Hi. assert (i = 1 ∨ i = 2) as [->| ->] by lia; by vm_compute.
Defined.

(** X9: a character recorded only after the last line of the effective
    line count (on the final unterminated line) has the count zero on every
    analysed line: it is a candidate, and it is returned when
    allow-listed. *)
Theorem character_after_last_line_is_candidate
    (order : list byte) (reads : list (list byte)) (e d : byte) (fl : gmap Z Z) :
  range_order (sample reads sampleLines e).1 order →
  (sample reads sampleLines e).1 !! d = Some fl →
  1 ≤ int_sub (sample reads sampleLines e).2 1 < 2 ^ 24 →
  (∀ i, 1 ≤ i ≤ int_sub (sample reads sampleLines e).2 1 → fl !! i = None) →
  d ∈ analyze order (sample reads sampleLines e).1 (int_sub (sample reads sampleLines e).2 1)
  ∧ (validDelimiter d = true → string_of_byte d ∈ DetectDelimiter order reads e).
Proof.
  intros Ho Hd Hn Hnone.
  set (n := int_sub (sample reads sampleLines e).2 1) in *.
  assert (∀ i, 1 ≤ i ≤ n → line_count fl i = 0) as Hzero.
  { intros i Hi. unfold line_count. by rewrite Hnone. }
  assert (d ∈ analyze order (sample reads sampleLines e).1 n) as Hin.
  { rewrite (analyze_elem order _ _ d fl Ho Hd). apply deviation_zero_iff.
    - split; [done|]. split.
      + intros i Hi. rewrite Hzero by done. lia.
      + rewrite (occurrences_uniform fl n 0) by (done || lia). lia.
    - intros i j Hi Hj. by rewrite !Hzero. }
  split; [done|]. intros Hv. by apply DetectDelimiter_elem.
Qed.

Lemma character_after_last_line_is_candidate_witness :
  string_of_byte ";"%byte
    ∈ DetectDelimiter (bytes ";") (buffered_reads (bytes "a" ++ [LF] ++ bytes "b" ++ [LF] ++ bytes ";"))
        quote.
Proof.
  set (reads := buffered_reads (bytes "a" ++ [LF] ++ bytes "b" ++ [LF] ++ bytes ";")).
  assert (int_sub (sample reads sampleLines quote).2 1 = 2) as En by (vm_compute; reflexivity).
  apply (character_after_last_line_is_candidate (bytes ";") reads quote ";"%byte {[3 := 1]}).
  - unfold range_order. vm_compute. apply Permutation_refl.
  - vm_compute. reflexivity.
  - rewrite En. by vm_compute.
  - rewrite En. intros i Hi. assert (i = 1 ∨ i = 2) as [->| ->] by lia; by vm_compute.
  - reflexivity.
Defined.

(** X10: [DetectDelimiter] returns no string twice, at most four strings,
    and in the order in which [range] visited the table. *)
Theorem DetectDelimiter_no_duplicates
    (order : list byte) (reads : list (list byte)) (e : byte) :
  range_order (sample reads sampleLines e).1 order →
  NoDup (DetectDelimiter order reads e)
  ∧ (length (DetectDelimiter order reads e) ≤ 4)%nat
  ∧ sublist (DetectDelimiter order reads e) (string_of_byte <$> order).
Proof.
  intros Ho. rewrite DetectDelimiter_filter.
  set (cands := filter (λ d, validDelimiter d = true) _).
  assert (NoDup (string_of_byte <$> cands)) as Hnd.
  { apply NoDup_fmap_2_strong.
    - intros d d' _ [Hv' _]%list_elem_of_filter Heq. by apply (string_of_byte_inj d d').
    - subst cands. do 2 apply NoDup_filter. unfold range_order in Ho. rewrite Ho.
      apply NoDup_fst_map_to_list. }
  split; [done|]. split.
  - change 4%nat with (length allowed_strings). apply submseteq_length.
    apply NoDup_submseteq; [done|].
    intros s (d & -> & [Hv _]%list_elem_of_filter)%list_elem_of_fmap.
    apply string_of_valid in Hv as [-> Hin]. done.
  - apply fmap_sublist. subst cands.
    etrans; [apply sublist_filter|apply sublist_filter].
Qed.

Lemma DetectDelimiter_no_duplicates_witness :
  NoDup (DetectDelimiter (bytes ",;") (buffered_reads tie_stream) quote)
  ∧ (length (DetectDelimiter (bytes ",;") (buffered_reads tie_stream) quote) ≤ 4)%nat
  ∧ sublist (DetectDelimiter (bytes ",;") (buffered_reads tie_stream) quote)
            (string_of_byte <$> bytes ",;").
Proof.
  apply DetectDelimiter_no_duplicates.
  unfold range_order. vm_compute. apply Permutation_refl.
Defined.

(** X11: every string [DetectDelimiter] returns is one allow-listed byte
    that occurs in the stream and is not the enclosure. *)
Theorem DetectDelimiter_from_stream
    (order : list byte) (reads : list (list byte)) (e : byte) :
  range_order (sample reads sampleLines e).1 order →
  Forall (λ s, ∃ d, s = [d] ∧ validDelimiter d = true ∧ d ≠ e ∧ d ∈ concat reads)
         (DetectDelimiter order reads e).
Proof.
  intros Ho. rewrite DetectDelimiter_filter. apply Forall_forall.
  intros s (d & -> & [Hv Hin]%list_elem_of_filter)%list_elem_of_fmap.
  apply list_elem_of_filter in Hin as [_ Hin].
  apply (range_order_elem _ order d Ho) in Hin.
  destruct (sample_keys reads sampleLines e d Hin) as (H1 & _ & H3).
  exists d. split; [by apply string_of_valid|]. done.
Qed.

Lemma DetectDelimiter_from_stream_witness :
  Forall (λ s, ∃ d, s = [d] ∧ validDelimiter d = true ∧ d ≠ ","%byte
                    ∧ d ∈ concat (buffered_reads tie_stream))
         (DetectDelimiter (bytes ";") (buffered_reads tie_stream) ","%byte).
Proof.
  apply DetectDelimiter_from_stream.
  unfold range_order. vm_compute. apply Permutation_refl.
Defined.

End Returned.

(** ** Validation in the dialect builder *)

Section DialectValidation.
Import Dialect.

Lemma DecodeRune_width (s : list byte) :
  s ≠ [] → (1 ≤ (Utf8.DecodeRuneInString s).2)%nat.
Proof.
  destruct s as [|s0 rest]; [done|]. intros _. unfold Utf8.DecodeRuneInString.
  repeat case_match; cbn [snd]; lia.
Qed.

Lemma RuneCount_fuel_bounds (fuel : nat) :
  ∀ s : list byte,
    (length s ≤ fuel)%nat →
    0 ≤ Utf8.RuneCount_fuel fuel s ≤ Z.of_nat (length s)
    ∧ (s ≠ [] → 1 ≤ Utf8.RuneCount_fuel fuel s).
Proof.
  induction fuel as [|fuel IH]; intros s Hlen.
  { destruct s; [cbn; split; [lia|done] | cbn in Hlen; lia]. }
  destruct s as [|s0 rest]; [cbn; split; [lia|done]|].
  cbn [Utf8.RuneCount_fuel].
  pose proof (DecodeRune_width (s0 :: rest) ltac:(done)) as Hw.
  set (w := (Utf8.DecodeRuneInString (s0 :: rest)).2) in *.
  pose proof (length_drop (s0 :: rest) w) as Hd.
  destruct (IH (drop w (s0 :: rest)) ltac:(cbn [length] in *; lia)) as [Hb _].
  cbn [length] in *. split; [lia|]. intros _. lia.
Qed.

Lemma RuneCount_bounds (s : list byte) :
  0 ≤ Utf8.RuneCountInString s ≤ Z.of_nat (length s)
  ∧ (Utf8.RuneCountInString s = 0 ↔ s = []).
Proof.
  unfold Utf8.RuneCountInString.
  destruct (RuneCount_fuel_bounds (length s) s ltac:(lia)) as [Hb Hne].
  split; [done|]. split.
  - intros H0. destruct s; [done|]. specialize (Hne ltac:(done)). lia.
  - intros ->. reflexivity.
Qed.

Lemma RuneCount_fuel_ascii (fuel : nat) :
  ∀ s : list byte,
    (length s ≤ fuel)%nat → ascii_string s →
    Utf8.RuneCount_fuel fuel s = Z.of_nat (length s).
Proof.
  induction fuel as [|fuel IH]; intros s Hlen Ha.
  { destruct s; [done | cbn in Hlen; lia]. }
  destruct s as [|s0 rest]; [done|].
  apply Forall_cons in Ha as [H0 Ha]. cbn beta in H0.
  cbn [Utf8.RuneCount_fuel]. unfold Utf8.DecodeRuneInString.
  destruct (Z.ltb_spec (byte_val s0) 128) as [_|]; [|lia].
  change (drop (byte_val s0, 1%nat).2 (s0 :: rest)) with rest.
  rewrite IH; [cbn [length]; lia | cbn in Hlen; lia | exact Ha].
Qed.

Lemma RuneCount_ascii (s : list byte) :
  ascii_string s → Utf8.RuneCountInString s = Z.of_nat (length s).
Proof. intros Ha. by apply RuneCount_fuel_ascii. Qed.

Lemma ReadRune_ascii (b : byte) : byte_val b < 128 → Utf8.ReadRune [b] = byte_val b.
Proof.
  intros Hb. unfold Utf8.ReadRune, Utf8.DecodeRuneInString.
  by destruct (Z.ltb_spec (byte_val b) 128) as [_|]; [|lia].
Qed.

(** X12: for ASCII enclosure and escape strings, [Dialect] returns a
    dialect exactly when the flags are parsed and both strings are one
    character long; the dialect then holds these two characters, the first
    rune of the delimiter string (0 when it is empty) and
    [NoDoubleQuote]. *)
Theorem Dialect_ascii_options (b : bool) (p : DialectBuilder) (d : CsvDialect) :
  ascii_string (quoteCharString p) → ascii_string (escapeCharString p) →
  Dialect b p = inl d
  ↔ flags_parsed b p = true
    ∧ ∃ qb eb, quoteCharString p = [qb] ∧ escapeCharString p = [eb]
               ∧ d = {| Delimiter := Utf8.ReadRune (delimiterCharString p);
                        QuoteChar := byte_val qb;
                        EscapeChar := byte_val eb;
                        DoubleQuote := NoDoubleQuote |}.
Proof.
  intros Hq He. unfold Dialect, flags_parsed.
  rewrite (RuneCount_ascii _ Hq), (RuneCount_ascii _ He).
  set (parsed := match flagSet p with Some f => Parsed f | None => b end).
  assert ((match flagSet p with Some f => negb (Parsed f) | None => negb b end) = negb parsed)
    as -> by (unfold parsed; by destruct (flagSet p)).
  destruct parsed; cbn [negb]; [|split; [done|by intros [? _]]].
  destruct (quoteCharString p) as [|qb [|? ?]] eqn:Eq;
    destruct (escapeCharString p) as [|eb [|? ?]] eqn:Ee; cbn [length];
    repeat match goal with
           | |- context [?a <? ?c] =>
               destruct (Z.ltb_spec a c); try lia
           end;
    try (split; [done|by intros (_ & ? & ? & ? & ? & _)]).
  apply Forall_cons in Hq as [Hqb _]. apply Forall_cons in He as [Heb _].
  cbn beta in Hqb, Heb.
  rewrite (ReadRune_ascii qb Hqb), (ReadRune_ascii eb Heb). split.
  - intros [= <-]. split; [done|]. by exists qb, eb.
  - intros (_ & qb' & eb' & [= <-] & [= <-] & ->). done.
Qed.

Lemma Dialect_ascii_options_witness :
  Dialect true {| quoteCharString := [quote]; escapeCharString := bytes "\";
                  delimiterCharString := bytes ","; flagSet := None |}
  = inl {| Delimiter := 44; QuoteChar := 34; EscapeChar := 92; DoubleQuote := NoDoubleQuote |}.
Proof.
  apply Dialect_ascii_options.
  - repeat constructor.
  - repeat constructor.
  - split; [reflexivity|]. exists quote, "\"%byte. by repeat split.
Defined.

Lemma DecodeRune_width_max (s : list byte) : ((Utf8.DecodeRuneInString s).2 ≤ 4)%nat.
Proof.
  unfold Utf8.DecodeRuneInString, Utf8.leading.
  repeat case_match; simplify_eq; cbn [snd]; lia.
Qed.

Lemma RuneCount_one (s : list byte) :
  Utf8.RuneCountInString s = 1 → s ≠ [] ∧ (length s ≤ 4)%nat.
Proof.
  unfold Utf8.RuneCountInString. destruct s as [|s0 rest]; [discriminate|].
  cbn [length Utf8.RuneCount_fuel]. intros H1. split; [done|].
  pose proof (DecodeRune_width (s0 :: rest) ltac:(done)) as Hw.
  pose proof (DecodeRune_width_max (s0 :: rest)) as Hmax.
  set (w := (Utf8.DecodeRuneInString (s0 :: rest)).2) in *.
  pose proof (length_drop (s0 :: rest) w) as Hd. cbn [length] in Hd.
  destruct (RuneCount_fuel_bounds (length rest) (drop w (s0 :: rest)) ltac:(lia)) as [_ Hne].
  destruct (drop w (s0 :: rest)) as [|? ?] eqn:Hdrop.
  - cbn [length] in Hd. lia.
  - specialize (Hne ltac:(done)). lia.
Qed.

(** X13: when [Dialect] returns a dialect, the flags are parsed, the
    enclosure and escape strings are exactly one rune each (1 to 4 bytes),
    and the dialect holds the decoded runes. *)
Theorem Dialect_accepts_single_runes (b : bool) (p : DialectBuilder) (d : CsvDialect) :
  Dialect b p = inl d →
  flags_parsed b p = true
  ∧ Utf8.RuneCountInString (quoteCharString p) = 1
  ∧ Utf8.RuneCountInString (escapeCharString p) = 1
  ∧ (1 ≤ length (quoteCharString p) ≤ 4)%nat
  ∧ (1 ≤ length (escapeCharString p) ≤ 4)%nat
  ∧ d = {| Delimiter := Utf8.ReadRune (delimiterCharString p);
           QuoteChar := Utf8.ReadRune (quoteCharString p);
           EscapeChar := Utf8.ReadRune (escapeCharString p);
           DoubleQuote := NoDoubleQuote |}.
Proof.
  unfold Dialect, flags_parsed.
  set (parsed := match flagSet p with Some f => Parsed f | None => b end).
  assert ((match flagSet p with Some f => negb (Parsed f) | None => negb b end) = negb parsed)
    as -> by (unfold parsed; by destruct (flagSet p)).
  destruct parsed; cbn [negb]; [|discriminate].
  destruct (Z.ltb_spec 1 (Utf8.RuneCountInString (quoteCharString p))); [discriminate|].
  destruct (Z.ltb_spec 1 (Utf8.RuneCountInString (escapeCharString p))); [discriminate|].
  destruct (Z.ltb_spec (Utf8.RuneCountInString (quoteCharString p)) 1); [discriminate|].
  destruct (Z.ltb_spec (Utf8.RuneCountInString (escapeCharString p)) 1); [discriminate|].
  intros [= <-].
  assert (Utf8.RuneCountInString (quoteCharString p) = 1) as Hq by lia.
  assert (Utf8.RuneCountInString (escapeCharString p) = 1) as He by lia.
  destruct (RuneCount_one _ Hq) as [Hq1 Hq2]. destruct (RuneCount_one _ He) as [He1 He2].
  split; [done|]. split; [done|]. split; [done|].
  split; [destruct (quoteCharString p); [done|cbn [length] in *; lia]|].
  split; [destruct (escapeCharString p); [done|cbn [length] in *; lia]|]. done.
Qed.

Lemma Dialect_accepts_single_runes_witness :
  (1 ≤ length [xc3; xa9] ≤ 4)%nat
  ∧ Utf8.ReadRune [xc3; xa9] = 233.
Proof.
  pose proof (Dialect_accepts_single_runes true
                {| quoteCharString := [xc3; xa9]; escapeCharString := bytes "\";
                   delimiterCharString := bytes ","; flagSet := None |}
                {| Delimiter := 44; QuoteChar := 233; EscapeChar := 92;
                   DoubleQuote := NoDoubleQuote |} eq_refl) as (_ & _ & _ & Hq & _ & Hd).
  split; [exact Hq|]. apply (f_equal QuoteChar) in Hd. symmetry. exact Hd.
Defined.

End DialectValidation.

(** ** The row terminator of an in-memory stream *)

Section InMemory.

Lemma DetectRowTerminator_no_CR (o : ReadOutcome) :
  read_err o = None →
  Z.of_nat (length (read_data o)) ≤ 128 * KB →
  CR ∉ read_data o →
  DetectRowTerminator o = [LF].
Proof.
  intros Herr Hlen Hcr. unfold DetectRowTerminator. rewrite Herr.
  assert (∀ sep, CR ∈ sep → x00 ∉ sep → Index (buffer_after_read (128 * KB) o) sep = -1) as Hidx.
  { intros sep Hin Hz.
    destruct (Z.eq_dec (Index (buffer_after_read (128 * KB) o) sep) (-1)) as [|Hne]; [done|].
    exfalso. apply Index_found in Hne.
    rewrite buffer_after_read_fits in Hne by (unfold KB in *; lia).
    apply occurs_in_padding in Hne as (l1 & l2 & Heq);
      [|intros ->; by apply elem_of_nil in Hin|done].
    apply Hcr. rewrite Heq. rewrite !elem_of_app. auto. }
  rewrite (Hidx [CR; LF]), (Hidx [CR]); [done| | | |];
    unfold CR, LF; rewrite ?elem_of_cons, ?elem_of_nil; intuition congruence.
Qed.

(** X15: for an in-memory stream [DetectRowTerminator] returns the empty
    string exactly for the empty content, and only the first 128 KiB
    decide: without a carriage return among them the result is the
    linefeed, whatever follows. *)
Theorem DetectRowTerminator_in_memory (content : list byte) :
  (DetectRowTerminator (Read_in_memory content (128 * KB)) = [] ↔ content = [])
  ∧ (content ≠ [] → CR ∉ take (Z.to_nat (128 * KB)) content →
     DetectRowTerminator (Read_in_memory content (128 * KB)) = [LF]).
Proof.
  split.
  - split; [|by intros ->].
    destruct content as [|c content]; [done|].
    unfold DetectRowTerminator, Read_in_memory. cbn [read_err].
    by repeat case_match.
  - intros Hne Hcr. destruct content as [|c content]; [done|].
    apply DetectRowTerminator_no_CR; unfold Read_in_memory; cbn [read_err read_data];
      [done| |done].
    rewrite length_take. unfold KB. lia.
Qed.

Lemma DetectRowTerminator_in_memory_witness :
  DetectRowTerminator
    (Read_in_memory (replicate (Z.to_nat (128 * KB)) "a"%byte ++ [CR; LF]) (128 * KB))
  = [LF].
Proof.
  apply (proj2 (DetectRowTerminator_in_memory _)).
  - intros H. apply (f_equal length) in H. rewrite length_app, length_replicate in H.
    cbn [length] in H. lia.
  - rewrite take_app_length' by (by rewrite length_replicate).
    intros [H _]%elem_of_replicate. discriminate H.
Defined.

End InMemory.
